(** * Drag-and-drop item-view examples: tree node store, tree model adapter
      and the e-mail folder drop handlers.

    The owning tree of [TreeNode]s (treenode.cpp / treenode.h) is embedded
    as an inductive tree whose nodes carry their own address: the
    [std::unique_ptr] children are the owned sub-terms, the raw
    [m_parentNode] back-reference is an address.  The model adapter
    (treemodel.cpp) and the folder drop handlers run in a small
    state-and-failure monad over the process memory. *)

From Stdlib Require Import Ascii String ZArith List Lia Bool Permutation.
Import ListNotations.
Open Scope Z_scope.

Set Implicit Arguments.

(* ===================================================================== *)
(** ** Machine integers and toolkit values *)

(** C++ [int] is 32 bits wide: a conversion [int(x)] keeps the low 32 bits,
    read as a signed number. *)
Definition to_int (z : Z) : Z := (z + 2 ^ 31) mod 2 ^ 32 - 2 ^ 31.

Definition INT_MAX : Z := 2 ^ 31 - 1.

(** Raw addresses; a nullable pointer is an [option ptr]. *)
Definition ptr := Z.

(** The [QVariant] values the examples store: strings and numbers; a
    default-constructed [QVariant] is invalid. *)
Inductive QVariant : Type :=
| QVInvalid
| QVString (s : string)
| QVInt (z : Z).

Definition QVariantList := list QVariant.

(** [QList<T>::value(i)]: the element at [i], or a default-constructed
    value when [i] is out of bounds. *)
Definition QList_value {A} (dflt : A) (l : list A) (i : Z) : A :=
  if (0 <=? i) && (i <? Z.of_nat (length l))
  then nth (Z.to_nat i) l dflt
  else dflt.

(** [QList<T>::at(i)]: the element at [i]; out of bounds is an assertion
    failure, rendered as [None]. *)
Definition QList_at {A} (l : list A) (i : Z) : option A :=
  if (0 <=? i) && (i <? Z.of_nat (length l))
  then nth_error l (Z.to_nat i)
  else None.

(** Position of the first element satisfying [f], as [std::find_if]
    followed by [std::distance] computes it. *)
Fixpoint find_index {A} (f : A -> bool) (l : list A) : option nat :=
  match l with
  | [] => None
  | x :: r => if f x then Some O
              else match find_index f r with
                   | Some i => Some (S i)
                   | None => None
                   end
  end.

(* ===================================================================== *)
(** ** The tree node store (treenode.h, treenode.cpp) *)

Module TreeNodes.

Unset Elimination Schemes.

(** One [TreeNode] object.  [this_addr] is the address the object lives
    at (its identity); the other three fields are the private members. *)
Inductive TreeNode : Type :=
  mkTreeNode {
      this_addr : ptr;
      m_childNodes : list TreeNode;
      m_itemData : QVariantList;
      m_parentNode : option ptr
    }.

Set Elimination Schemes.

(** Induction over the owning tree. *)
Section TreeNode_induction.
Variable P : TreeNode -> Prop.
Hypothesis P_node : forall a cs d p, Forall P cs -> P (mkTreeNode a cs d p).

Fixpoint TreeNode_ind (t : TreeNode) : P t :=
  match t with
  | mkTreeNode a cs d p =>
      P_node a d p
        ((fix all (l : list TreeNode) : Forall P l :=
            match l with
            | [] => Forall_nil P
            | c :: r => Forall_cons c (TreeNode_ind c) (all r)
            end) cs)
  end.
End TreeNode_induction.

(** [TreeNode::TreeNode(data, parent)], constructed at address [a]. *)
Definition TreeNode_new (a : ptr) (data : QVariantList) (parent : option ptr)
  : TreeNode :=
  mkTreeNode a [] data parent.

Definition set_children (this : TreeNode) (cs : list TreeNode) : TreeNode :=
  mkTreeNode (this_addr this) cs (m_itemData this) (m_parentNode this).

Definition set_parent (this : TreeNode) (p : option ptr) : TreeNode :=
  mkTreeNode (this_addr this) (m_childNodes this) (m_itemData this) p.

(** [appendChild]: push the child at the back; the child's parent
    back-reference is left as it is. *)
Definition appendChild (this child : TreeNode) : TreeNode :=
  set_children this (m_childNodes this ++ [child]).

(** [insertChild]: re-parent the child to [this] and insert it before
    position [pos].  The iterator [begin() + pos] is only defined for
    [0 <= pos <= size()]; outside that range the behaviour is undefined
    and the model gives no result. *)
Definition insertChild (this : TreeNode) (pos : Z) (child : TreeNode)
  : option TreeNode :=
  if (0 <=? pos) && (pos <=? Z.of_nat (length (m_childNodes this)))
  then Some (set_children this
               (firstn (Z.to_nat pos) (m_childNodes this)
                  ++ set_parent child (Some (this_addr this))
                  :: skipn (Z.to_nat pos) (m_childNodes this)))
  else None.

(** [takeChild]: move the child at [row] out of the sequence and erase the
    slot; the pair is (returned node, [this] afterwards).  Defined only
    for [0 <= row < size()].  The returned node keeps its old
    [m_parentNode]. *)
Definition takeChild (this : TreeNode) (row : Z)
  : option (TreeNode * TreeNode) :=
  if (0 <=? row) && (row <? Z.of_nat (length (m_childNodes this)))
  then match nth_error (m_childNodes this) (Z.to_nat row) with
       | Some ret =>
           Some (ret,
                 set_children this
                   (firstn (Z.to_nat row) (m_childNodes this)
                      ++ skipn (S (Z.to_nat row)) (m_childNodes this)))
       | None => None
       end
  else None.

Definition childCount (this : TreeNode) : Z :=
  to_int (Z.of_nat (length (m_childNodes this))).

(** [child(row)]: the child at [row], or [nullptr] ([None]). *)
Definition child (this : TreeNode) (row : Z) : option TreeNode :=
  if (0 <=? row) && (row <? childCount this)
  then nth_error (m_childNodes this) (Z.to_nat row)
  else None.

Definition columnCount (this : TreeNode) : Z :=
  to_int (Z.of_nat (length (m_itemData this))).

Definition data (this : TreeNode) (column : Z) : QVariant :=
  QList_value QVInvalid (m_itemData this) column.

Definition parentNode (this : TreeNode) : option ptr := m_parentNode this.

(** *** Memory: the owned roots, and dereferencing a raw pointer *)

(** The objects that exist are those reachable from an owner: the
    [rootNode] of each model and any detached [unique_ptr] still held. *)
Definition Store := list TreeNode.

Fixpoint find_node (a : ptr) (t : TreeNode) : option TreeNode :=
  if this_addr t =? a then Some t
  else (fix in_children (l : list TreeNode) : option TreeNode :=
          match l with
          | [] => None
          | c :: r => match find_node a c with
                      | Some n => Some n
                      | None => in_children r
                      end
          end) (m_childNodes t).

Fixpoint deref (st : Store) (a : ptr) : option TreeNode :=
  match st with
  | [] => None
  | t :: r => match find_node a t with
              | Some n => Some n
              | None => deref r a
              end
  end.

(** [row()]: 0 for a node without parent, else the offset of [this]
    among the parent's children, found by comparing addresses.  The
    result is [None] when [m_parentNode] dangles.  When the search fails
    the code asserts (debug) and returns -1 (release). *)
Definition row (st : Store) (this : TreeNode) : option Z :=
  match m_parentNode this with
  | None => Some 0
  | Some p =>
      match deref st p with
      | None => None
      | Some parent =>
          match find_index (fun treeNode => this_addr treeNode =? this_addr this)
                  (m_childNodes parent) with
          | Some i => Some (to_int (Z.of_nat i))
          | None => Some (-1)
          end
      end
  end.

End TreeNodes.

(* ===================================================================== *)
(** ** Sequences of store operations *)

Module NodeOps.
Import TreeNodes.

(** The three mutating operations, as calls on one receiver. *)
Inductive NodeOp : Type :=
| OpAppend (child : TreeNode)
| OpInsert (pos : Z) (child : TreeNode)
| OpTake (row : Z).

Definition apply_op (this : TreeNode) (op : NodeOp) : option TreeNode :=
  match op with
  | OpAppend c => Some (appendChild this c)
  | OpInsert pos c => insertChild this pos c
  | OpTake r => match takeChild this r with
                | Some (_, this') => Some this'
                | None => None
                end
  end.

Fixpoint run_ops (this : TreeNode) (ops : list NodeOp) : option TreeNode :=
  match ops with
  | [] => Some this
  | op :: rest => match apply_op this op with
                  | Some this' => run_ops this' rest
                  | None => None
                  end
  end.

Definition is_append (op : NodeOp) : bool :=
  match op with OpAppend _ => true | _ => false end.
Definition is_insert (op : NodeOp) : bool :=
  match op with OpInsert _ _ => true | _ => false end.
Definition is_take (op : NodeOp) : bool :=
  match op with OpTake _ => true | _ => false end.

Definition count_ops (f : NodeOp -> bool) (ops : list NodeOp) : Z :=
  Z.of_nat (length (filter f ops)).

(** The call is within the range where the C++ operation is defined. *)
Definition op_in_range (this : TreeNode) (op : NodeOp) : bool :=
  match op with
  | OpAppend _ => true
  | OpInsert pos _ =>
      (0 <=? pos) && (pos <=? Z.of_nat (length (m_childNodes this)))
  | OpTake r =>
      (0 <=? r) && (r <? Z.of_nat (length (m_childNodes this)))
  end.

(** Replace the element in slot [i]. *)
Fixpoint replace_nth {A} (i : nat) (x : A) (l : list A) : list A :=
  match l, i with
  | [], _ => []
  | _ :: r, O => x :: r
  | y :: r, S j => y :: replace_nth j x r
  end.

Definition opt_ptr_eqb (a b : option ptr) : bool :=
  match a, b with
  | None, None => true
  | Some x, Some y => x =? y
  | _, _ => false
  end.

(** The back-reference invariant: every child's [m_parentNode] is the
    address of the node whose child sequence holds it, at every depth. *)
Fixpoint parents_ok (t : TreeNode) : bool :=
  forallb (fun c => opt_ptr_eqb (m_parentNode c) (Some (this_addr t))
                    && parents_ok c)
    (m_childNodes t).

Section Histories.
(** [append_ok this c]: what is required of a node handed to
    [this->appendChild]. *)
Variable append_ok : TreeNode -> TreeNode -> Prop.

(** [built t]: [t] is a tree that some sequence of constructions,
    appends, inserts and detachments produces; the nodes handed to an
    operation are themselves such trees, and so is a node that
    [takeChild] returned.  [mutated t t']: one operation applied in
    place, on [t] itself or through a pointer to one of its
    descendants. *)
Inductive built : TreeNode -> Prop :=
| built_new a d p : built (TreeNode_new a d p)
| built_step t t' : built t -> mutated t t' -> built t'
| built_taken t r c t' : built t -> takeChild t r = Some (c, t') -> built c
with mutated : TreeNode -> TreeNode -> Prop :=
| mut_append this c :
    built c -> append_ok this c -> mutated this (appendChild this c)
| mut_insert this pos c this' :
    built c -> insertChild this pos c = Some this' -> mutated this this'
| mut_take this r c this' :
    takeChild this r = Some (c, this') -> mutated this this'
| mut_inner this i c c' :
    nth_error (m_childNodes this) i = Some c ->
    mutated c c' ->
    mutated this (set_children this (replace_nth i c' (m_childNodes this))).

Scheme built_mind := Minimality for built Sort Prop
  with mutated_mind := Minimality for mutated Sort Prop.
Combined Scheme built_mutated_mind from built_mind, mutated_mind.

(** The states the tree rooted at [t0] goes through. *)
Inductive evolves (t0 : TreeNode) : TreeNode -> Prop :=
| evolves_refl : evolves t0 t0
| evolves_step t t' : evolves t0 t -> mutated t t' -> evolves t0 t'.
End Histories.

(** What one in-place operation keeps: the identity and the parent
    back-reference of the node it is applied to, and the invariant. *)
Definition step_keeps (t t' : TreeNode) : Prop :=
  this_addr t' = this_addr t /\
  m_parentNode t' = m_parentNode t /\
  (parents_ok t = true -> parents_ok t' = true).

(** No constraint on appended nodes: the operations as the class offers
    them. *)
Definition any_append (this c : TreeNode) : Prop := True.

(** The appended node already names the receiver as its parent, the way
    [setupModelData] constructs it. *)
Definition append_to_parent (this c : TreeNode) : Prop :=
  m_parentNode c = Some (this_addr this).

End NodeOps.

(* ===================================================================== *)
(** ** Drag payloads: [QDataStream] and [QMimeData] *)

Module Mime.

(** What the examples write to a [QDataStream], one item per [<<]:
    64-bit integers (process ids, sizes, addresses), 32-bit integers,
    strings and lists of addresses. *)
Inductive Item : Type :=
| I64 (z : Z)
| I32 (z : Z)
| QStr (s : string)
| PtrList (l : list Z).

Definition QByteArray := list Item.

(** [stream >> x]: the value and the rest of the stream.  Reading past
    the end yields a zero or empty value.  A [QDataStream] is untyped: it
    decodes whatever bytes come next.  The model keeps the items as they
    were written and covers the reads that meet an item of the type
    read, as every read of a payload made by the examples' own
    [mimeData] functions does; the decoding of an item written with
    another type is left out, and the functions give no result for it. *)
Definition read_i64 (s : QByteArray) : option (Z * QByteArray) :=
  match s with
  | [] => Some (0, [])
  | I64 z :: r => Some (z, r)
  | _ => None
  end.

Definition read_qstring (s : QByteArray) : option (string * QByteArray) :=
  match s with
  | [] => Some (EmptyString, [])
  | QStr x :: r => Some (x, r)
  | _ => None
  end.

Definition read_ptrlist (s : QByteArray) : option (list Z * QByteArray) :=
  match s with
  | [] => Some ([], [])
  | PtrList l :: r => Some (l, r)
  | _ => None
  end.

Definition atEnd (s : QByteArray) : bool :=
  match s with [] => true | _ => false end.

(** A [QMimeData]: the data stored per format. *)
Definition QMimeData := list (string * QByteArray).

Definition hasFormat (m : QMimeData) (t : string) : bool :=
  existsb (fun e => String.eqb (fst e) t) m.

(** [QMimeData::data]: the stored bytes, empty when the format is absent. *)
Definition mime_data (m : QMimeData) (t : string) : QByteArray :=
  match find (fun e => String.eqb (fst e) t) m with
  | Some e => snd e
  | None => []
  end.

(** A fresh [QMimeData] after one [setData]. *)
Definition setData (t : string) (d : QByteArray) : QMimeData := [(t, d)].

Inductive DropAction : Type := CopyAction | MoveAction | LinkAction | IgnoreAction.

Definition is_move (a : DropAction) : bool :=
  match a with MoveAction => true | _ => false end.

(** A [QModelIndex]: invalid, or a row, a column and the internal
    pointer. *)
Inductive QModelIndex : Type :=
| InvalidIndex
| Index (r c : Z) (internalPointer : ptr).

Definition isValid (i : QModelIndex) : bool :=
  match i with InvalidIndex => false | Index _ _ _ => true end.

Definition index_row (i : QModelIndex) : Z :=
  match i with InvalidIndex => -1 | Index r _ _ => r end.

Definition index_column (i : QModelIndex) : Z :=
  match i with InvalidIndex => -1 | Index _ c _ => c end.

(** [internalPointer()]; null (0) for an invalid index. *)
Definition internalPointer (i : QModelIndex) : ptr :=
  match i with InvalidIndex => 0 | Index _ _ p => p end.

(** [QModelIndex::siblingAtColumn]: the index of the same row and item in
    another column. *)
Definition siblingAtColumn (i : QModelIndex) (column : Z) : QModelIndex :=
  match i with
  | InvalidIndex => InvalidIndex
  | Index r _ p => Index r column p
  end.

(** The deduplication loop shared by the [mimeData] implementations:
    keep a key the first time it is met. *)
Definition remember_first (seen : list Z) (x : Z) : list Z :=
  if existsb (Z.eqb x) seen then seen else seen ++ [x].

Definition dedupe (l : list Z) : list Z := fold_left remember_first l [].

(** Each distinct key once, in the order of first occurrence: the head is
    kept and removed from what follows. *)
Fixpoint first_occurrences (l : list Z) : list Z :=
  match l with
  | [] => []
  | x :: r => x :: filter (fun y => negb (y =? x)) (first_occurrences r)
  end.

End Mime.

(* ===================================================================== *)
(** ** The tree model adapter (treemodel.h, treemodel.cpp) *)

Module TreeModels.
Import TreeNodes Mime.

(** *** Objects in memory *)

(** The addresses of a node and of everything it owns, in pre-order. *)
Fixpoint addrs (t : TreeNode) : list ptr :=
  this_addr t :: flat_map addrs (m_childNodes t).

Definition store_addrs (st : Store) : list ptr := flat_map addrs st.

(** The search [find_node] makes through a child sequence. *)
Fixpoint find_in (a : ptr) (l : list TreeNode) : option TreeNode :=
  match l with
  | [] => None
  | c :: r => match find_node a c with
              | Some n => Some n
              | None => find_in a r
              end
  end.

(** Writing through a pointer: the object at address [a] becomes [new],
    wherever in the owning tree it sits. *)
Fixpoint replace_node (a : ptr) (new : TreeNode) (t : TreeNode) : TreeNode :=
  if this_addr t =? a then new
  else mkTreeNode (this_addr t) (map (replace_node a new) (m_childNodes t))
         (m_itemData t) (m_parentNode t).

(** What a subtree holds, without addresses: the column values of the
    node and of its descendants, in order. *)
Unset Elimination Schemes.
Inductive Content : Type :=
  ContentNode (columns : QVariantList) (children : list Content).
Set Elimination Schemes.

Fixpoint content (t : TreeNode) : Content :=
  ContentNode (m_itemData t) (map content (m_childNodes t)).

(** Modelled from the spec: [TreeNode::clone], which treenode.cpp of the
    part-2 example defines and which is not among the sources.  The spec
    says the drop "clones its subtree": a deep copy made of new objects.
    New objects take the next unused addresses; the copy of a child names
    the copy of its parent; the copy of the top node names [parent].  The
    result is the copy and the next unused address. *)
Fixpoint clone_node (n : TreeNode) (parent : option ptr) (next : ptr)
  : TreeNode * ptr :=
  let copies :=
    (fix clone_children (l : list TreeNode) (nx : ptr) : list TreeNode * ptr :=
       match l with
       | [] => ([], nx)
       | c :: r =>
           let (c', nx1) := clone_node c (Some next) nx in
           let (r', nx2) := clone_children r nx1 in
           (c' :: r', nx2)
       end) (m_childNodes n) (next + 1) in
  (mkTreeNode next (fst copies) (m_itemData n) parent, snd copies).

(** The copies [clone_node] makes of a child sequence. *)
Fixpoint clone_children (parent : ptr) (l : list TreeNode) (nx : ptr)
  : list TreeNode * ptr :=
  match l with
  | [] => ([], nx)
  | c :: r =>
      let (c', nx1) := clone_node c (Some parent) nx in
      let (r', nx2) := clone_children parent r nx1 in
      (c' :: r', nx2)
  end.

(** The node [pn] with the nodes [acc] put into its child sequence
    before position [k]. *)
Definition with_inserted (pn : TreeNode) (k : nat) (acc : list TreeNode)
  : TreeNode :=
  set_children pn
    (firstn k (m_childNodes pn) ++ acc ++ skipn k (m_childNodes pn)).

(** *** The process: models, allocator, notifications *)

(** What an attached view observes, and when the child sequence of a
    node changes. *)
Inductive Event : Type :=
| BeginInsertRows (parent : QModelIndex) (first last : Z)
| EndInsertRows
| BeginRemoveRows (parent : QModelIndex) (first last : Z)
| EndRemoveRows
| ChildInserted (node : ptr) (pos : Z)
| ChildTaken (node : ptr) (r : Z).

(** [heap]: the [rootNode] of each [TreeModel] of the process, model [m]
    in slot [m]; [next_addr]: the next unused address; [log]: the events
    so far, oldest first. *)
Record World : Type :=
  mkWorld {
      heap : Store;
      next_addr : ptr;
      applicationPid : Z;
      log : list Event
    }.

(** Computations that read and write the process and may be undefined. *)
Definition M (A : Type) : Type := World -> option (A * World).

Definition ret {A} (x : A) : M A := fun w => Some (x, w).

Definition bind {A B} (c : M A) (k : A -> M B) : M B :=
  fun w => match c w with
           | Some (x, w') => k x w'
           | None => None
           end.

Definition undefined {A} : M A := fun _ => None.

Definition lift {A} (o : option A) : M A :=
  fun w => match o with Some x => Some (x, w) | None => None end.

Declare Scope model_scope.
Delimit Scope model_scope with model.
Notation "x <- c ;; k" := (bind c (fun x => k))
  (at level 61, c at next level, right associativity) : model_scope.
Notation "c ;;; k" := (bind c (fun _ => k))
  (at level 61, right associativity) : model_scope.
Local Open Scope model_scope.

Definition emit (e : Event) : M unit :=
  fun w => Some (tt, mkWorld (heap w) (next_addr w) (applicationPid w)
                       (log w ++ [e])).

(** [Q_ASSERT(b)]. *)
Definition Q_ASSERT (b : bool) : M unit := if b then ret tt else undefined.

(** [*p]: the object at [p]; undefined when [p] points at no object. *)
Definition load (p : ptr) : M TreeNode := fun w => lift (deref (heap w) p) w.

(** [rootNode.get()] of model [m]. *)
Definition rootNode_get (m : nat) : M ptr :=
  fun w => lift (option_map this_addr (nth_error (heap w) m)) w.

Definition getpid : M Z := fun w => Some (applicationPid w, w).

(** [p->insertChild(pos, child)]. *)
Definition call_insertChild (p : ptr) (pos : Z) (child : TreeNode) : M unit :=
  fun w =>
    match deref (heap w) p with
    | None => None
    | Some this =>
        match insertChild this pos child with
        | None => None
        | Some this' =>
            Some (tt, mkWorld (map (replace_node p this') (heap w))
                        (next_addr w) (applicationPid w)
                        (log w ++ [ChildInserted p pos]))
        end
    end.

(** [p->takeChild(row)]: the detached node leaves the memory owned by the
    models and is handed to the caller. *)
Definition call_takeChild (p : ptr) (r : Z) : M TreeNode :=
  fun w =>
    match deref (heap w) p with
    | None => None
    | Some this =>
        match takeChild this r with
        | None => None
        | Some (taken, this') =>
            Some (taken, mkWorld (map (replace_node p this') (heap w))
                         (next_addr w) (applicationPid w)
                         (log w ++ [ChildTaken p r]))
        end
    end.

(** [p->clone()]: the copy is owned by the caller. *)
Definition call_clone (p : ptr) : M TreeNode :=
  fun w =>
    match deref (heap w) p with
    | None => None
    | Some n =>
        let (c, next') := clone_node n None (next_addr w) in
        Some (c, mkWorld (heap w) next' (applicationPid w) (log w))
    end.

(** [p->row()]. *)
Definition call_row (p : ptr) : M Z :=
  fun w => match deref (heap w) p with
           | None => None
           | Some n => lift (row (heap w) n) w
           end.

Definition s_mimeType : string := "application/x-simpletreemodel-internalmove".

Section Model.
(** The model the member functions are called on. *)
Variable this_model : nat.

Definition nodeForIndex (index : QModelIndex) : M ptr :=
  if isValid index then ret (internalPointer index)
  else rootNode_get this_model.

Definition rowCount (parent : QModelIndex) : M Z :=
  if index_column parent >? 0 then ret 0
  else (parentNode <- nodeForIndex parent ;;
        n <- load parentNode ;;
        ret (childCount n)).

Definition indexForItem (node : ptr) : M QModelIndex :=
  root <- rootNode_get this_model ;;
  if negb (node =? root)
  then (r <- call_row node ;; ret (Index r 0 node))
  else ret InvalidIndex.

(** [TreeModel::parent]. *)
Definition parent_index (index : QModelIndex) : M QModelIndex :=
  if negb (isValid index) then ret InvalidIndex
  else (childNode <- load (internalPointer index) ;;
        match parentNode childNode with
        | Some parentNode => indexForItem parentNode
        | None => undefined
        end).

(** [TreeModel::mimeData]: the process id, the number of dragged nodes
    and their addresses, each node once. *)
Definition mimeData (indexes : list QModelIndex) : M QMimeData :=
  let draggedNodes := dedupe (map internalPointer indexes) in
  pid <- getpid ;;
  ret (setData s_mimeType
         (I64 pid :: I64 (Z.of_nat (length draggedNodes))
            :: map I64 draggedNodes)).

(** The body of the [for] loop of [dropMimeData], [n] iterations left;
    [++row] is taken without overflow, the row being a position in a
    child sequence. *)
Fixpoint drop_loop (n : nat) (stream : QByteArray) (parentNode : ptr)
  (parent : QModelIndex) (r : Z) : M unit :=
  match n with
  | O => ret tt
  | S n' =>
      rd <- lift (read_i64 stream) ;;
      let (nodePtr, stream') := rd : Z * QByteArray in
      emit (BeginInsertRows (siblingAtColumn parent 0) r r) ;;;
      c <- call_clone nodePtr ;;
      call_insertChild parentNode r c ;;;
      emit EndInsertRows ;;;
      drop_loop n' stream' parentNode parent (r + 1)
  end.

Definition dropMimeData (mimeData : QMimeData) (action : DropAction)
  (r column : Z) (parent : QModelIndex) : M bool :=
  if negb (hasFormat mimeData s_mimeType) then ret false
  else
    let encodedData := mime_data mimeData s_mimeType in
    rd <- lift (read_i64 encodedData) ;;
    let (senderPid, stream) := rd : Z * QByteArray in
    pid <- getpid ;;
    if negb (senderPid =? pid) then ret false
    else
      parentNode <- nodeForIndex parent ;;
      Q_ASSERT (negb (parentNode =? 0)) ;;;
      rd <- lift (read_i64 stream) ;;
      let (count, stream) := rd : Z * QByteArray in
      r <- (if r =? -1
            then (if isValid parent then ret 0 else rowCount InvalidIndex)
            else ret r) ;;
      drop_loop (Z.to_nat count) stream parentNode parent r ;;;
      ret true.

(** The [for] loop of [removeRows]; each detached node is destroyed. *)
Fixpoint remove_loop (n : nat) (parentNode : ptr) (r : Z) : M unit :=
  match n with
  | O => ret tt
  | S n' => call_takeChild parentNode r ;;; remove_loop n' parentNode r
  end.

(** [removeRows]; the toolkit's [checkIndex] assertion on [parent] is
    not part of the model. *)
Definition removeRows (r count : Z) (parent : QModelIndex) : M bool :=
  Q_ASSERT (0 <=? r) ;;;
  parentNode <- nodeForIndex parent ;;
  n <- load parentNode ;;
  Q_ASSERT (r <=? childCount n - count) ;;;
  emit (BeginRemoveRows parent r (r + count - 1)) ;;;
  remove_loop (Z.to_nat count) parentNode r ;;;
  emit EndRemoveRows ;;;
  ret true.

Definition removeNode (node : ptr) : M TreeNode :=
  r <- call_row node ;;
  idx <- indexForItem node ;;
  pidx <- parent_index idx ;;
  emit (BeginRemoveRows pidx r r) ;;;
  n <- load node ;;
  match parentNode n with
  | None => undefined
  | Some p =>
      ownedNode <- call_takeChild p r ;;
      emit EndRemoveRows ;;;
      ret ownedNode
  end.
End Model.

(** *** Reading a notification log *)

(** Where a reader of the log is: between announcements, or inside an
    announced insertion or removal under [node] with [todo] changes of
    the child sequence still to come, the next one at [at_row]. *)
Inductive Phase : Type :=
| Idle
| Inserting (node : ptr) (at_row : Z) (todo : nat)
| Removing (node : ptr) (at_row : Z) (todo : nat).

(** One event is acceptable in a phase, and leads to the next phase.
    [node_of] resolves the announced parent index to the node it names. *)
Definition observe (node_of : QModelIndex -> ptr) (ph : Phase) (e : Event)
  : option Phase :=
  match ph, e with
  | Idle, BeginInsertRows parent first last =>
      Some (Inserting (node_of parent) first (Z.to_nat (last - first + 1)))
  | Idle, BeginRemoveRows parent first last =>
      Some (Removing (node_of parent) first (Z.to_nat (last - first + 1)))
  | Inserting node at_row (S todo), ChildInserted p pos =>
      if (p =? node) && (pos =? at_row)
      then Some (Inserting node (at_row + 1) todo) else None
  | Inserting _ _ O, EndInsertRows => Some Idle
  | Removing node at_row (S todo), ChildTaken p r =>
      if (p =? node) && (r =? at_row)
      then Some (Removing node at_row todo) else None
  | Removing _ _ O, EndRemoveRows => Some Idle
  | _, _ => None
  end.

Fixpoint observe_all (node_of : QModelIndex -> ptr) (ph : Phase)
  (evs : list Event) : option Phase :=
  match evs with
  | [] => Some ph
  | e :: r => match observe node_of ph e with
              | Some ph' => observe_all node_of ph' r
              | None => None
              end
  end.


(** The events of [n] turns of the loop of [dropMimeData], the first at
    row [r], and of [removeRows]. *)
Fixpoint insert_events (parent : QModelIndex) (P : ptr) (r : Z) (n : nat)
  : list Event :=
  match n with
  | O => []
  | S n' => BeginInsertRows (siblingAtColumn parent 0) r r
            :: ChildInserted P r :: EndInsertRows
            :: insert_events parent P (r + 1) n'
  end.

Definition remove_events (parent : QModelIndex) (P : ptr) (r : Z) (n : nat)
  (last : Z) : list Event :=
  BeginRemoveRows parent r last :: repeat (ChildTaken P r) n ++ [EndRemoveRows].

Definition is_removal (e : Event) : bool :=
  match e with
  | BeginRemoveRows _ _ _ | EndRemoveRows | ChildTaken _ _ => true
  | _ => false
  end.

(** The node an index of model [m] names, given the address of the
    model's root. *)
Definition node_named (root : ptr) (i : QModelIndex) : ptr :=
  if isValid i then internalPointer i else root.




(** *** Well-formed memory *)

(** Distinct objects have distinct addresses, the allocator has not
    handed out an address at or above [next_addr], and no object lives
    at the null address. *)
Definition wf_world (w : World) : Prop :=
  NoDup (store_addrs (heap w)) /\
  Forall (fun a => a < next_addr w) (store_addrs (heap w)) /\
  ~ In 0 (store_addrs (heap w)).

(** Where [dropMimeData] starts inserting under the node [pn]: at [r],
    with -1 standing for the front of a valid parent and for the end of
    the top level. *)
Definition insertion_point (parent : QModelIndex) (pn : TreeNode) (r : Z)
  : nat :=
  if r =? -1
  then (if isValid parent then O else length (m_childNodes pn))
  else Z.to_nat r.

(** *** Predicates on memory and computations *)

(** [pn] is the object at [P] in the tree [t], if there is one. *)
Definition holds_at_most (P : ptr) (pn t : TreeNode) : Prop :=
  find_node P t = Some pn \/ ~ In P (addrs t).

(** Reading any object of [t] after [cur] has been written to [P] gives
    the object with the write applied inside it. *)
Definition reads_follow (P next0 : ptr) (pn cur t : TreeNode) : Prop :=
  NoDup (addrs t) -> Forall (fun a => a < next0) (addrs t) ->
  holds_at_most P pn t ->
  forall b orig,
    find_node b t = Some orig ->
    find_node b (replace_node P cur t) = Some (replace_node P cur orig).

(** A clone is made of new objects only, holds what the original holds,
    and names the parent it is given. *)
Definition clone_ok (n : TreeNode) : Prop :=
  forall parent next,
    let c := fst (clone_node n parent next) in
    let next' := snd (clone_node n parent next) in
    this_addr c = next /\ m_parentNode c = parent /\
    content c = content n /\ next < next' /\
    Forall (fun a => next <= a < next') (addrs c).

(** Nodes made of objects allocated in or after the process state [w0]. *)
Definition fresh_nodes (w0 : World) (acc : list TreeNode) : Prop :=
  Forall (fun a => next_addr w0 <= a) (flat_map addrs acc).

(** Computations that only read. *)
Definition reads_only {A} (c : M A) : Prop :=
  forall w x w1, c w = Some (x, w1) -> w1 = w.

(** *** Sample data: two models, the second one empty *)

Definition sample_root : TreeNode :=
  appendChild
    (appendChild (TreeNode_new 1 [QVString "Title"; QVString "Summary"] None)
       (appendChild (TreeNode_new 2 [QVString "A"] (Some 1))
          (TreeNode_new 4 [QVString "A1"] (Some 2))))
    (TreeNode_new 3 [QVString "B"] (Some 1)).

Definition sample_world : World :=
  mkWorld
    [sample_root; TreeNode_new 10 [QVString "Title"; QVString "Summary"] None]
    20 777 [].

Definition sample_payload (ptrs : list Z) : QMimeData :=
  [(s_mimeType, I64 777 :: I64 (Z.of_nat (length ptrs)) :: map I64 ptrs)].

(** What can be read from one object without following pointers. *)
Definition node_view (n : TreeNode)
  : ptr * QVariantList * option ptr * list ptr :=
  (this_addr n, m_itemData n, m_parentNode n, map this_addr (m_childNodes n)).

End TreeModels.

(* ===================================================================== *)
(** ** Flat records: e-mail folders and countries *)

Module Folders.
Import Mime NodeOps.

Record EmailFolder : Type :=
  mkEmailFolder { folderName : string; emails : list string }.

Definition EmailFolders := list EmailFolder.

Definition s_emailsMimeType : string := "application/x-emails-list".

Definition append_email (f : EmailFolder) (email : string) : EmailFolder :=
  mkEmailFolder (folderName f) (emails f ++ [email]).

(** [QList::removeAt(i)]; out of range is an assertion failure. *)
Definition QList_removeAt {A} (l : list A) (i : Z) : option (list A) :=
  if (0 <=? i) && (i <? Z.of_nat (length l))
  then Some (firstn (Z.to_nat i) l ++ skipn (S (Z.to_nat i)) l)
  else None.

(** *** drop-onto-items-with-model-view.cpp *)

(** The loop of [EmailsModel::mimeData] and of [CountryModel::mimeData]:
    for each index whose row is not in [seenRows] (the [QSet<int>]),
    remember the row and stream the record [m_data.at(row)]. *)
Section RowStream.
Variable A : Type.
Variable write : A -> QByteArray.

Fixpoint rows_stream (m_data : list A) (indexes : list QModelIndex)
  (seenRows : list Z) (stream : QByteArray) : option QByteArray :=
  match indexes with
  | [] => Some stream
  | index :: rest =>
      let r := index_row index in
      if negb (existsb (Z.eqb r) seenRows)
      then match QList_at m_data r with
           | Some x => rows_stream m_data rest (r :: seenRows)
                         (stream ++ write x)
           | None => None
           end
      else rows_stream m_data rest seenRows stream
  end.

(** What is written for row [r]. *)
Definition write_row (m_data : list A) (r : Z) : QByteArray :=
  match QList_at m_data r with
  | Some x => write x
  | None => []
  end.
End RowStream.

(** [EmailsModel::mimeData]: the folder name, then the e-mail of each
    dragged row. *)
Definition write_email (email : string) : QByteArray := [QStr email].

Definition EmailsModel_mimeData (m_emailFolder : EmailFolder)
  (indexes : list QModelIndex) : option QMimeData :=
  match rows_stream write_email (emails m_emailFolder) indexes []
          [QStr (folderName m_emailFolder)] with
  | Some encodedData => Some (setData s_emailsMimeType encodedData)
  | None => None
  end.

Inductive Signal : Type :=
  DataChanged (topLeft bottomRight : QModelIndex).

(** A [FoldersModel] with the folders it points to and the signals it
    has emitted. *)
Record FoldersModel : Type :=
  mkFoldersModel { m_emailFolders : EmailFolders; emitted : list Signal }.

(** The [while (!stream.atEnd())] loop: read a string, append it. *)
Fixpoint read_emails (stream : QByteArray) (destFolder : EmailFolder)
  : option EmailFolder :=
  match stream with
  | [] => Some destFolder
  | QStr email :: rest => read_emails rest (append_email destFolder email)
  | _ => None
  end.

Definition FoldersModel_dropMimeData (this : FoldersModel)
  (mimeData : QMimeData) (action : DropAction) (r column : Z)
  (parent : QModelIndex) : option (bool * FoldersModel) :=
  if negb (isValid parent) then Some (false, this)
  else
    match QList_at (m_emailFolders this) (index_row parent) with
    | None => None
    | Some destFolder =>
        let encodedData := mime_data mimeData s_emailsMimeType in
        if atEnd encodedData then Some (false, this)
        else
          match read_qstring encodedData with
          | None => None
          | Some (sourceFolder, stream) =>
              if String.eqb sourceFolder (folderName destFolder)
              then Some (false, this)
              else
                match read_emails stream destFolder with
                | None => None
                | Some destFolder' =>
                    Some (true,
                          mkFoldersModel
                            (replace_nth (Z.to_nat (index_row parent))
                               destFolder' (m_emailFolders this))
                            (emitted this ++ [DataChanged parent parent]))
                end
          end
    end.

(** *** drop-onto-qlistwidgetitems.cpp, drop-onto-qtablewidgetitems.cpp *)

(** One row of the e-mails widget: the item object and its text. *)
Record EmailItem : Type := mkEmailItem { item_addr : ptr; item_text : string }.

(** The data of one example window.  A pointer to an element of
    [m_emails] is rendered as the element's index.  [folder_items] holds,
    per row and column of the folders widget, the folder pointer stored
    under [Qt::UserRole] ([None]: null).  [email_items] are the rows of
    the e-mails widget.  [counts] is what the count column shows. *)
Record Desk : Type :=
  mkDesk {
      m_emails : EmailFolders;
      folder_items : list (list (option Z));
      email_items : list EmailItem;
      counts : list Z;
      desk_pid : Z
    }.

(** [item(row, column)->data(Qt::UserRole).value<EmailFolder *>()]
    followed by [Q_ASSERT(destFolder)]. *)
Definition dest_folder_ptr (d : Desk) (r column : Z) : option Z :=
  match QList_at (folder_items d) r with
  | None => None
  | Some cells => match QList_at cells column with
                  | Some (Some p) => Some p
                  | _ => None
                  end
  end.

Definition item_row (items : list EmailItem) (a : ptr) : option nat :=
  find_index (fun it => item_addr it =? a) items.

Definition set_folder (d : Desk) (p : Z) (f : EmailFolder) : Desk :=
  mkDesk (replace_nth (Z.to_nat p) f (m_emails d)) (folder_items d)
    (email_items d) (counts d) (desk_pid d).

(** One turn of the loop over the dragged item pointers. *)
Definition drop_item (sourceFolder destFolder : Z) (action : DropAction)
  (d : Desk) (emailItemPointer : Z) : option Desk :=
  match item_row (email_items d) emailItemPointer with
  | None => None
  | Some i =>
      match nth_error (email_items d) i, QList_at (m_emails d) destFolder with
      | Some emailItem, Some dest =>
          let d1 := set_folder d destFolder
                      (append_email dest (item_text emailItem)) in
          if is_move action
          then
            match QList_at (m_emails d1) sourceFolder with
            | None => None
            | Some src =>
                match QList_removeAt (emails src) (Z.of_nat i) with
                | None => None
                | Some kept =>
                    let d2 := set_folder d1 sourceFolder
                                (mkEmailFolder (folderName src) kept) in
                    Some (mkDesk (m_emails d2) (folder_items d2)
                            (firstn i (email_items d2)
                               ++ skipn (S i) (email_items d2))
                            (counts d2) (desk_pid d2))
                end
            end
          else Some d1
      | _, _ => None
      end
  end.

Fixpoint drop_items (sourceFolder destFolder : Z) (action : DropAction)
  (d : Desk) (emailItemPointers : list Z) : option Desk :=
  match emailItemPointers with
  | [] => Some d
  | p :: rest =>
      match drop_item sourceFolder destFolder action d p with
      | Some d' => drop_items sourceFolder destFolder action d' rest
      | None => None
      end
  end.

(** [FoldersTableWidget::updateCounts]. *)
Definition updateCounts (d : Desk) : Desk :=
  mkDesk (m_emails d) (folder_items d) (email_items d)
    (map (fun f => Z.of_nat (length (emails f))) (m_emails d)) (desk_pid d).

(** The part the two widget handlers share: decode, check the sender and
    the source folder, move the items; [finish] is what runs before the
    final [return false]. *)
Definition widget_drop (finish : Desk -> Desk) (d : Desk) (r column : Z)
  (mimeData : QMimeData) (action : DropAction) : option (bool * Desk) :=
  match dest_folder_ptr d r column with
  | None => None
  | Some destFolder =>
      let encodedData := mime_data mimeData s_emailsMimeType in
      if atEnd encodedData then Some (false, d)
      else
        match read_i64 encodedData with
        | None => None
        | Some (senderPid, stream) =>
            if negb (senderPid =? desk_pid d) then Some (false, d)
            else
              match read_i64 stream with
              | None => None
              | Some (sourceFolderPtr, stream) =>
                  if sourceFolderPtr =? destFolder then Some (false, d)
                  else
                    match read_ptrlist stream with
                    | None => None
                    | Some (emailItemPointers, _) =>
                        match drop_items sourceFolderPtr destFolder action d
                                emailItemPointers with
                        | None => None
                        | Some d' => Some (false, finish d')
                        end
                    end
              end
        end
  end.

(** [FoldersListWidget::dropMimeData(index, mimeData, action)]. *)
Definition FoldersListWidget_dropMimeData (d : Desk) (index : Z)
  (mimeData : QMimeData) (action : DropAction) : option (bool * Desk) :=
  widget_drop (fun d' => d') d index 0 mimeData action.

(** [FoldersTableWidget::dropMimeData(row, column, mimeData, action)]. *)
Definition FoldersTableWidget_dropMimeData (d : Desk) (r column : Z)
  (mimeData : QMimeData) (action : DropAction) : option (bool * Desk) :=
  widget_drop updateCounts d r column mimeData action.

(** *** move-between-views-with-model-view.cpp *)

Record CountryData : Type :=
  mkCountryData { country : string; population : Z }.

Definition s_countryMimeType : string := "application/x-countrydata".

(** [stream << countryData]. *)
Definition write_country (c : CountryData) : QByteArray :=
  [QStr (country c); I32 (population c)].

(** [CountryModel::mimeData]. *)
Definition CountryModel_mimeData (m_data : list CountryData)
  (indexes : list QModelIndex) : option QMimeData :=
  match rows_stream write_country m_data indexes [] [] with
  | Some encodedData => Some (setData s_countryMimeType encodedData)
  | None => None
  end.

(** *** Valid rows, and payloads a handler declines *)

(** The rows of the indexes are rows of the model. *)
Definition rows_valid {A} (m_data : list A) (indexes : list QModelIndex) : Prop :=
  Forall (fun i => 0 <= index_row i < Z.of_nat (length m_data)) indexes.

(** What makes each handler decline.  A payload is foreign when the
    handler's mime type is absent; it has a foreign sender when it starts
    with a process id that is not the receiver's (tree model and widgets:
    the payload of the folders model carries no process id); it is a
    self-drop when the source folder it names is the destination (folders
    model: by name; widgets: by address; the tree model has no folders). *)
Definition foreign_type (mimeData : QMimeData) (t : string) : Prop :=
  hasFormat mimeData t = false.

Definition foreign_sender (mimeData : QMimeData) (t : string) (pid : Z) : Prop :=
  exists senderPid rest,
    mime_data mimeData t = I64 senderPid :: rest /\ senderPid <> pid.

Definition same_folder_name (mimeData : QMimeData) (dest : EmailFolder) : Prop :=
  exists rest,
    mime_data mimeData s_emailsMimeType = QStr (folderName dest) :: rest.

Definition same_folder_ptr (mimeData : QMimeData) (dest : Z) : Prop :=
  exists senderPid rest,
    mime_data mimeData s_emailsMimeType = I64 senderPid :: I64 dest :: rest.

(** *** Sample data *)

Definition sample_folders : EmailFolders :=
  [mkEmailFolder "Inbox" ["Urgent"%string; "Spam 1"%string];
   mkEmailFolder "Customers" ["Old customer"%string]].

Definition sample_desk : Desk :=
  mkDesk sample_folders [[Some 0; Some 0]; [Some 1; Some 1]]
    [mkEmailItem 500 "Urgent"; mkEmailItem 501 "Spam 1"] [2; 1] 4242.

End Folders.

(* ===================================================================== *)
(** ** The flat models: receiving a drop, removing the moved rows *)

Module Tables.
Import Mime NodeOps TreeModels Folders.

(** [QList::insert(i, x)]; [i] outside [0, size()] is an assertion
    failure. *)
Definition QList_insert {A} (l : list A) (i : Z) (x : A) : option (list A) :=
  if (0 <=? i) && (i <=? Z.of_nat (length l))
  then Some (firstn (Z.to_nat i) l ++ x :: skipn (Z.to_nat i) l)
  else None.

(** The loop [for (row = 0; row < rows; ++row) list.removeAt(position)]
    of the [removeRows] implementations, [n] turns left. *)
Fixpoint removeAt_loop {A} (n : nat) (l : list A) (position : Z)
  : option (list A) :=
  match n with
  | O => Some l
  | S n' => match QList_removeAt l position with
            | Some l' => removeAt_loop n' l' position
            | None => None
            end
  end.

(** The records the rows of [indexes] name, each row once, in the order
    of first occurrence. *)
Definition dragged {A} (m_data : list A) (indexes : list QModelIndex)
  : list A :=
  flat_map (fun r => match QList_at m_data r with
                     | Some x => [x]
                     | None => []
                     end)
    (first_occurrences (map index_row indexes)).

(** *** move-between-views-with-model-view.cpp *)

(** A [CountryModel] and the notifications it has sent, oldest first. *)
Record CountryModel : Type :=
  mkCountryModel { m_data : list CountryData; notified : list Event }.

Definition CountryModel_rowCount (this : CountryModel) (parent : QModelIndex)
  : Z :=
  if isValid parent then 0
  else to_int (Z.of_nat (length (m_data this))).

(** The [while (!stream.atEnd())] loop of [dropMimeData]: each turn reads
    a string and an [int]; when the stream ends after the string the
    [int] read gives 0. *)
Fixpoint read_countries (stream : QByteArray) : option (list CountryData) :=
  match stream with
  | [] => Some []
  | QStr c :: I32 p :: rest =>
      option_map (cons (mkCountryData c p)) (read_countries rest)
  | [QStr c] => Some [mkCountryData c 0]
  | _ => None
  end.

(** [for (countryData : newCountries) m_data.insert(row++, countryData)]. *)
Fixpoint insert_rows {A} (m_data : list A) (r : Z) (newRows : list A)
  : option (list A) :=
  match newRows with
  | [] => Some m_data
  | x :: rest => match QList_insert m_data r x with
                 | Some m_data' => insert_rows m_data' (r + 1) rest
                 | None => None
                 end
  end.

(** The row [dropMimeData] starts inserting at. *)
Definition CountryModel_dropRow (this : CountryModel) (r : Z)
  (parent : QModelIndex) : Z :=
  if r =? -1 then CountryModel_rowCount this parent else r.

(** [CountryModel::dropMimeData].  The last row announced is
    [row + newCountries.count() - 1] converted to [int]. *)
Definition CountryModel_dropMimeData (this : CountryModel)
  (mimeData : QMimeData) (action : DropAction) (r column : Z)
  (parent : QModelIndex) : option (bool * CountryModel) :=
  if negb (hasFormat mimeData s_countryMimeType) then Some (false, this)
  else if isValid parent && (r =? -1) then Some (false, this)
  else
    let r := CountryModel_dropRow this r parent in
    let encodedData := mime_data mimeData s_countryMimeType in
    if atEnd encodedData then Some (false, this)
    else
      match read_countries encodedData with
      | None => None
      | Some newCountries =>
          match insert_rows (m_data this) r newCountries with
          | None => None
          | Some m_data' =>
              Some (true,
                    mkCountryModel m_data'
                      (notified this
                         ++ [BeginInsertRows parent r
                               (to_int (r + Z.of_nat (length newCountries) - 1));
                             EndInsertRows]))
          end
      end.

(** [CountryModel::removeRows]; the assertions of the [CHECK_removeRows]
    macro are not part of the model. *)
Definition CountryModel_removeRows (this : CountryModel) (position rows : Z)
  (parent : QModelIndex) : option (bool * CountryModel) :=
  match removeAt_loop (Z.to_nat rows) (m_data this) position with
  | None => None
  | Some m_data' =>
      Some (true,
            mkCountryModel m_data'
              (notified this
                 ++ [BeginRemoveRows parent position (position + rows - 1);
                     EndRemoveRows]))
  end.

(** Where a drop at [r] lands in a top level of [n] rows: -1 stands for
    the end. *)
Definition landing (n : nat) (r : Z) : nat :=
  if r =? -1 then n else Z.to_nat r.

(** The conditions under which [CountryModel::dropMimeData] returns
    before decoding. *)
Definition country_drop_declined (mimeData : QMimeData) (r : Z)
  (parent : QModelIndex) : Prop :=
  hasFormat mimeData s_countryMimeType = false \/
  (isValid parent = true /\ r = -1) \/
  mime_data mimeData s_countryMimeType = [].

(** *** drop-onto-items-with-model-view.cpp *)

(** [EmailsModel::removeRows].  [m_emailFolder] points into the vector
    of folders the folders model shows too; the pointer is rendered as
    the folder's position in [folders].  The result is the vector
    afterwards and the notifications sent. *)
Definition EmailsModel_removeRows (folders : EmailFolders) (m_emailFolder : Z)
  (position rows : Z) (parent : QModelIndex)
  : option (bool * EmailFolders * list Event) :=
  match QList_at folders m_emailFolder with
  | None => None
  | Some folder =>
      match removeAt_loop (Z.to_nat rows) (emails folder) position with
      | None => None
      | Some kept =>
          Some (true,
                replace_nth (Z.to_nat m_emailFolder)
                  (mkEmailFolder (folderName folder) kept) folders,
                [BeginRemoveRows parent position (position + rows - 1);
                 EndRemoveRows])
      end
  end.

(** [FoldersModel::data]; [displayRole] tells whether the role asked for
    is [Qt::DisplayRole]. *)
Definition FoldersModel_data (this : FoldersModel) (index : QModelIndex)
  (displayRole : bool) : option QVariant :=
  if negb (isValid index) || negb displayRole then Some QVInvalid
  else
    match QList_at (m_emailFolders this) (index_row index) with
    | None => None
    | Some folder =>
        Some (if index_column index =? 0 then QVString (folderName folder)
              else if index_column index =? 1
                   then QVInt (Z.of_nat (length (emails folder)))
                   else QVInvalid)
    end.

(** *** Sample data *)

Definition sample_countries : list CountryData :=
  [mkCountryData "USA" 331; mkCountryData "China" 1439;
   mkCountryData "India" 1380].

End Tables.

(* ===================================================================== *)
(** ** The item widgets: the drag side *)

Module WidgetDrag.
Import Mime NodeOps Folders.

(** [EmailsListWidget::mimeData] and [EmailsTableWidget::mimeData]: the
    process id, the address of the folder shown and the addresses of
    the dragged items. *)
Definition EmailsWidget_mimeData (d : Desk) (m_folder : Z) (items : list ptr)
  : QMimeData :=
  setData s_emailsMimeType [I64 (desk_pid d); I64 m_folder; PtrList items].

(** [emailItem->text()] for each pointer, in order. *)
Definition texts_of (items : list EmailItem) (emailItemPointers : list ptr)
  : list string :=
  flat_map (fun p => match find (fun it => item_addr it =? p) items with
                     | Some it => [item_text it]
                     | None => []
                     end) emailItemPointers.

Definition not_dragged (emailItemPointers : list ptr) (it : EmailItem) : bool :=
  negb (existsb (Z.eqb (item_addr it)) emailItemPointers).

(** The e-mails widget shows the folder [f]: one item per e-mail, in
    order, each item an object of its own. *)
Definition shows (items : list EmailItem) (f : EmailFolder) : Prop :=
  map item_text items = emails f /\ NoDup (map item_addr items).

End WidgetDrag.

(* ===================================================================== *)
(** ** The tree model: the read side *)

Module TreeQueries.
Import TreeNodes NodeOps Mime TreeModels.
Local Open Scope model_scope.

(** The node [t] and every node it owns, in pre-order. *)
Fixpoint subtrees (t : TreeNode) : list TreeNode :=
  t :: flat_map subtrees (m_childNodes t).

Section Model.
Variable this_model : nat.

(** [TreeModel::columnCount]. *)
Definition columnCount (parent : QModelIndex) : M Z :=
  if isValid parent
  then (n <- load (internalPointer parent) ;; ret (TreeNodes.columnCount n))
  else (root <- rootNode_get this_model ;;
        n <- load root ;;
        ret (TreeNodes.columnCount n)).

(** [QAbstractItemModel::hasIndex] of the toolkit: false for a negative
    row or column, else [row < rowCount(parent) && column <
    columnCount(parent)]. *)
Definition hasIndex (r column : Z) (parent : QModelIndex) : M bool :=
  if (r <? 0) || (column <? 0) then ret false
  else (rows <- rowCount this_model parent ;;
        if r <? rows
        then (columns <- columnCount parent ;; ret (column <? columns))
        else ret false).

(** [TreeModel::index]. *)
Definition index (r column : Z) (parent : QModelIndex) : M QModelIndex :=
  ok <- hasIndex r column parent ;;
  if negb ok then ret InvalidIndex
  else (parentNode <- nodeForIndex this_model parent ;;
        n <- load parentNode ;;
        match child n r with
        | Some childNode => ret (Index r column (this_addr childNode))
        | None => ret InvalidIndex
        end).

(** [TreeModel::data]; [displayRole] tells whether the role asked for is
    [Qt::DisplayRole]. *)
Definition data (index : QModelIndex) (displayRole : bool) : M QVariant :=
  if negb (isValid index) || negb displayRole then ret QVInvalid
  else (node <- load (internalPointer index) ;;
        ret (TreeNodes.data node (index_column index))).

End Model.

(** The memory of a process whose models are in a consistent state:
    well formed, the allocator past the null address, every child
    naming its owner as parent, and the root of every model without
    parent. *)
Definition store_ok (w : World) : Prop :=
  (wf_world w /\ 0 < next_addr w) /\
  Forall (fun t => parents_ok t = true /\ m_parentNode t = None) (heap w).

(** A clone is a well-formed tree of its own: its objects are distinct
    and every copy of a child names the copy of its parent. *)
Definition clone_wf (n : TreeNode) : Prop :=
  forall parent next,
    NoDup (addrs (fst (clone_node n parent next))) /\
    parents_ok (fst (clone_node n parent next)) = true.

(** Row [r] and column [column] exist under the node [pn]. *)
Definition in_range (pn : TreeNode) (r column : Z) : bool :=
  (0 <=? r) && (r <? childCount pn)
  && (0 <=? column) && (column <? TreeNodes.columnCount pn).

End TreeQueries.

(* ===================================================================== *)
(** ** The tree model: building the tree from text *)

Module TreeSetup.
Import TreeNodes NodeOps Mime TreeModels TreeQueries.
Local Open Scope model_scope.

(** [QChar::isSpace] on the characters a [string] holds (Latin-1): the
    controls 9 to 13, the space, the next-line control and the no-break
    space. *)
Definition isSpace (c : ascii) : bool :=
  let n := nat_of_ascii c in
  ((9 <=? n)%nat && (n <=? 13)%nat) || (n =? 32)%nat || (n =? 133)%nat
  || (n =? 160)%nat.

(** The loop [for (; position < line.length() &&
    line.at(position).isSpace(); ++position)]. *)
Fixpoint leading_spaces (line : string) : nat :=
  match line with
  | String c rest => if isSpace c then S (leading_spaces rest) else O
  | EmptyString => O
  end.

(** [QStringView::mid(position)]. *)
Fixpoint mid (line : string) (position : nat) : string :=
  match position, line with
  | O, _ => line
  | S p, String _ rest => mid rest p
  | S _, EmptyString => EmptyString
  end.

(** [QStringView::trimmed]: without the white space at both ends. *)
Fixpoint trim_left (s : string) : string :=
  match s with
  | String c rest => if isSpace c then trim_left rest else s
  | EmptyString => EmptyString
  end.

Fixpoint trim_right (s : string) : string :=
  match s with
  | EmptyString => EmptyString
  | String c rest =>
      match trim_right rest with
      | EmptyString => if isSpace c then EmptyString else String c EmptyString
      | r => String c r
      end
  end.

Definition trimmed (s : string) : string := trim_right (trim_left s).

Definition isEmpty (s : string) : bool :=
  match s with EmptyString => true | _ => false end.

(** [QStringView::split(sep)], and with [Qt::SkipEmptyParts]. *)
Fixpoint split (sep : ascii) (s : string) : list string :=
  match s with
  | EmptyString => [EmptyString]
  | String c rest =>
      if Ascii.eqb c sep then EmptyString :: split sep rest
      else match split sep rest with
           | h :: t => String c h :: t
           | [] => [String c EmptyString]
           end
  end.

Definition split_SkipEmptyParts (sep : ascii) (s : string) : list string :=
  filter (fun part => negb (isEmpty part)) (split sep s).

Definition tab : ascii := ascii_of_nat 9.

(** One entry of the list [state]. *)
Record ParentIndentation : Type :=
  mkParentIndentation { pi_parent : ptr; indentation : Z }.

(** The list [state] is kept with its last element first:
    [state.constLast()] is the head, [append] conses, [removeLast]
    takes the tail. *)
Definition constLast (state : list ParentIndentation) : M ParentIndentation :=
  lift (hd_error state).

(** [while (position < state.constLast().indentation && !state.isEmpty())
    state.removeLast();]: the first operand is evaluated first, and
    [constLast()] of an empty list is undefined. *)
Fixpoint pop_deeper (position : Z) (state : list ParentIndentation)
  : option (list ParentIndentation) :=
  match state with
  | [] => None
  | top :: rest =>
      if position <? indentation top then pop_deeper position rest
      else Some state
  end.

(** [p->appendChild(std::make_unique<TreeNode>(data, p))]: the new
    object takes the next unused address. *)
Definition call_appendChild_new (p : ptr) (data : QVariantList) : M unit :=
  fun w =>
    match deref (heap w) p with
    | None => None
    | Some this =>
        Some (tt,
              mkWorld
                (map (replace_node p
                        (appendChild this
                           (TreeNode_new (next_addr w) data (Some p))))
                   (heap w))
                (next_addr w + 1) (applicationPid w) (log w))
    end.

(** The address [lastParent->child(lastParent->childCount() - 1)], null
    when [child] returns null. *)
Definition last_child (lastParent : TreeNode) : ptr :=
  match child lastParent (childCount lastParent - 1) with
  | Some c => this_addr c
  | None => 0
  end.

(** The body of the loop over the lines. *)
Definition setup_line (line : string) (state : list ParentIndentation)
  : M (list ParentIndentation) :=
  let position := Z.of_nat (leading_spaces line) in
  let lineData := trimmed (mid line (leading_spaces line)) in
  if negb (isEmpty lineData)
  then
    let columnData := map QVString (split_SkipEmptyParts tab lineData) in
    top <- constLast state ;;
    state <- (if position >? indentation top
              then (lastParent <- load (pi_parent top) ;;
                    if childCount lastParent >? 0
                    then ret (mkParentIndentation (last_child lastParent)
                                position :: state)
                    else ret state)
              else lift (pop_deeper position state)) ;;
    top <- constLast state ;;
    call_appendChild_new (pi_parent top) columnData ;;;
    ret state
  else ret state.

Fixpoint setup_lines (lines : list string) (state : list ParentIndentation)
  : M unit :=
  match lines with
  | [] => ret tt
  | line :: rest => state <- setup_line line state ;; setup_lines rest state
  end.

(** [TreeModel::setupModelData(lines, parent)]. *)
Definition setupModelData (lines : list string) (parent : ptr) : M unit :=
  setup_lines lines [mkParentIndentation parent 0].

(** The lines that make a node: those with something besides white
    space. *)
Definition makes_node (line : string) : bool :=
  negb (isEmpty (trimmed (mid line (leading_spaces line)))).

(** The column values a line gives its node. *)
Definition line_columns (line : string) : QVariantList :=
  map QVString
    (split_SkipEmptyParts tab (trimmed (mid line (leading_spaces line)))).

(** Every object of [w] is still there in [w'], at its address, with
    its column values and its parent. *)
Definition keeps_objects (w w' : World) : Prop :=
  forall b orig,
    deref (heap w) b = Some orig ->
    exists now,
      deref (heap w') b = Some now /\
      m_itemData now = m_itemData orig /\
      m_parentNode now = m_parentNode orig.

(** The [n] addresses the allocator hands out from [nx] on. *)
Fixpoint fresh_addrs (nx : ptr) (n : nat) : list ptr :=
  match n with
  | O => []
  | S n' => nx :: fresh_addrs (nx + 1) n'
  end.

(** What the loop relies on between two lines: every entry of the list
    points at an object, and the entry the list started with, of
    indentation 0, is still its first. *)
Definition state_ok (w : World) (state : list ParentIndentation) : Prop :=
  Forall (fun e => In (pi_parent e) (store_addrs (heap w))) state /\
  exists upper parent, state = upper ++ [mkParentIndentation parent 0].

End TreeSetup.

(* ===================================================================== *)
(** ** The reordering example: moving rows inside one model *)

Module Reorder.
Import Mime Folders.

(** [QList::move(from, to)]: the element at [from] is taken out and put
    back so that it ends at index [to]; an index out of range is an
    assertion failure. *)
Definition QList_move {A} (l : list A) (from to : Z) : option (list A) :=
  if (0 <=? from) && (from <? Z.of_nat (length l))
     && (0 <=? to) && (to <? Z.of_nat (length l))
  then match nth_error l (Z.to_nat from) with
       | Some x =>
           let l1 := firstn (Z.to_nat from) l ++ skipn (S (Z.to_nat from)) l in
           Some (firstn (Z.to_nat to) l1 ++ x :: skipn (Z.to_nat to) l1)
       | None => None
       end
  else None.

(** The toolkit's [beginMoveRows] for a move inside the top level: it
    asserts [sourceFirst >= 0], [sourceLast >= sourceFirst] and
    [destinationChild >= 0], and refuses (returns false) a destination
    inside the moved range or directly behind it. *)
Definition beginMoveRows (sourceFirst sourceLast destinationChild : Z)
  : option bool :=
  if (0 <=? sourceFirst) && (sourceFirst <=? sourceLast)
     && (0 <=? destinationChild)
  then Some (negb ((sourceFirst <=? destinationChild)
                   && (destinationChild <=? sourceLast + 1)))
  else None.

(** The loop [for (i = 0; i < count; ++i) m_data.move(sourceRow + i,
    destinationChild + (sourceRow > destinationChild ? 0 : -1))], [n]
    turns left. *)
Fixpoint move_loop {A} (n : nat) (i : Z) (m_data : list A)
  (sourceRow destinationChild : Z) : option (list A) :=
  match n with
  | O => Some m_data
  | S n' =>
      match QList_move m_data (sourceRow + i)
              (destinationChild
               + (if sourceRow >? destinationChild then 0 else -1)) with
      | Some m_data' =>
          move_loop n' (i + 1) m_data' sourceRow destinationChild
      | None => None
      end
  end.

(** [CountryModel::moveRows] of reorder-with-model-view.cpp, for a move
    inside the top level (both parent indexes invalid), which is all the
    flat model has; the assertions of the [CHECK_moveRows] macro are not
    part of the model. *)
Definition moveRows (m_data : list CountryData)
  (sourceRow count destinationChild : Z) : option (bool * list CountryData) :=
  match beginMoveRows sourceRow (sourceRow + count - 1) destinationChild with
  | None => None
  | Some false => Some (false, m_data)
  | Some true =>
      match move_loop (Z.to_nat count) 0 m_data sourceRow destinationChild with
      | Some m_data' => Some (true, m_data')
      | None => None
      end
  end.

End Reorder.

(* ==== THEOREMS ==== *)

(* ===================================================================== *)
(** ** Facts about the machine integers and list helpers *)

Lemma to_int_small (z : Z) : 0 <= z <= INT_MAX -> to_int z = z.
Proof.
  unfold to_int, INT_MAX. intros H.
  rewrite Z.mod_small by lia. lia.
Qed.

Lemma to_int_range (z : Z) : - 2 ^ 31 <= to_int z <= INT_MAX.
Proof.
  unfold to_int, INT_MAX.
  pose proof (Z.mod_pos_bound (z + 2 ^ 31) (2 ^ 32) ltac:(lia)). lia.
Qed.

Lemma find_index_first {A} (f : A -> bool) (l : list A) (i : nat) (x : A) :
  nth_error l i = Some x ->
  f x = true ->
  (forall j y, (j < i)%nat -> nth_error l j = Some y -> f y = false) ->
  find_index f l = Some i.
Proof.
  revert i. induction l as [|h r IH]; intros [|i] Hn Hx Hbefore; simpl in *;
    try discriminate.
  - injection Hn as ->. now rewrite Hx.
  - rewrite (Hbefore O h) by (auto; lia).
    rewrite (IH i); auto.
    intros j y Hj Hy. apply (Hbefore (S j) y); [lia | exact Hy].
Qed.

Lemma NoDup_nth_error_inj {A} (l : list A) (i j : nat) (x : A) :
  NoDup l -> nth_error l i = Some x -> nth_error l j = Some x -> i = j.
Proof.
  intros Hnd Hi Hj.
  apply (proj1 (NoDup_nth_error l) Hnd).
  - apply nth_error_Some. congruence.
  - congruence.
Qed.

Lemma NoDup_app_inv {A} (l1 l2 : list A) :
  NoDup (l1 ++ l2) ->
  NoDup l1 /\ NoDup l2 /\ (forall a, In a l1 -> ~ In a l2).
Proof.
  induction l1 as [|x r IH]; simpl; intros H.
  - repeat split; [constructor | exact H | tauto].
  - inversion H as [|? ? Hx Hr]; subst. destruct (IH Hr) as (H1 & H2 & H3).
    repeat split; auto.
    + constructor; auto. intros Hi. apply Hx. apply in_or_app. now left.
    + intros a [<-|Ha]; [|now apply H3].
      intros Hi. apply Hx. apply in_or_app. now right.
Qed.

(* ===================================================================== *)
(** ** The tree node store *)

Module TreeNodeFacts.
Import TreeNodes NodeOps.

Lemma childCount_small (this : TreeNode) :
  Z.of_nat (length (m_childNodes this)) <= INT_MAX ->
  childCount this = Z.of_nat (length (m_childNodes this)).
Proof. intros H. unfold childCount. apply to_int_small. lia. Qed.

Lemma appendChild_length (this c : TreeNode) :
  length (m_childNodes (appendChild this c)) = S (length (m_childNodes this)).
Proof. simpl. rewrite length_app. simpl. lia. Qed.

Lemma insertChild_children (this : TreeNode) (pos : Z) (c this' : TreeNode) :
  insertChild this pos c = Some this' ->
  0 <= pos <= Z.of_nat (length (m_childNodes this)) /\
  this' = set_children this
            (firstn (Z.to_nat pos) (m_childNodes this)
               ++ set_parent c (Some (this_addr this))
               :: skipn (Z.to_nat pos) (m_childNodes this)).
Proof.
  unfold insertChild.
  destruct ((0 <=? pos) && (pos <=? Z.of_nat (length (m_childNodes this)))) eqn:E;
    [|discriminate].
  intros [= <-]. apply andb_prop in E as [E1 E2]. split; [lia | reflexivity].
Qed.

Lemma insertChild_length (this : TreeNode) (pos : Z) (c this' : TreeNode) :
  insertChild this pos c = Some this' ->
  length (m_childNodes this') = S (length (m_childNodes this)).
Proof.
  intros H. apply insertChild_children in H as [Hr ->].
  cbn [m_childNodes set_children].
  rewrite length_app. cbn [length].
  rewrite length_firstn, length_skipn. lia.
Qed.

Lemma takeChild_children (this : TreeNode) (r : Z) (c this' : TreeNode) :
  takeChild this r = Some (c, this') ->
  0 <= r < Z.of_nat (length (m_childNodes this)) /\
  nth_error (m_childNodes this) (Z.to_nat r) = Some c /\
  this' = set_children this
            (firstn (Z.to_nat r) (m_childNodes this)
               ++ skipn (S (Z.to_nat r)) (m_childNodes this)).
Proof.
  unfold takeChild.
  destruct ((0 <=? r) && (r <? Z.of_nat (length (m_childNodes this)))) eqn:E;
    [|discriminate].
  destruct (nth_error (m_childNodes this) (Z.to_nat r)) as [x|] eqn:En;
    [|discriminate].
  intros [= <- <-]. apply andb_prop in E as [E1 E2].
  repeat split; lia.
Qed.

Lemma takeChild_length (this : TreeNode) (r : Z) (c this' : TreeNode) :
  takeChild this r = Some (c, this') ->
  S (length (m_childNodes this')) = length (m_childNodes this).
Proof.
  intros H. apply takeChild_children in H as (Hr & _ & ->).
  cbn [m_childNodes set_children].
  rewrite length_app, length_firstn, length_skipn. lia.
Qed.

(** The operations are defined exactly on the calls that are in range. *)
Lemma apply_op_defined (this : TreeNode) (op : NodeOp) :
  op_in_range this op = true <-> exists this', apply_op this op = Some this'.
Proof.
  destruct op as [c|pos c|r]; simpl.
  - split; eauto.
  - unfold insertChild.
    destruct ((0 <=? pos) && (pos <=? Z.of_nat (length (m_childNodes this))));
      split; eauto; try discriminate; intros [? ?]; discriminate.
  - unfold takeChild.
    destruct ((0 <=? r) && (r <? Z.of_nat (length (m_childNodes this)))) eqn:E.
    + apply andb_prop in E as [E1 E2].
      destruct (nth_error (m_childNodes this) (Z.to_nat r)) eqn:En.
      * split; eauto.
      * apply nth_error_None in En. lia.
    + split; [discriminate | intros [? ?]; discriminate].
Qed.

Lemma apply_op_length (this this' : TreeNode) (op : NodeOp) :
  apply_op this op = Some this' ->
  Z.of_nat (length (m_childNodes this')) =
  Z.of_nat (length (m_childNodes this))
  + (if is_append op then 1 else 0)
  + (if is_insert op then 1 else 0)
  - (if is_take op then 1 else 0).
Proof.
  destruct op as [c|pos c|r]; simpl.
  - intros [= <-]. rewrite appendChild_length. lia.
  - intros H. apply insertChild_length in H. lia.
  - destruct (takeChild this r) as [[c t]|] eqn:E; [|discriminate].
    intros [= <-]. apply takeChild_length in E. lia.
Qed.

Lemma run_ops_length (ops : list NodeOp) (this this' : TreeNode) :
  run_ops this ops = Some this' ->
  Z.of_nat (length (m_childNodes this')) =
  Z.of_nat (length (m_childNodes this))
  + count_ops is_append ops + count_ops is_insert ops - count_ops is_take ops.
Proof.
  revert this. induction ops as [|op rest IH]; intros this; simpl.
  - intros [= <-]. unfold count_ops. simpl. lia.
  - destruct (apply_op this op) as [t1|] eqn:E; [|discriminate].
    intros H. apply IH in H. apply apply_op_length in E.
    unfold count_ops in *. simpl.
    destruct op; simpl in *; lia.
Qed.

(** C4.  On a node as constructed, after any sequence of appendChild,
    insertChild and takeChild calls that is defined, childCount() is the
    number of appends plus the number of positional insertions minus the
    number of detachments; childCount() is an [int], so this is for child
    sequences that fit one. *)
Theorem childCount_net_operations
  (a : ptr) (d : QVariantList) (p : option ptr)
  (ops : list NodeOp) (this' : TreeNode) :
  run_ops (TreeNode_new a d p) ops = Some this' ->
  Z.of_nat (length (m_childNodes this')) <= INT_MAX ->
  childCount this' =
  count_ops is_append ops + count_ops is_insert ops - count_ops is_take ops.
Proof.
  intros Hrun Hfit.
  rewrite childCount_small by exact Hfit.
  apply run_ops_length in Hrun. simpl in Hrun. lia.
Qed.

Lemma childCount_net_operations_witness :
  let n := fun a => TreeNode_new a [QVString "n"] None in
  let ops := [OpAppend (n 2); OpInsert 0 (n 3); OpAppend (n 4); OpTake 1] in
  exists this',
    run_ops (n 1) ops = Some this' /\ childCount this' = 2.
Proof.
  eexists. split; [reflexivity|].
  apply (@childCount_net_operations 1 [QVString "n"] None
           [OpAppend (TreeNode_new 2 [QVString "n"] None);
            OpInsert 0 (TreeNode_new 3 [QVString "n"] None);
            OpAppend (TreeNode_new 4 [QVString "n"] None); OpTake 1]).
  - reflexivity.
  - vm_compute. discriminate.
Defined.


(** *** The parent back-reference *)

Lemma parents_ok_unfold (t : TreeNode) :
  parents_ok t =
  forallb (fun c => opt_ptr_eqb (m_parentNode c) (Some (this_addr t))
                    && parents_ok c) (m_childNodes t).
Proof. destruct t; reflexivity. Qed.

Lemma parents_ok_set_children (this : TreeNode) (cs : list TreeNode) :
  parents_ok (set_children this cs) =
  forallb (fun c => opt_ptr_eqb (m_parentNode c) (Some (this_addr this))
                    && parents_ok c) cs.
Proof. rewrite parents_ok_unfold. reflexivity. Qed.

Lemma parents_ok_set_parent (c : TreeNode) (p : option ptr) :
  parents_ok (set_parent c p) = parents_ok c.
Proof. rewrite !parents_ok_unfold. reflexivity. Qed.

Lemma forallb_firstn_skipn {A} (f : A -> bool) (n : nat) (l : list A) :
  forallb f l = forallb f (firstn n l) && forallb f (skipn n l).
Proof. rewrite <- forallb_app, firstn_skipn. reflexivity. Qed.

Lemma forallb_nth_error {A} (f : A -> bool) (l : list A) (i : nat) (x : A) :
  forallb f l = true -> nth_error l i = Some x -> f x = true.
Proof.
  intros H Hn. rewrite forallb_forall in H. apply H.
  eapply nth_error_In; eauto.
Qed.

Lemma forallb_replace_nth {A} (f : A -> bool) (i : nat) (x : A) (l : list A) :
  forallb f l = true -> f x = true -> forallb f (replace_nth i x l) = true.
Proof.
  revert i. induction l as [|y r IH]; intros [|i] Hl Hx; simpl in *; auto.
  - apply andb_prop in Hl as [_ Hr]. now rewrite Hx.
  - apply andb_prop in Hl as [Hy Hr]. rewrite Hy. simpl. auto.
Qed.

Lemma opt_ptr_eqb_refl (p : option ptr) : opt_ptr_eqb p p = true.
Proof. destruct p; simpl; auto using Z.eqb_refl. Qed.

Lemma opt_ptr_eqb_eq (p q : option ptr) : opt_ptr_eqb p q = true <-> p = q.
Proof.
  destruct p, q; simpl; split; intros H; try discriminate; auto.
  - apply Z.eqb_eq in H. congruence.
  - injection H as ->. apply Z.eqb_refl.
Qed.

Lemma built_parents_ok_and_steps :
  (forall t, built append_to_parent t -> parents_ok t = true) /\
  (forall t t', mutated append_to_parent t t' -> step_keeps t t').
Proof.
  { apply (@built_mutated_mind append_to_parent
             (fun t => parents_ok t = true) step_keeps).
    + intros a d p. reflexivity.
    + intros t t' _ Ht _ (_ & _ & Hk). auto.
    + intros t r c t' _ Ht Htake.
      apply takeChild_children in Htake as (_ & Hn & _).
      rewrite parents_ok_unfold in Ht.
      pose proof (forallb_nth_error _ _ _ Ht Hn) as Hc.
      apply andb_prop in Hc. tauto.
    + intros this c _ Hc Happ. repeat split; auto.
      intros Hthis. unfold appendChild.
      rewrite parents_ok_set_children, forallb_app.
      rewrite parents_ok_unfold in Hthis. rewrite Hthis. simpl.
      unfold append_to_parent in Happ. rewrite Happ, opt_ptr_eqb_refl, Hc.
      reflexivity.
    + intros this pos c this' _ Hc Hins.
      apply insertChild_children in Hins as [_ ->]. repeat split; auto.
      intros Hthis. rewrite parents_ok_set_children, forallb_app.
      rewrite parents_ok_unfold in Hthis.
      rewrite (forallb_firstn_skipn _ (Z.to_nat pos)) in Hthis.
      apply andb_prop in Hthis as [H1 H2]. rewrite H1.
      cbn [forallb andb]. rewrite parents_ok_set_parent, Hc, H2.
      cbn [m_parentNode set_parent opt_ptr_eqb]. rewrite Z.eqb_refl.
      reflexivity.
    + intros this r c this' Htake.
      apply takeChild_children in Htake as (_ & _ & ->). repeat split; auto.
      intros Hthis. rewrite parents_ok_set_children, forallb_app.
      rewrite parents_ok_unfold in Hthis.
      rewrite (forallb_firstn_skipn _ (Z.to_nat r)) in Hthis.
      apply andb_prop in Hthis as [H1 H2]. rewrite H1. simpl.
      rewrite (forallb_firstn_skipn _ 1) in H2.
      apply andb_prop in H2 as [_ H2]. rewrite skipn_skipn in H2.
      replace (1 + Z.to_nat r)%nat with (S (Z.to_nat r)) in H2 by lia.
      exact H2.
    + intros this i c c' Hn _ (Ha & Hp & Hk). repeat split; auto.
      intros Hthis. rewrite parents_ok_set_children.
      rewrite parents_ok_unfold in Hthis.
      apply forallb_replace_nth; [exact Hthis|].
      pose proof (forallb_nth_error _ _ _ Hthis Hn) as Hc.
      apply andb_prop in Hc as [Hc1 Hc2].
      rewrite Hp, Hc1. simpl. auto. }
Qed.

Lemma evolves_keeps (t0 t : TreeNode) :
  evolves append_to_parent t0 t -> step_keeps t0 t.
Proof.
  induction 1 as [|t t' _ (Ha & Hp & Hk) Hm].
  - repeat split; auto.
  - apply built_parents_ok_and_steps in Hm as (Ha' & Hp' & Hk').
    repeat split; try congruence. auto.
Qed.

(** C3, as the code has it.  For every tree produced by a sequence of
    constructions, appendChild, insertChild and takeChild calls in which
    each node handed to appendChild already names the receiver as its
    parent, every child's parent back-reference, at every depth, is the
    node whose child sequence owns it; and a root constructed without
    parent still has none after any such sequence applied to its tree. *)
Theorem parent_backrefs_when_appends_match :
  (forall t, built append_to_parent t -> parents_ok t = true) /\
  (forall a d t,
      evolves append_to_parent (TreeNode_new a d None) t ->
      parents_ok t = true /\ parentNode t = None /\ this_addr t = a).
Proof.
  split.
  - apply built_parents_ok_and_steps.
  - intros a d t H. apply evolves_keeps in H as (Ha & Hp & Hk).
    unfold parentNode. repeat split; auto.
Qed.

Lemma parent_backrefs_when_appends_match_witness :
  let root := TreeNode_new 1 [QVString "Title"] None in
  let a := TreeNode_new 2 [QVString "A"] (Some 1) in
  let x := TreeNode_new 3 [QVString "X"] None in
  exists t, insertChild (appendChild root a) 0 x = Some t /\
            parents_ok t = true /\ parentNode t = None /\ this_addr t = 1.
Proof.
  eexists. split; [reflexivity|].
  apply (proj2 parent_backrefs_when_appends_match 1 [QVString "Title"]).
  eapply evolves_step.
  - eapply evolves_step; [apply evolves_refl|].
    apply (mut_append (append_ok := append_to_parent)
             (TreeNode_new 1 [QVString "Title"] None)
             (c := TreeNode_new 2 [QVString "A"] (Some 1))).
    + apply built_new.
    + reflexivity.
  - eapply mut_insert with (pos := 0) (c := TreeNode_new 3 [QVString "X"] None).
    + apply built_new.
    + reflexivity.
Defined.

(** C3, as stated, fails: a node constructed under [a] with [a] as its
    parent, detached from [a] with takeChild and handed to
    [root->appendChild], is a child of the root whose parentNode() is
    still [a]. *)
Lemma parent_backref_stale_after_append :
  let root := TreeNode_new 1 [QVString "Title"] None in
  let a := TreeNode_new 2 [QVString "A"] (Some 1) in
  let x := TreeNode_new 3 [QVString "X"] (Some 2) in
  let a1 := appendChild a x in
  let root1 := appendChild root a1 in
  exists a2 x' root2,
    takeChild a1 0 = Some (x', a2) /\
    root2 = appendChild
              (set_children root1 (replace_nth 0 a2 (m_childNodes root1))) x' /\
    evolves any_append root root2 /\
    map this_addr (m_childNodes root2) = [2; 3] /\
    child root2 1 = Some x' /\
    parentNode x' = Some 2 /\
    this_addr root2 = 1 /\
    parents_ok root2 = false.
Proof.
  cbv zeta. eexists _, _, _.
  split; [reflexivity|]. split; [reflexivity|].
  split; [|repeat split; reflexivity].
  eapply evolves_step.
  - eapply evolves_step.
    + eapply evolves_step; [apply evolves_refl|].
      apply (mut_append (append_ok := any_append)
               (TreeNode_new 1 [QVString "Title"] None)
               (c := appendChild (TreeNode_new 2 [QVString "A"] (Some 1))
                       (TreeNode_new 3 [QVString "X"] (Some 2)))).
      * eapply built_step; [apply built_new|].
        apply mut_append; [apply built_new | exact I].
      * exact I.
    + eapply mut_inner with (i := O); [reflexivity|].
      eapply mut_take with (r := 0). reflexivity.
  - apply mut_append; [|exact I].
    eapply built_taken with (r := 0)
      (t := appendChild (TreeNode_new 2 [QVString "A"] (Some 1))
              (TreeNode_new 3 [QVString "X"] (Some 2))).
    + eapply built_step; [apply built_new|].
      apply mut_append; [apply built_new | exact I].
    + reflexivity.
Qed.

(** *** Queries *)

(** C9.  child(row) is null for every row that is negative or not below
    childCount(), and data(column) is the empty (invalid) value for every
    column outside the node's column values.  Both queries are functions
    of the node alone: their bodies assign nothing, so the node they are
    asked on is the node afterwards. *)
Theorem child_and_data_out_of_range (this : TreeNode) :
  (forall r, r < 0 \/ childCount this <= r -> child this r = None) /\
  (forall column,
      column < 0 \/ Z.of_nat (length (m_itemData this)) <= column ->
      data this column = QVInvalid).
Proof.
  split.
  - intros r H. unfold child.
    destruct ((0 <=? r) && (r <? childCount this)) eqn:E; [|reflexivity].
    apply andb_prop in E as [E1 E2]. lia.
  - intros column H. unfold data, QList_value.
    destruct ((0 <=? column) && (column <? Z.of_nat (length (m_itemData this))))
      eqn:E; [|reflexivity].
    apply andb_prop in E as [E1 E2]. lia.
Qed.

Lemma child_and_data_out_of_range_witness :
  let n := appendChild (TreeNode_new 1 [QVString "Title"; QVString "Summary"] None)
             (TreeNode_new 2 [QVString "A"] (Some 1)) in
  child n (-1) = None /\ child n 1 = None /\
  data n (-3) = QVInvalid /\ data n 2 = QVInvalid.
Proof.
  cbv zeta.
  pose proof (child_and_data_out_of_range
                (appendChild
                   (TreeNode_new 1 [QVString "Title"; QVString "Summary"] None)
                   (TreeNode_new 2 [QVString "A"] (Some 1)))) as [Hc Hd].
  split; [|split; [|split]].
  - apply Hc. left. lia.
  - apply Hc. right. vm_compute. discriminate.
  - apply Hd. left. lia.
  - apply Hd. right. vm_compute. discriminate.
Defined.

(** In range, child(row) is the element in that slot. *)
Lemma child_in_range (this : TreeNode) (i : nat) :
  Z.of_nat (length (m_childNodes this)) <= INT_MAX ->
  (i < length (m_childNodes this))%nat ->
  child this (Z.of_nat i) = nth_error (m_childNodes this) i.
Proof.
  intros Hfit Hi. unfold child. rewrite childCount_small by exact Hfit.
  replace ((0 <=? Z.of_nat i) && (Z.of_nat i <? Z.of_nat (length (m_childNodes this))))
    with true by (symmetry; apply andb_true_intro; split; lia).
  now rewrite Nat2Z.id.
Qed.

(** C5.  A node that is the [i]-th element of the child sequence of the
    node its parent back-reference points to has row() = [i]; sibling
    objects are distinct objects, so each address appears once in the
    sequence, and the offset is returned as an [int].  A node without
    parent has row() = 0. *)
Theorem row_is_offset_among_siblings (st : Store) (this : TreeNode) :
  (forall p parent (i : nat),
      m_parentNode this = Some p ->
      deref st p = Some parent ->
      nth_error (map this_addr (m_childNodes parent)) i = Some (this_addr this) ->
      NoDup (map this_addr (m_childNodes parent)) ->
      Z.of_nat i <= INT_MAX ->
      row st this = Some (Z.of_nat i)) /\
  (m_parentNode this = None -> row st this = Some 0).
Proof.
  split.
  - intros p parent i Hp Hd Hi Hnd Hfit. unfold row. rewrite Hp, Hd.
    rewrite nth_error_map in Hi.
    destruct (nth_error (m_childNodes parent) i) as [c|] eqn:Hc; [|discriminate].
    injection Hi as Hi.
    rewrite (@find_index_first _ _ (m_childNodes parent) i c Hc).
    + rewrite to_int_small by lia. reflexivity.
    + apply Z.eqb_eq. exact Hi.
    + intros j y Hj Hy. apply Z.eqb_neq. intros Heq.
      assert (i = j); [|lia].
      apply (@NoDup_nth_error_inj _ (map this_addr (m_childNodes parent)) i j
               (this_addr this) Hnd).
      * rewrite nth_error_map, Hc. simpl. congruence.
      * rewrite nth_error_map, Hy. simpl. congruence.
  - intros Hp. unfold row. now rewrite Hp.
Qed.

Lemma row_is_offset_among_siblings_witness :
  let mk := fun a s => TreeNode_new a [QVString s] (Some 1) in
  let root := appendChild (appendChild (appendChild
                (TreeNode_new 1 [QVString "Title"] None)
                (mk 2 "A"%string)) (mk 3 "B"%string)) (mk 4 "C"%string) in
  row [root] (mk 4 "C"%string) = Some 2 /\ row [root] root = Some 0.
Proof.
  cbv zeta.
  set (root := appendChild (appendChild (appendChild
                 (TreeNode_new 1 [QVString "Title"] None)
                 (TreeNode_new 2 [QVString "A"] (Some 1)))
                 (TreeNode_new 3 [QVString "B"] (Some 1)))
                 (TreeNode_new 4 [QVString "C"] (Some 1))).
  split.
  - apply (proj1 (row_is_offset_among_siblings [root]
                    (TreeNode_new 4 [QVString "C"] (Some 1)))
             1 root 2%nat).
    + reflexivity.
    + reflexivity.
    + reflexivity.
    + simpl. repeat constructor; simpl; intuition discriminate.
    + vm_compute. discriminate.
  - apply (proj2 (row_is_offset_among_siblings [root] root)). reflexivity.
Defined.

(** C6.  Under a root without children, append "A", "B", "C" (three
    distinct objects constructed with the root as parent), detach "B" at
    its row and insert the returned node at position 0: the siblings are
    "B", "A", "C" and row() of "B" is 0. *)
Theorem detach_and_reinsert_first
  (r aA aB aC : ptr) (title dA dB dC : QVariantList) :
  aA <> aB ->
  let root := TreeNode_new r title None in
  let A := TreeNode_new aA dA (Some r) in
  let B := TreeNode_new aB dB (Some r) in
  let C := TreeNode_new aC dC (Some r) in
  let t3 := appendChild (appendChild (appendChild root A) B) C in
  exists b t4 t5,
    row [t3] B = Some 1 /\
    takeChild t3 1 = Some (b, t4) /\
    insertChild t4 0 b = Some t5 /\
    m_childNodes t5 = [B; A; C] /\
    child t5 0 = Some B /\
    row [t5] B = Some 0.
Proof.
  intros Hne. cbv zeta.
  exists (TreeNode_new aB dB (Some r)).
  eexists. eexists.
  apply Z.eqb_neq in Hne.
  split; [|split; [reflexivity|split; [reflexivity|]]].
  - unfold row. simpl. rewrite Z.eqb_refl. simpl.
    rewrite Hne, Z.eqb_refl. reflexivity.
  - split; [reflexivity|]. split; [reflexivity|].
    unfold row. simpl. rewrite Z.eqb_refl. simpl.
    rewrite Z.eqb_refl. reflexivity.
Qed.

Lemma detach_and_reinsert_first_witness :
  let root := TreeNode_new 1 [QVString "Title"] None in
  let A := TreeNode_new 2 [QVString "A"] (Some 1) in
  let B := TreeNode_new 3 [QVString "B"] (Some 1) in
  let C := TreeNode_new 4 [QVString "C"] (Some 1) in
  let t3 := appendChild (appendChild (appendChild root A) B) C in
  exists b t4 t5,
    row [t3] B = Some 1 /\
    takeChild t3 1 = Some (b, t4) /\
    insertChild t4 0 b = Some t5 /\
    m_childNodes t5 = [B; A; C] /\
    child t5 0 = Some B /\
    row [t5] B = Some 0.
Proof.
  apply (@detach_and_reinsert_first 1 2 3 4 [QVString "Title"]
           [QVString "A"] [QVString "B"] [QVString "C"]).
  discriminate.
Defined.

End TreeNodeFacts.

(* ===================================================================== *)
(** ** Drag payloads *)

Module MimeFacts.
Import Mime.

Lemma hasFormat_false_data (m : QMimeData) (t : string) :
  hasFormat m t = false -> mime_data m t = [].
Proof.
  unfold hasFormat, mime_data. induction m as [|e r IH]; simpl; auto.
  destruct (String.eqb (fst e) t); simpl; [discriminate | auto].
Qed.

Lemma filter_filter {A} (f g : A -> bool) (l : list A) :
  filter f (filter g l) = filter (fun x => g x && f x) l.
Proof.
  induction l as [|x r IH]; simpl; auto.
  destruct (g x); simpl; [destruct (f x)|]; simpl; rewrite IH; auto.
Qed.

Lemma filter_true {A} (l : list A) : filter (fun _ => true) l = l.
Proof. induction l; simpl; congruence. Qed.

Lemma first_occurrences_In (l : list Z) (x : Z) :
  In x (first_occurrences l) <-> In x l.
Proof.
  induction l as [|h r IH]; simpl; [tauto|].
  rewrite filter_In, IH. destruct (Z.eqb_spec x h); simpl.
  - subst. tauto.
  - split; [tauto|]. intros [Hh|Hr]; [congruence|]. right. tauto.
Qed.

Lemma first_occurrences_NoDup (l : list Z) : NoDup (first_occurrences l).
Proof.
  induction l as [|h r IH]; simpl; constructor.
  - rewrite filter_In, Z.eqb_refl. simpl. intros [_ H]. discriminate.
  - apply NoDup_filter. exact IH.
Qed.

(** Extending the input by one key extends the result by that key when
    it is new, and by nothing otherwise. *)
Lemma first_occurrences_snoc (l : list Z) (x : Z) :
  first_occurrences (l ++ [x]) =
  first_occurrences l ++ (if existsb (Z.eqb x) l then [] else [x]).
Proof.
  induction l as [|h r IH]; simpl; auto.
  rewrite IH, filter_app. f_equal. f_equal.
  destruct (Z.eqb_spec x h); simpl.
  - destruct (existsb (Z.eqb x) r); simpl; auto.
    destruct (Z.eqb_spec x h); simpl; [auto|contradiction].
  - destruct (existsb (Z.eqb x) r); simpl; auto.
    destruct (Z.eqb_spec x h); simpl; [contradiction|auto].
Qed.

(** The loop of [TreeModel::mimeData], started with [seen] in hand. *)
Lemma fold_remember_first (l seen : list Z) :
  fold_left remember_first l seen =
  seen ++ filter (fun y => negb (existsb (Z.eqb y) seen)) (first_occurrences l).
Proof.
  revert seen. induction l as [|x r IH]; intros seen; simpl.
  - now rewrite app_nil_r.
  - rewrite IH. unfold remember_first.
    destruct (existsb (Z.eqb x) seen) eqn:E; simpl.
    + f_equal. rewrite filter_filter. apply filter_ext. intros y.
      destruct (Z.eqb_spec y x); simpl; auto. subst. now rewrite E.
    + rewrite <- app_assoc. simpl. f_equal. f_equal.
      rewrite filter_filter. apply filter_ext. intros y.
      rewrite existsb_app. simpl. rewrite orb_false_r, negb_orb.
      apply andb_comm.
Qed.

Lemma dedupe_first_occurrences (l : list Z) :
  dedupe l = first_occurrences l.
Proof.
  unfold dedupe. rewrite fold_remember_first. simpl. apply filter_true.
Qed.

End MimeFacts.

(* ===================================================================== *)
(** ** Encoding a drag *)

Module DragFacts.
Import Mime MimeFacts Folders.

Lemma QList_at_in_range {A} (l : list A) (i : Z) :
  0 <= i < Z.of_nat (length l) -> exists x, QList_at l i = Some x.
Proof.
  intros H. unfold QList_at.
  replace ((0 <=? i) && (i <? Z.of_nat (length l))) with true
    by (symmetry; apply andb_true_intro; split; lia).
  destruct (nth_error l (Z.to_nat i)) eqn:E; eauto.
  apply nth_error_None in E. lia.
Qed.

Lemma rows_stream_spec {A} (write : A -> QByteArray) (m_data : list A)
  (indexes : list QModelIndex) (seen : list Z) (stream : QByteArray) :
  rows_valid m_data indexes ->
  rows_stream write m_data indexes seen stream =
  Some (stream ++
        flat_map (write_row write m_data)
          (filter (fun r => negb (existsb (Z.eqb r) seen))
             (first_occurrences (map index_row indexes)))).
Proof.
  revert seen stream.
  induction indexes as [|i rest IH]; intros seen stream Hv; simpl.
  - now rewrite app_nil_r.
  - inversion Hv as [|? ? Hi Hrest]; subst.
    destruct (existsb (Z.eqb (index_row i)) seen) eqn:E; simpl.
    + rewrite IH by exact Hrest. do 2 f_equal.
      rewrite filter_filter. f_equal. apply filter_ext. intros y.
      destruct (Z.eqb_spec y (index_row i)); simpl; auto.
      subst. now rewrite E.
    + destruct (QList_at_in_range m_data Hi) as [x Hx]. rewrite Hx.
      rewrite IH by exact Hrest. rewrite <- app_assoc. do 2 f_equal.
      unfold write_row at 2. rewrite Hx. f_equal.
      rewrite filter_filter. f_equal. apply filter_ext. intros y.
      simpl. rewrite negb_orb. reflexivity.
Qed.

(** C10.  Each [mimeData] implementation encodes every distinct dragged
    node (tree model) or row (e-mails model, country model) exactly once,
    whatever repetitions the index list has, in the order of first
    occurrence; the tree model also writes their number.  The rows are
    rows of the model, as the views pass them. *)
Theorem mimeData_encodes_each_once :
  (forall w indexes,
      TreeModels.mimeData indexes w =
      Some (setData TreeModels.s_mimeType
              (I64 (TreeModels.applicationPid w)
                 :: I64 (Z.of_nat (length (first_occurrences
                                             (map internalPointer indexes))))
                 :: map I64 (first_occurrences (map internalPointer indexes))),
            w)) /\
  (forall folder indexes,
      rows_valid (emails folder) indexes ->
      EmailsModel_mimeData folder indexes =
      Some (setData s_emailsMimeType
              (QStr (folderName folder)
                 :: flat_map (write_row write_email (emails folder))
                      (first_occurrences (map index_row indexes))))) /\
  (forall m_data indexes,
      rows_valid m_data indexes ->
      CountryModel_mimeData m_data indexes =
      Some (setData s_countryMimeType
              (flat_map (write_row write_country m_data)
                 (first_occurrences (map index_row indexes))))) /\
  (forall keys,
      NoDup (first_occurrences keys) /\
      (forall x, In x (first_occurrences keys) <-> In x keys) /\
      (forall x, first_occurrences (keys ++ [x]) =
                 first_occurrences keys
                   ++ (if existsb (Z.eqb x) keys then [] else [x]))).
Proof.
  split; [|split; [|split]].
  - intros w indexes. unfold TreeModels.mimeData, TreeModels.bind,
      TreeModels.getpid, TreeModels.ret.
    now rewrite dedupe_first_occurrences.
  - intros folder indexes Hv. unfold EmailsModel_mimeData.
    rewrite rows_stream_spec by exact Hv. simpl. now rewrite filter_true.
  - intros m_data indexes Hv. unfold CountryModel_mimeData.
    rewrite rows_stream_spec by exact Hv. simpl. now rewrite filter_true.
  - intros keys. split; [apply first_occurrences_NoDup|].
    split; [intros x; apply first_occurrences_In|].
    intros x. apply first_occurrences_snoc.
Qed.

Lemma mimeData_encodes_each_once_witness :
  let inbox := mkEmailFolder "Inbox" ["Call your mother"%string; "Urgent"%string; "Spam 1"%string] in
  let cols := fun r => [Index r 0 0; Index r 1 0] in
  EmailsModel_mimeData inbox (cols 2 ++ cols 0 ++ cols 2) =
  Some [(s_emailsMimeType,
         [QStr "Inbox"; QStr "Spam 1"; QStr "Call your mother"])] /\
  CountryModel_mimeData [mkCountryData "USA" 331; mkCountryData "China" 1439]
    (cols 1 ++ cols 1 ++ cols 0) =
  Some [(s_countryMimeType,
         [QStr "China"; I32 1439; QStr "USA"; I32 331])].
Proof.
  cbv zeta. split.
  - apply (proj1 (proj2 mimeData_encodes_each_once)
             (mkEmailFolder "Inbox" ["Call your mother"%string; "Urgent"%string; "Spam 1"%string])
             [Index 2 0 0; Index 2 1 0; Index 0 0 0; Index 0 1 0;
              Index 2 0 0; Index 2 1 0]).
    repeat constructor; simpl; lia.
  - apply (proj1 (proj2 (proj2 mimeData_encodes_each_once))
             [mkCountryData "USA" 331; mkCountryData "China" 1439]
             [Index 1 0 0; Index 1 1 0; Index 1 0 0; Index 1 1 0;
              Index 0 0 0; Index 0 1 0]).
    repeat constructor; simpl; lia.
Defined.

End DragFacts.

(* ===================================================================== *)
(** ** Declined drops *)

Module DeclineFacts.
Import Mime MimeFacts Folders.

Lemma widget_drop_declines (finish : Desk -> Desk) (d : Desk) (r column : Z)
  (mimeData : QMimeData) (action : DropAction) (destFolder : Z) :
  dest_folder_ptr d r column = Some destFolder ->
  foreign_type mimeData s_emailsMimeType \/
  foreign_sender mimeData s_emailsMimeType (desk_pid d) \/
  same_folder_ptr mimeData destFolder ->
  widget_drop finish d r column mimeData action = Some (false, d).
Proof.
  intros Hdest H. unfold widget_drop. rewrite Hdest.
  destruct H as [H|[(p & rest & Hd & Hp)|(p & rest & Hd)]].
  - rewrite (hasFormat_false_data _ _ H). reflexivity.
  - rewrite Hd. simpl. apply Z.eqb_neq in Hp. now rewrite Hp.
  - rewrite Hd. simpl. destruct (p =? desk_pid d); simpl; auto.
    now rewrite Z.eqb_refl.
Qed.

(** C1, as the code has it.  Each drop handler, given a payload of a
    foreign mime type, or one that names the destination folder as its
    source (folders model, widgets), or one that starts with a process
    id other than the receiver's (tree model, widgets: the handlers that
    read one), returns false and leaves the state as it was: the trees,
    allocator and notification log of the tree model; the folders and
    emitted signals of the folders model; the folders, items and counts
    of the list and table widgets.  The handlers of the folders examples
    first look up the destination folder, and the statement is for drops
    where there is one: for the widgets an item at the drop position
    that holds a folder pointer, for the folders model a parent index
    whose row is a row of the folder vector.  The folders model declines
    every drop that is not onto an item, before it looks anything up. *)
Theorem declined_drop_changes_nothing :
  (forall m w mimeData action r column parent,
      foreign_type mimeData TreeModels.s_mimeType \/
      foreign_sender mimeData TreeModels.s_mimeType (TreeModels.applicationPid w) ->
      TreeModels.dropMimeData m mimeData action r column parent w
      = Some (false, w)) /\
  (forall this mimeData action r column parent,
      isValid parent = false ->
      FoldersModel_dropMimeData this mimeData action r column parent
      = Some (false, this)) /\
  (forall this mimeData action r column parent destFolder,
      isValid parent = true ->
      QList_at (m_emailFolders this) (index_row parent) = Some destFolder ->
      foreign_type mimeData s_emailsMimeType \/
      same_folder_name mimeData destFolder ->
      FoldersModel_dropMimeData this mimeData action r column parent
      = Some (false, this)) /\
  (forall d index mimeData action destFolder,
      dest_folder_ptr d index 0 = Some destFolder ->
      foreign_type mimeData s_emailsMimeType \/
      foreign_sender mimeData s_emailsMimeType (desk_pid d) \/
      same_folder_ptr mimeData destFolder ->
      FoldersListWidget_dropMimeData d index mimeData action
      = Some (false, d)) /\
  (forall d r column mimeData action destFolder,
      dest_folder_ptr d r column = Some destFolder ->
      foreign_type mimeData s_emailsMimeType \/
      foreign_sender mimeData s_emailsMimeType (desk_pid d) \/
      same_folder_ptr mimeData destFolder ->
      FoldersTableWidget_dropMimeData d r column mimeData action
      = Some (false, d)).
Proof.
  split; [|split; [|split; [|split]]].
  - intros m w mimeData action r column parent H.
    unfold TreeModels.dropMimeData.
    destruct (hasFormat mimeData TreeModels.s_mimeType) eqn:Hf; simpl;
      [|reflexivity].
    destruct H as [H|(p & rest & Hd & Hp)].
    + unfold foreign_type in H. congruence.
    + rewrite Hd. unfold TreeModels.bind, TreeModels.lift, TreeModels.getpid.
      simpl. apply Z.eqb_neq in Hp. now rewrite Hp.
  - intros this mimeData action r column parent Hv.
    unfold FoldersModel_dropMimeData. now rewrite Hv.
  - intros this mimeData action r column parent destFolder Hv Hdest H.
    unfold FoldersModel_dropMimeData. rewrite Hv, Hdest. simpl.
    destruct H as [H|(rest & Hd)].
    + rewrite (hasFormat_false_data _ _ H). reflexivity.
    + rewrite Hd. simpl. now rewrite String.eqb_refl.
  - intros d index mimeData action destFolder Hdest H.
    eapply widget_drop_declines; eassumption.
  - intros d r column mimeData action destFolder Hdest H.
    eapply widget_drop_declines; eassumption.
Qed.

Lemma declined_drop_changes_nothing_witness :
  let w := TreeModels.mkWorld
             [TreeNodes.TreeNode_new 1 [QVString "Title"] None] 2 4242 [] in
  TreeModels.dropMimeData 0
    [(TreeModels.s_mimeType, [I64 17; I64 1; I64 1])] MoveAction (-1) 0
    InvalidIndex w = Some (false, w) /\
  FoldersModel_dropMimeData (mkFoldersModel sample_folders [])
    [(s_emailsMimeType, [QStr "Inbox"; QStr "Urgent"])] MoveAction (-1) (-1)
    (Index 0 0 0) = Some (false, mkFoldersModel sample_folders []) /\
  FoldersListWidget_dropMimeData sample_desk 1
    [("text/plain"%string, [QStr "hello"])] CopyAction
  = Some (false, sample_desk) /\
  FoldersTableWidget_dropMimeData sample_desk 0 1
    [(s_emailsMimeType, [I64 4242; I64 0; PtrList [500]])] MoveAction
  = Some (false, sample_desk).
Proof.
  cbv zeta.
  destruct declined_drop_changes_nothing as (Ht & _ & Hf & Hl & Htb).
  split; [|split; [|split]].
  - apply Ht. right. exists 17, [I64 1; I64 1]. split; [reflexivity|].
    simpl. discriminate.
  - apply Hf with (destFolder := mkEmailFolder "Inbox"
                                   ["Urgent"%string; "Spam 1"%string]);
      [reflexivity | reflexivity |].
    right. exists [QStr "Urgent"]. reflexivity.
  - apply Hl with (destFolder := 1); [reflexivity|]. left. reflexivity.
  - apply Htb with (destFolder := 0); [reflexivity|]. right. right.
    exists 4242, [PtrList [500]]. reflexivity.
Defined.

(** C1, as stated, fails in two ways.  The folders model reads a folder
    name and e-mails and nothing else: the payload an [EmailsModel]
    encodes is the same in whatever process the drag starts, and a drop
    of it onto another folder is accepted.  And the two widget handlers
    fetch the folder pointer of the item at the drop position before
    they look at the payload: at a position without an item (here the
    row after the last one) the call goes through the null pointer
    [item] returns, so nothing is returned, false or other, even for a
    payload of a foreign mime type. *)
Lemma drop_accepted_or_undefined :
  let customers := mkEmailFolder "Customers" ["Old customer"%string] in
  let model := mkFoldersModel sample_folders [] in
  (exists payload model',
      EmailsModel_mimeData customers [Index 0 0 0] = Some payload /\
      payload = [(s_emailsMimeType, [QStr "Customers"; QStr "Old customer"])] /\
      FoldersModel_dropMimeData model payload MoveAction (-1) (-1)
        (Index 0 0 0) = Some (true, model') /\
      map emails (m_emailFolders model') =
        [["Urgent"%string; "Spam 1"%string; "Old customer"%string];
         ["Old customer"%string]]) /\
  dest_folder_ptr sample_desk 2 0 = None /\
  FoldersListWidget_dropMimeData sample_desk 2
    [("text/plain"%string, [QStr "hello"])] CopyAction = None /\
  FoldersTableWidget_dropMimeData sample_desk 2 0
    [("text/plain"%string, [QStr "hello"])] CopyAction = None.
Proof.
  cbv zeta. split.
  - eexists _, _. split; [reflexivity|]. split; [reflexivity|].
    split; reflexivity.
  - split; [reflexivity|]. split; reflexivity.
Qed.

End DeclineFacts.

(* ===================================================================== *)
(** ** Objects in memory: search and update through a pointer *)

Module StoreFacts.
Import TreeNodes Mime TreeModels.

Lemma find_node_unfold (a : ptr) (t : TreeNode) :
  find_node a t =
  if this_addr t =? a then Some t else find_in a (m_childNodes t).
Proof.
  destruct t as [b cs d p]. simpl. destruct (b =? a); [reflexivity|].
  induction cs as [|c r IH]; simpl; [reflexivity|].
  destruct (find_node a c); [reflexivity | exact IH].
Qed.

Lemma deref_find_in (st : Store) (a : ptr) : deref st a = find_in a st.
Proof. induction st as [|t r IH]; simpl; [|rewrite IH]; reflexivity. Qed.

Lemma addrs_unfold (t : TreeNode) :
  addrs t = this_addr t :: flat_map addrs (m_childNodes t).
Proof. destruct t; reflexivity. Qed.

Lemma replace_node_unfold (a : ptr) (new t : TreeNode) :
  replace_node a new t =
  if this_addr t =? a then new
  else mkTreeNode (this_addr t) (map (replace_node a new) (m_childNodes t))
         (m_itemData t) (m_parentNode t).
Proof. destruct t; reflexivity. Qed.

Lemma find_in_app (a : ptr) (l1 l2 : list TreeNode) :
  find_in a (l1 ++ l2) =
  match find_in a l1 with Some n => Some n | None => find_in a l2 end.
Proof.
  induction l1 as [|c r IH]; simpl; [reflexivity|].
  destruct (find_node a c); [reflexivity | exact IH].
Qed.

(** A search finds an object at the address asked for, inside the tree
    searched. *)
Lemma find_node_Some (a : ptr) (t n : TreeNode) :
  find_node a t = Some n -> this_addr n = a /\ incl (addrs n) (addrs t).
Proof.
  revert n. induction t as [b cs d p IH] using TreeNode_ind. intros n.
  rewrite find_node_unfold, (addrs_unfold (mkTreeNode b cs d p)).
  cbn [this_addr m_childNodes].
  destruct (Z.eqb_spec b a) as [->|Hne].
  - intros [= <-]. split; [reflexivity|]. rewrite addrs_unfold.
    apply incl_refl.
  - intros H. assert (this_addr n = a /\ incl (addrs n) (flat_map addrs cs))
      as [H1 H2]; [|split; [exact H1 | now apply incl_tl]].
    induction cs as [|c r IHr]; simpl in *; [discriminate|].
    inversion IH as [|? ? Hc Hr]; subst.
    destruct (find_node a c) as [m|] eqn:E.
    + injection H as ->. destruct (Hc n eq_refl) as [Ha Hi].
      split; [exact Ha|]. now apply incl_appl.
    + destruct (IHr Hr H) as [Ha Hi]. split; [exact Ha|].
      now apply incl_appr.
Qed.

Lemma find_in_Some (a : ptr) (l : list TreeNode) (n : TreeNode) :
  find_in a l = Some n -> this_addr n = a /\ incl (addrs n) (flat_map addrs l).
Proof.
  induction l as [|c r IH]; simpl; [discriminate|].
  destruct (find_node a c) as [m|] eqn:E.
  - intros [= <-]. destruct (find_node_Some _ _ E) as [Ha Hi].
    split; [exact Ha | now apply incl_appl].
  - intros H. destruct (IH H) as [Ha Hi].
    split; [exact Ha | now apply incl_appr].
Qed.

(** A search fails exactly for the addresses that are not in the tree. *)
Lemma find_node_None (a : ptr) (t : TreeNode) :
  find_node a t = None <-> ~ In a (addrs t).
Proof.
  induction t as [b cs d p IH] using TreeNode_ind.
  rewrite find_node_unfold, addrs_unfold. cbn [this_addr m_childNodes].
  destruct (Z.eqb_spec b a) as [->|Hne].
  - split; [discriminate|]. intros H. exfalso. apply H. now left.
  - assert (Hl : find_in a cs = None <-> ~ In a (flat_map addrs cs)).
    { induction cs as [|c r IHr]; simpl; [tauto|].
      inversion IH as [|? ? Hc Hr]; subst.
      rewrite in_app_iff. destruct (find_node a c) eqn:E.
      - split; [discriminate|]. intros H. exfalso. apply H. left.
        destruct (in_dec Z.eq_dec a (addrs c)) as [Hi|Hi]; [exact Hi|].
        apply Hc in Hi. discriminate.
      - assert (~ In a (addrs c)) by (apply Hc; reflexivity).
        specialize (IHr Hr). tauto. }
    rewrite Hl. simpl. tauto.
Qed.

Lemma find_in_None (a : ptr) (l : list TreeNode) :
  find_in a l = None <-> ~ In a (flat_map addrs l).
Proof.
  induction l as [|c r IH]; simpl; [tauto|].
  rewrite in_app_iff. destruct (find_node a c) eqn:E.
  - split; [discriminate|]. intros H. exfalso. apply H. left.
    destruct (in_dec Z.eq_dec a (addrs c)) as [Hi|Hi]; [exact Hi|].
    apply find_node_None in Hi. congruence.
  - apply find_node_None in E. tauto.
Qed.

(** Writing through a pointer to an object that is not in a tree leaves
    the tree as it is. *)
Lemma replace_node_absent (a : ptr) (new t : TreeNode) :
  ~ In a (addrs t) -> replace_node a new t = t.
Proof.
  induction t as [b cs d p IH] using TreeNode_ind.
  rewrite replace_node_unfold, addrs_unfold. cbn [this_addr m_childNodes
    m_itemData m_parentNode].
  intros H. destruct (Z.eqb_spec b a) as [->|Hne].
  - exfalso. apply H. now left.
  - f_equal. assert (Hcs : ~ In a (flat_map addrs cs)) by (simpl in H; tauto).
    clear H. induction cs as [|c r IHr]; simpl; [reflexivity|].
    inversion IH as [|? ? Hc Hr]; subst. simpl in Hcs.
    rewrite in_app_iff in Hcs. rewrite Hc by tauto. rewrite IHr; tauto.
Qed.

Lemma replace_node_addr (a : ptr) (new t : TreeNode) :
  this_addr new = a -> this_addr (replace_node a new t) = this_addr t.
Proof.
  intros H. rewrite replace_node_unfold.
  destruct (Z.eqb_spec (this_addr t) a); [congruence | reflexivity].
Qed.

(** After a write, the addresses are those of the tree or of the object
    written. *)
Lemma replace_node_addrs (a x : ptr) (new t : TreeNode) :
  In x (addrs (replace_node a new t)) -> In x (addrs t) \/ In x (addrs new).
Proof.
  induction t as [b cs d p IH] using TreeNode_ind.
  rewrite replace_node_unfold. cbn [this_addr m_childNodes m_itemData
    m_parentNode].
  destruct (b =? a); [tauto|].
  rewrite (addrs_unfold (mkTreeNode b cs d p)).
  rewrite (addrs_unfold (mkTreeNode b _ d p)).
  cbn [this_addr m_childNodes].
  intros [H|H]; [left; now left|].
  apply in_flat_map in H as (c' & Hc' & Hx).
  apply in_map_iff in Hc' as (c & <- & Hc).
  rewrite Forall_forall in IH. destruct (IH c Hc Hx) as [H1|H1]; [|tauto].
  left. right. apply in_flat_map. eauto.
Qed.

(** Two writes through the same pointer: the later one stands. *)
Lemma replace_node_twice (a : ptr) (x y t : TreeNode) :
  this_addr y = a ->
  replace_node a x (replace_node a y t) = replace_node a x t.
Proof.
  intros Hy. induction t as [b cs d p IH] using TreeNode_ind.
  rewrite (replace_node_unfold a y). cbn [this_addr m_childNodes m_itemData
    m_parentNode].
  destruct (Z.eqb_spec b a) as [->|Hne].
  - rewrite (replace_node_unfold _ x y), Hy, Z.eqb_refl.
    rewrite replace_node_unfold. cbn [this_addr]. now rewrite Z.eqb_refl.
  - rewrite !(replace_node_unfold a x). cbn [this_addr m_childNodes
      m_itemData m_parentNode].
    apply Z.eqb_neq in Hne. rewrite Hne. f_equal.
    rewrite map_map. apply map_ext_in. intros c Hc.
    rewrite Forall_forall in IH. now apply IH.
Qed.

(** *** Reading after a write *)

Section ReadAfterWrite.
(** The object [pn] at address [P] is overwritten with [cur]: the same
    object with new nodes (addresses from [next0] on) added to its child
    sequence, so that what was below [pn] is still found in [cur]. *)
Variables (P next0 : ptr) (pn cur : TreeNode).
Hypothesis cur_addr : this_addr cur = P.
Hypothesis cur_keeps :
  forall b n, b <> P -> find_node b pn = Some n -> find_node b cur = Some n.
Hypothesis cur_adds_fresh :
  forall x, In x (addrs cur) -> In x (addrs pn) \/ next0 <= x.

Lemma holds_at_most_cons (c : TreeNode) (r : list TreeNode) :
  NoDup (flat_map addrs (c :: r)) ->
  find_in P (c :: r) = Some pn \/ ~ In P (flat_map addrs (c :: r)) ->
  holds_at_most P pn c /\ (find_in P r = Some pn \/ ~ In P (flat_map addrs r)).
Proof.
  simpl. intros Hnd Hp.
  apply NoDup_app_inv in Hnd as (Hndc & Hndr & Hdisj).
  unfold holds_at_most. destruct (find_node P c) as [x|] eqn:E.
  - split; [left; destruct Hp as [Hp|Hp]; [exact Hp|]|].
    + exfalso. apply Hp. apply in_or_app. left.
      destruct (in_dec Z.eq_dec P (addrs c)) as [Hi|Hi]; [exact Hi|].
      apply find_node_None in Hi. congruence.
    + right. apply Hdisj.
      destruct (in_dec Z.eq_dec P (addrs c)) as [Hi|Hi]; [exact Hi|].
      apply find_node_None in Hi. congruence.
  - apply find_node_None in E. split; [now right|].
    destruct Hp as [Hp|Hp]; [now left|].
    right. intros Hi. apply Hp. apply in_or_app. now right.
Qed.

(** Writing to [P] the object that is there changes nothing. *)
Lemma replace_node_same_list (l : list TreeNode) :
  Forall (fun t => NoDup (addrs t) -> holds_at_most P pn t ->
                   replace_node P pn t = t) l ->
  NoDup (flat_map addrs l) ->
  find_in P l = Some pn \/ ~ In P (flat_map addrs l) ->
  map (replace_node P pn) l = l.
Proof.
  induction l as [|c r IH]; intros Hall Hnd Hp; [reflexivity|].
  pose proof (Forall_inv Hall) as Hc.
  pose proof (Forall_inv_tail Hall) as Hr.
  destruct (@holds_at_most_cons c r Hnd Hp) as [Hpc Hpr].
  simpl in Hnd. apply NoDup_app_inv in Hnd as (Hndc & Hndr & _).
  simpl. rewrite Hc, IH; auto.
Qed.

Lemma replace_node_same (t : TreeNode) :
  NoDup (addrs t) -> holds_at_most P pn t -> replace_node P pn t = t.
Proof.
  induction t as [a cs d p IH] using TreeNode_ind. intros Hnd Hp.
  rewrite replace_node_unfold.
  cbn [this_addr m_childNodes m_itemData m_parentNode].
  destruct (Z.eqb_spec a P) as [->|HaP].
  - destruct Hp as [Hp|Hp].
    + rewrite find_node_unfold in Hp. cbn [this_addr] in Hp.
      rewrite Z.eqb_refl in Hp. congruence.
    + exfalso. apply Hp. rewrite addrs_unfold. now left.
  - f_equal. rewrite addrs_unfold in Hnd. cbn [this_addr m_childNodes] in Hnd.
    apply NoDup_cons_iff in Hnd as [_ Hnd]. apply replace_node_same_list; auto.
    destruct Hp as [Hp|Hp].
    + left. rewrite find_node_unfold in Hp. cbn [this_addr m_childNodes] in Hp.
      apply Z.eqb_neq in HaP. now rewrite HaP in Hp.
    + right. intros Hi. apply Hp. rewrite addrs_unfold. now right.
Qed.

Lemma store_write_same (st : Store) :
  NoDup (store_addrs st) -> deref st P = Some pn ->
  map (replace_node P pn) st = st.
Proof.
  intros Hnd HP. rewrite deref_find_in in HP.
  apply replace_node_same_list; auto.
  apply Forall_forall. intros t _. apply replace_node_same.
Qed.

Lemma reads_follow_list (l : list TreeNode) :
  Forall (reads_follow P next0 pn cur) l ->
  NoDup (flat_map addrs l) ->
  Forall (fun a => a < next0) (flat_map addrs l) ->
  find_in P l = Some pn \/ ~ In P (flat_map addrs l) ->
  forall b orig,
    find_in b l = Some orig ->
    find_in b (map (replace_node P cur) l) = Some (replace_node P cur orig).
Proof.
  induction l as [|c r IH]; intros Hall Hnd Hlt Hp b orig Hb;
    [discriminate|].
  pose proof (Forall_inv Hall) as Hc.
  pose proof (Forall_inv_tail Hall) as Hr. simpl in *.
  apply NoDup_app_inv in Hnd as (Hndc & Hndr & Hdisj).
  apply Forall_app in Hlt as [Hltc Hltr].
  assert (Hpc : holds_at_most P pn c /\
                (find_in P r = Some pn \/ ~ In P (flat_map addrs r))).
  { unfold holds_at_most. destruct (find_node P c) as [x|] eqn:E.
    - split; [left; destruct Hp as [Hp|Hp]; [exact Hp|]|].
      + exfalso. apply Hp. apply in_or_app. left.
        destruct (in_dec Z.eq_dec P (addrs c)) as [Hi|Hi]; [exact Hi|].
        apply find_node_None in Hi. congruence.
      + right. apply Hdisj.
        destruct (in_dec Z.eq_dec P (addrs c)) as [Hi|Hi]; [exact Hi|].
        apply find_node_None in Hi. congruence.
    - apply find_node_None in E. split; [now right|].
      destruct Hp as [Hp|Hp]; [now left|].
      right. intros Hi. apply Hp. apply in_or_app. now right. }
  destruct Hpc as [Hpc Hpr].
  destruct (find_node b c) as [x|] eqn:Eb.
  - injection Hb as ->. rewrite (Hc Hndc Hltc Hpc b orig Eb). reflexivity.
  - assert (Hnone : find_node b (replace_node P cur c) = None).
    { apply find_node_None. intros Hi.
      apply find_node_None in Eb.
      destruct (in_dec Z.eq_dec P (addrs c)) as [HP|HP].
      - apply replace_node_addrs in Hi as [Hi|Hi]; [contradiction|].
        destruct Hpc as [Hpc|Hpc]; [|contradiction].
        apply find_node_Some in Hpc as [_ Hincl].
        destruct (cur_adds_fresh _ Hi) as [Hold|Hnew].
        + apply Eb. now apply Hincl.
        + apply find_in_Some in Hb as [Ha Hincl'].
          assert (In b (flat_map addrs r)).
          { apply Hincl'. rewrite addrs_unfold, Ha. now left. }
          rewrite Forall_forall in Hltr. specialize (Hltr b H). lia.
      - rewrite replace_node_absent in Hi by exact HP. contradiction. }
    rewrite Hnone. apply IH; assumption.
Qed.

Lemma reads_follow_tree (t : TreeNode) : reads_follow P next0 pn cur t.
Proof.
  induction t as [a cs d p IH] using TreeNode_ind.
  intros Hnd Hlt Hp b orig Hb.
  rewrite addrs_unfold in Hnd, Hlt. cbn [this_addr m_childNodes] in Hnd, Hlt.
  rewrite find_node_unfold in Hb. cbn [this_addr m_childNodes] in Hb.
  rewrite replace_node_unfold.
  cbn [this_addr m_childNodes m_itemData m_parentNode].
  apply NoDup_cons_iff in Hnd as [Hnotin Hndcs].
  pose proof (Forall_inv_tail Hlt) as Hltcs.
  destruct (Z.eqb_spec a P) as [->|HaP].
  - assert (pn = mkTreeNode P cs d p) as Hpn.
    { destruct Hp as [Hp|Hp].
      - rewrite find_node_unfold in Hp. cbn [this_addr] in Hp.
        rewrite Z.eqb_refl in Hp. congruence.
      - exfalso. apply Hp. rewrite addrs_unfold. now left. }
    destruct (Z.eqb_spec P b) as [<-|HPb].
    + injection Hb as <-. rewrite replace_node_unfold. cbn [this_addr].
      rewrite Z.eqb_refl, find_node_unfold, cur_addr, Z.eqb_refl.
      reflexivity.
    + rewrite (cur_keeps (b := b) (n := orig)).
      * f_equal. symmetry. apply replace_node_absent.
        apply find_in_Some in Hb as [_ Hincl]. intros Hi.
        apply Hnotin. now apply Hincl.
      * congruence.
      * rewrite Hpn, find_node_unfold. cbn [this_addr m_childNodes].
        apply Z.eqb_neq in HPb. rewrite HPb. exact Hb.
  - rewrite find_node_unfold. cbn [this_addr m_childNodes].
    destruct (Z.eqb_spec a b) as [<-|Hab].
    + injection Hb as <-. rewrite replace_node_unfold.
      cbn [this_addr m_childNodes m_itemData m_parentNode].
      apply Z.eqb_neq in HaP. rewrite HaP. reflexivity.
    + apply reads_follow_list; try assumption.
      destruct Hp as [Hp|Hp].
      * left. rewrite find_node_unfold in Hp. cbn [this_addr m_childNodes] in Hp.
        apply Z.eqb_neq in HaP. now rewrite HaP in Hp.
      * right. intros Hi. apply Hp. rewrite addrs_unfold. now right.
Qed.

(** Reading any object of the store after the write gives the object
    with the write applied inside it. *)
Lemma deref_after_write (st : Store) (b : ptr) (orig : TreeNode) :
  NoDup (store_addrs st) ->
  Forall (fun a => a < next0) (store_addrs st) ->
  deref st P = Some pn ->
  deref st b = Some orig ->
  deref (map (replace_node P cur) st) b = Some (replace_node P cur orig).
Proof.
  intros Hnd Hlt HP Hb. rewrite deref_find_in in *.
  apply reads_follow_list; auto.
  apply Forall_forall. intros t _. apply reads_follow_tree.
Qed.

End ReadAfterWrite.

(** *** Cloning *)

Lemma clone_node_unfold (n : TreeNode) (parent : option ptr) (next : ptr) :
  clone_node n parent next =
  (mkTreeNode next (fst (clone_children next (m_childNodes n) (next + 1)))
     (m_itemData n) parent,
   snd (clone_children next (m_childNodes n) (next + 1))).
Proof.
  destruct n as [a cs d p]. cbn [clone_node m_childNodes m_itemData].
  set (nx := next + 1). generalize nx. clear nx.
  assert (H : forall nx,
             (fix clone_children (l : list TreeNode) (nx : ptr)
                : list TreeNode * ptr :=
                match l with
                | [] => ([], nx)
                | c :: r =>
                    let (c', nx1) := clone_node c (Some next) nx in
                    let (r', nx2) := clone_children r nx1 in
                    (c' :: r', nx2)
                end) cs nx = clone_children next cs nx).
  { induction cs as [|c r IH]; intros nx; simpl; [reflexivity|].
    destruct (clone_node c (Some next) nx) as [c' nx1]. now rewrite IH. }
  intros nx. now rewrite H.
Qed.

Lemma clone_children_ok (parent : ptr) (l : list TreeNode) :
  Forall clone_ok l ->
  forall nx,
    let cs := fst (clone_children parent l nx) in
    let nx' := snd (clone_children parent l nx) in
    map content cs = map content l /\ nx <= nx' /\
    Forall (fun a => nx <= a < nx') (flat_map addrs cs).
Proof.
  induction l as [|c r IH]; intros Hall nx; simpl.
  - repeat split; [lia | constructor].
  - inversion Hall as [|? ? Hc Hr]; subst.
    specialize (Hc (Some parent) nx). cbv zeta in Hc.
    destruct (clone_node c (Some parent) nx) as [c' nx1]. simpl in Hc.
    destruct Hc as (_ & _ & Hcont & Hlt & Hfr).
    specialize (IH Hr nx1). cbv zeta in IH.
    destruct (clone_children parent r nx1) as [r' nx2]. simpl in *.
    destruct IH as (Hmap & Hle & Hfr').
    repeat split; [congruence | lia |].
    apply Forall_app. split.
    + eapply Forall_impl; [|exact Hfr]. simpl. intros; lia.
    + eapply Forall_impl; [|exact Hfr']. simpl. intros; lia.
Qed.

Lemma clone_node_ok (n : TreeNode) : clone_ok n.
Proof.
  induction n as [a cs d p IH] using TreeNode_ind.
  intros parent next. cbv zeta. rewrite clone_node_unfold.
  cbn [fst snd this_addr m_parentNode m_childNodes m_itemData].
  pose proof (clone_children_ok next IH (next + 1)) as H. cbv zeta in H.
  destruct (clone_children next cs (next + 1)) as [cs' nx']. simpl in *.
  destruct H as (Hmap & Hle & Hfr).
  repeat split; [congruence | lia |].
  constructor; [lia|].
  eapply Forall_impl; [|exact Hfr]. simpl. intros; lia.
Qed.

Lemma firstn_skipn_exact {A} (l1 l2 : list A) (n : nat) :
  n = length l1 -> firstn n (l1 ++ l2) = l1 /\ skipn n (l1 ++ l2) = l2.
Proof.
  intros ->. induction l1 as [|x r [IH1 IH2]]; simpl; [tauto|].
  split; [now rewrite IH1 | exact IH2].
Qed.

End StoreFacts.

(* ===================================================================== *)
(** ** Dropping on the tree model *)

Module DropFacts.
Import TreeNodes Mime TreeModels StoreFacts.

(** One turn of the loop of [dropMimeData]. *)
Lemma drop_loop_turn (n : nat) (stream : QByteArray) (p : Z)
  (rest : QByteArray) (P : ptr) (parent : QModelIndex) (r : Z) (w : World) :
  read_i64 stream = Some (p, rest) ->
  drop_loop (S n) stream P parent r w =
  match deref (heap w) p with
  | None => None
  | Some src =>
      match deref (heap w) P with
      | None => None
      | Some this =>
          match insertChild this r
                  (fst (clone_node src None (next_addr w))) with
          | None => None
          | Some this' =>
              drop_loop n rest P parent (r + 1)
                (mkWorld (map (replace_node P this') (heap w))
                   (snd (clone_node src None (next_addr w)))
                   (applicationPid w)
                   (log w ++ [BeginInsertRows (siblingAtColumn parent 0) r r;
                              ChildInserted P r; EndInsertRows]))
          end
      end
  end.
Proof.
  intros Hread. cbn [drop_loop]. unfold bind at 1. rewrite Hread.
  cbn [lift]. unfold bind at 1. cbn [emit]. unfold bind at 1.
  unfold call_clone at 1. cbn [heap next_addr applicationPid log].
  destruct (deref (heap w) p) as [src|]; [|reflexivity].
  destruct (clone_node src None (next_addr w)) as [c nx] eqn:Ec.
  cbn [fst snd]. unfold bind at 1. unfold call_insertChild at 1.
  cbn [heap next_addr applicationPid log].
  destruct (deref (heap w) P) as [this|]; [|reflexivity].
  destruct (insertChild this r c) as [this'|]; [|reflexivity].
  unfold bind at 1. cbn [emit heap next_addr applicationPid log].
  rewrite <- !app_assoc. reflexivity.
Qed.

Lemma drop_loop_unread (n : nat) (stream : QByteArray) (P : ptr)
  (parent : QModelIndex) (r : Z) (w : World) :
  read_i64 stream = None -> drop_loop (S n) stream P parent r w = None.
Proof.
  intros Hread. cbn [drop_loop]. unfold bind at 1. now rewrite Hread.
Qed.

(** The notifications of the loop. *)
Lemma drop_loop_log (n : nat) :
  forall stream P parent r w w',
    drop_loop n stream P parent r w = Some (tt, w') ->
    log w' = log w ++ insert_events parent P r n.
Proof.
  induction n as [|n IH]; intros stream P parent r w w' H.
  - injection H as <-. cbn [insert_events]. now rewrite app_nil_r.
  - destruct (read_i64 stream) as [[p rest]|] eqn:Hread;
      [|rewrite drop_loop_unread in H by exact Hread; discriminate].
    rewrite (@drop_loop_turn n stream p rest P parent r w Hread) in H.
    destruct (deref (heap w) p); [|discriminate].
    destruct (deref (heap w) P); [|discriminate].
    destruct (insertChild _ r _); [|discriminate].
    apply IH in H. cbn [log] in H. rewrite H, <- app_assoc. reflexivity.
Qed.

Section DropLoop.
(** A drop under the node [pn] at [P], starting before position [k], in
    the process [w0]. *)
Variables (w0 : World) (P : ptr) (pn : TreeNode) (k : nat).
Hypothesis w0_wf : wf_world w0.
Hypothesis P_pn : deref (heap w0) P = Some pn.
Hypothesis k_le : (k <= length (m_childNodes pn))%nat.

Lemma pn_addr : this_addr pn = P.
Proof.
  rewrite deref_find_in in P_pn. now apply find_in_Some in P_pn.
Qed.

Lemma pn_old (x : ptr) : In x (addrs pn) -> x < next_addr w0.
Proof.
  intros Hx. rewrite deref_find_in in P_pn.
  apply find_in_Some in P_pn as [_ Hincl].
  destruct w0_wf as (_ & Hlt & _). rewrite Forall_forall in Hlt.
  apply Hlt. now apply Hincl.
Qed.

Lemma with_inserted_addr (acc : list TreeNode) :
  this_addr (with_inserted pn k acc) = P.
Proof. unfold with_inserted. simpl. apply pn_addr. Qed.

Lemma with_inserted_keeps (acc : list TreeNode) :
  fresh_nodes w0 acc ->
  forall b n, b <> P -> find_node b pn = Some n ->
              find_node b (with_inserted pn k acc) = Some n.
Proof.
  intros Hfr b n Hb Hn.
  assert (Hold : b < next_addr w0).
  { apply pn_old. apply find_node_Some in Hn as [Ha Hincl].
    apply Hincl. rewrite addrs_unfold, Ha. now left. }
  rewrite find_node_unfold in *. unfold with_inserted.
  cbn [this_addr m_childNodes set_children]. rewrite pn_addr in *.
  destruct (Z.eqb_spec P b); [congruence|].
  rewrite <- (firstn_skipn k (m_childNodes pn)) in Hn.
  rewrite find_in_app in Hn. rewrite !find_in_app.
  destruct (find_in b (firstn k (m_childNodes pn))); [exact Hn|].
  replace (find_in b acc) with (@None TreeNode); [exact Hn|].
  symmetry. apply find_in_None. intros Hi.
  unfold fresh_nodes in Hfr. rewrite Forall_forall in Hfr.
  specialize (Hfr b Hi). lia.
Qed.

Lemma with_inserted_fresh (acc : list TreeNode) :
  fresh_nodes w0 acc ->
  forall x, In x (addrs (with_inserted pn k acc)) ->
            In x (addrs pn) \/ next_addr w0 <= x.
Proof.
  intros Hfr x. unfold with_inserted. rewrite !addrs_unfold.
  cbn [this_addr m_childNodes set_children].
  intros [Hx|Hx]; [left; now left|].
  rewrite !flat_map_app, !in_app_iff in Hx.
  rewrite <- (firstn_skipn k (m_childNodes pn)) at 1.
  rewrite flat_map_app. simpl. rewrite in_app_iff.
  destruct Hx as [Hx|[Hx|Hx]]; [tauto| |tauto].
  right. unfold fresh_nodes in Hfr. rewrite Forall_forall in Hfr. auto.
Qed.

(** Reading an object after the nodes [acc] have been inserted. *)
Lemma deref_inserted (acc : list TreeNode) (b : ptr) (orig : TreeNode) :
  fresh_nodes w0 acc ->
  deref (heap w0) b = Some orig ->
  deref (map (replace_node P (with_inserted pn k acc)) (heap w0)) b
  = Some (replace_node P (with_inserted pn k acc) orig).
Proof.
  intros Hfr Hb. destruct w0_wf as (Hnd & Hlt & _).
  apply deref_after_write with (next0 := next_addr w0) (pn := pn); auto.
  - apply with_inserted_addr.
  - now apply with_inserted_keeps.
  - now apply with_inserted_fresh.
Qed.

Lemma deref_inserted_parent (acc : list TreeNode) :
  fresh_nodes w0 acc ->
  deref (map (replace_node P (with_inserted pn k acc)) (heap w0)) P
  = Some (with_inserted pn k acc).
Proof.
  intros Hfr. erewrite deref_inserted; [|exact Hfr|exact P_pn].
  rewrite replace_node_unfold, pn_addr, Z.eqb_refl. reflexivity.
Qed.

Lemma insertChild_with_inserted (acc : list TreeNode) (c : TreeNode) :
  insertChild (with_inserted pn k acc) (Z.of_nat (k + length acc)) c
  = Some (with_inserted pn k (acc ++ [set_parent c (Some P)])).
Proof.
  unfold insertChild, with_inserted.
  cbn [m_childNodes set_children this_addr m_itemData m_parentNode].
  rewrite !length_app, length_firstn, length_skipn, Nat2Z.id.
  match goal with
  | |- (if ?b then _ else _) = _ =>
      replace b with true
        by (symmetry; apply andb_true_intro; split;
            [apply Z.leb_le | apply Z.leb_le]; lia)
  end.
  rewrite (app_assoc (firstn k (m_childNodes pn)) acc).
  destruct (@firstn_skipn_exact _
              (firstn k (m_childNodes pn) ++ acc)
              (skipn k (m_childNodes pn)) (k + length acc)) as [H1 H2].
  { rewrite length_app, length_firstn. lia. }
  rewrite H1, H2, pn_addr. unfold set_children. cbn. f_equal. f_equal.
  rewrite <- !app_assoc. reflexivity.
Qed.

Lemma content_set_parent (c : TreeNode) (p : option ptr) :
  content (set_parent c p) = content c.
Proof. destruct c; reflexivity. Qed.

Lemma addrs_set_parent (c : TreeNode) (p : option ptr) :
  addrs (set_parent c p) = addrs c.
Proof. destruct c; reflexivity. Qed.

(** The loop of [dropMimeData] with [acc] already inserted: it runs to
    its end, and inserts after [acc] one new node per address read. *)
Lemma drop_loop_inserts (parent : QModelIndex) (extra : QByteArray)
  (ptrs : list Z) :
  (forall p, In p ptrs -> deref (heap w0) p <> None) ->
  forall (acc : list TreeNode) (w : World),
    heap w = map (replace_node P (with_inserted pn k acc)) (heap w0) ->
    next_addr w0 <= next_addr w ->
    Forall (fun a => next_addr w0 <= a < next_addr w) (flat_map addrs acc) ->
    exists news w',
      drop_loop (length ptrs) (map I64 ptrs ++ extra) P parent
        (Z.of_nat (k + length acc)) w = Some (tt, w') /\
      heap w' = map (replace_node P (with_inserted pn k (acc ++ news)))
                  (heap w0) /\
      length news = length ptrs /\
      next_addr w <= next_addr w' /\
      applicationPid w' = applicationPid w /\
      Forall (fun a => next_addr w <= a < next_addr w') (flat_map addrs news) /\
      (forall i p c orig,
          nth_error ptrs i = Some p ->
          nth_error news i = Some c ->
          deref (heap w0) p = Some orig ->
          m_parentNode c = Some P /\
          content c =
          content (replace_node P (with_inserted pn k (acc ++ firstn i news))
                     orig)).
Proof.
  induction ptrs as [|p ps IH]; intros Hlive acc w Hheap Hnext Hacc.
  - exists [], w. cbn [length map app drop_loop ret]. rewrite app_nil_r.
    split; [reflexivity|]. split; [exact Hheap|]. split; [reflexivity|].
    split; [lia|]. split; [reflexivity|]. split; [constructor|].
    intros [|i] ? ? ? Hnth; discriminate Hnth.
  - assert (Hfr : fresh_nodes w0 acc).
    { unfold fresh_nodes. eapply Forall_impl; [|exact Hacc].
      simpl. intros; lia. }
    destruct (deref (heap w0) p) as [orig|] eqn:Horig;
      [|exfalso; apply (Hlive p); [now left | exact Horig]].
    cbn [length map app].
    rewrite (@drop_loop_turn (length ps) (I64 p :: map I64 ps ++ extra) p
               (map I64 ps ++ extra) P parent _ w eq_refl), Hheap.
    rewrite (@deref_inserted acc p orig Hfr Horig).
    rewrite (@deref_inserted_parent acc Hfr).
    set (src := replace_node P (with_inserted pn k acc) orig).
    pose proof (clone_node_ok src None (next_addr w)) as Hclone.
    cbv zeta in Hclone.
    destruct (clone_node src None (next_addr w)) as [c nx] eqn:Ec.
    cbn [fst snd] in *.
    destruct Hclone as (Hca & Hcp & Hcc & Hlt & Hcfr).
    rewrite insertChild_with_inserted.
    set (c' := set_parent c (Some P)).
    set (w1 := mkWorld _ nx (applicationPid w) _).
    destruct (IH (fun q Hq => Hlive q (or_intror Hq)) (acc ++ [c']) w1)
      as (news & w' & Hrun & Hheap' & Hlen & Hnx & Hpid & Hnews & Hith).
    + unfold w1. cbn [heap]. rewrite map_map. apply map_ext. intros t.
      apply replace_node_twice. apply with_inserted_addr.
    + unfold w1. cbn [next_addr]. lia.
    + unfold w1. cbn [next_addr]. rewrite flat_map_app. apply Forall_app.
      split.
      * eapply Forall_impl; [|exact Hacc]. simpl. intros; lia.
      * cbn [flat_map]. rewrite app_nil_r. unfold c'.
        rewrite addrs_set_parent.
        eapply Forall_impl; [|exact Hcfr]. simpl. intros; lia.
    + exists (c' :: news), w'.
      rewrite length_app in Hrun. cbn [length] in Hrun.
      replace (Z.of_nat (k + length acc) + 1)
        with (Z.of_nat (k + (length acc + 1))) by lia.
      rewrite <- app_assoc in Hheap'. cbn [app] in Hheap'.
      unfold w1 in Hnx, Hpid, Hnews. cbn [next_addr applicationPid] in *.
      split; [exact Hrun|]. split; [exact Hheap'|].
      split; [cbn [length]; lia|]. split; [lia|]. split; [exact Hpid|].
      split.
      * cbn [flat_map]. apply Forall_app. split.
        -- unfold c'. rewrite addrs_set_parent.
           eapply Forall_impl; [|exact Hcfr]. simpl. intros; lia.
        -- eapply Forall_impl; [|exact Hnews]. simpl. intros; lia.
      * intros [|i] q c0 orig0 Hq Hc0 Horig0; cbn [nth_error firstn] in *.
        -- injection Hq as <-. injection Hc0 as <-.
           rewrite app_nil_r. unfold c'.
           rewrite content_set_parent. split; [reflexivity|].
           rewrite Hcc. unfold src. congruence.
        -- destruct (Hith i q c0 orig0 Hq Hc0 Horig0) as [H1 H2].
           split; [exact H1|]. rewrite H2, <- app_assoc. reflexivity.
Qed.

End DropLoop.

Lemma with_inserted_nothing (pn : TreeNode) (k : nat) :
  with_inserted pn k [] = pn.
Proof.
  unfold with_inserted. cbn [app]. rewrite firstn_skipn. now destruct pn.
Qed.

Lemma deref_in_store (st : Store) (a : ptr) (n : TreeNode) :
  deref st a = Some n -> In a (store_addrs st) /\ this_addr n = a.
Proof.
  rewrite deref_find_in. intros H. apply find_in_Some in H as [Ha Hincl].
  split; [|exact Ha]. apply Hincl. rewrite addrs_unfold, Ha. now left.
Qed.

(** The row at which [dropMimeData] starts inserting. *)
Lemma drop_start_row (m : nat) (w : World) (parent : QModelIndex) (r : Z)
  (P : ptr) (pn : TreeNode) :
  nodeForIndex m parent w = Some (P, w) ->
  deref (heap w) P = Some pn ->
  Z.of_nat (length (m_childNodes pn)) <= INT_MAX ->
  r = -1 \/ 0 <= r ->
  (if r =? -1
   then (if isValid parent then ret 0 else rowCount m InvalidIndex)
   else ret r) w
  = Some (Z.of_nat (insertion_point parent pn r), w).
Proof.
  intros HP Hpn Hfit Hr. unfold insertion_point.
  destruct (Z.eqb_spec r (-1)) as [->|Hne].
  - destruct parent as [|pr pc pp]; cbn [isValid]; [|reflexivity].
    unfold rowCount. cbn [index_column]. cbn [Z.gtb Z.compare].
    unfold bind. unfold nodeForIndex in *. cbn [isValid] in *.
    rewrite HP. unfold load, lift. rewrite Hpn. unfold ret.
    now rewrite TreeNodeFacts.childCount_small.
  - unfold ret. rewrite Z2Nat.id by lia. reflexivity.
Qed.

(** What an accepted drop does to the memory of the process. *)
Lemma drop_effect (m : nat) (w : World) (mimeData : QMimeData)
  (action : DropAction) (r column : Z) (parent : QModelIndex)
  (P : ptr) (pn : TreeNode) (ptrs : list Z) :
  wf_world w ->
  hasFormat mimeData s_mimeType = true ->
  mime_data mimeData s_mimeType
  = I64 (applicationPid w) :: I64 (Z.of_nat (length ptrs)) :: map I64 ptrs ->
  nodeForIndex m parent w = Some (P, w) ->
  deref (heap w) P = Some pn ->
  (forall p, In p ptrs -> deref (heap w) p <> None) ->
  Z.of_nat (length (m_childNodes pn)) <= INT_MAX ->
  r = -1 \/ 0 <= r <= Z.of_nat (length (m_childNodes pn)) ->
  exists news w',
    dropMimeData m mimeData action r column parent w = Some (true, w') /\
    heap w' = map (replace_node P
                     (with_inserted pn (insertion_point parent pn r) news))
                (heap w) /\
    length news = length ptrs /\
    next_addr w <= next_addr w' /\
    applicationPid w' = applicationPid w /\
    Forall (fun a => next_addr w <= a < next_addr w') (flat_map addrs news) /\
    (forall i p c orig,
        nth_error ptrs i = Some p ->
        nth_error news i = Some c ->
        deref (heap w) p = Some orig ->
        m_parentNode c = Some P /\
        content c =
        content (replace_node P
                   (with_inserted pn (insertion_point parent pn r)
                      (firstn i news)) orig)) /\
    log w' = log w ++ insert_events parent P
                        (Z.of_nat (insertion_point parent pn r))
                        (length ptrs).
Proof.
  intros Hwf Hfmt Hdata HP Hpn Hlive Hfit Hr.
  set (k := insertion_point parent pn r).
  assert (Hk : (k <= length (m_childNodes pn))%nat).
  { unfold k, insertion_point. destruct (r =? -1) eqn:E.
    - destruct (isValid parent); lia.
    - apply Z.eqb_neq in E. lia. }
  destruct (@drop_loop_inserts w P pn k Hwf Hpn Hk parent [] ptrs Hlive [] w)
    as (news & w' & Hrun & Hheap & Hlen & Hnx & Hpid & Hnews & Hith).
  { rewrite with_inserted_nothing. symmetry.
    apply store_write_same; [apply Hwf | exact Hpn]. }
  { lia. }
  { constructor. }
  exists news, w'. cbn [app] in Hheap, Hith.
  rewrite app_nil_r, Nat.add_0_r in Hrun. cbn [length] in Hrun.
  split; [|repeat split; auto].
  4: { now apply drop_loop_log in Hrun. }
  - unfold dropMimeData. rewrite Hfmt. cbn [negb]. rewrite Hdata.
    unfold bind at 1. cbn [lift read_i64]. unfold bind at 1.
    unfold getpid at 1. rewrite Z.eqb_refl. cbn [negb].
    unfold bind at 1. rewrite HP.
    assert (HP0 : (P =? 0) = false).
    { apply Z.eqb_neq. intros ->. destruct Hwf as (_ & _ & Hnull).
      apply Hnull. now apply deref_in_store in Hpn. }
    rewrite HP0. cbn [negb Q_ASSERT]. unfold bind at 1. cbn [ret].
    unfold bind at 1. cbn [lift read_i64]. unfold bind at 1.
    rewrite (@drop_start_row m w parent r P pn HP Hpn Hfit) by lia.
    fold k. rewrite Nat2Z.id. unfold bind at 1.
    rewrite Hrun. reflexivity.
  - apply (Hith i p c orig); assumption.
  - apply (Hith i p c orig); assumption.
Qed.

Lemma with_inserted_children_length (pn : TreeNode) (k : nat)
  (news : list TreeNode) :
  length (m_childNodes (with_inserted pn k news))
  = (length (m_childNodes pn) + length news)%nat.
Proof.
  unfold with_inserted. cbn [m_childNodes set_children].
  rewrite <- (firstn_skipn k (m_childNodes pn)) at 3.
  rewrite !length_app. lia.
Qed.

(** C2.  A drop with the receiver's process id, [k] addresses of live
    nodes and an insertion row the view may pass (-1, or a position in
    the target parent's child sequence) is accepted: dropMimeData
    returns true, and afterwards the target parent has, at consecutive
    positions from the insertion point on, one new node per address in
    payload order, each naming the target parent as its parent and
    holding what the node at that address holds when its turn comes (the
    original content whenever the target parent is not inside the
    dragged node); the children it had stay in order around them, and
    its child count has grown by [k]. *)
Theorem drop_inserts_clones (m : nat) (w : World) (mimeData : QMimeData)
  (action : DropAction) (r column : Z) (parent : QModelIndex)
  (P : ptr) (pn : TreeNode) (ptrs : list Z) :
  wf_world w ->
  hasFormat mimeData s_mimeType = true ->
  mime_data mimeData s_mimeType
  = I64 (applicationPid w) :: I64 (Z.of_nat (length ptrs)) :: map I64 ptrs ->
  nodeForIndex m parent w = Some (P, w) ->
  deref (heap w) P = Some pn ->
  (forall p, In p ptrs -> deref (heap w) p <> None) ->
  Z.of_nat (length (m_childNodes pn) + length ptrs) <= INT_MAX ->
  r = -1 \/ 0 <= r <= Z.of_nat (length (m_childNodes pn)) ->
  let k := insertion_point parent pn r in
  exists news w' pn',
    dropMimeData m mimeData action r column parent w = Some (true, w') /\
    deref (heap w') P = Some pn' /\
    m_childNodes pn' =
      firstn k (m_childNodes pn) ++ news ++ skipn k (m_childNodes pn) /\
    length news = length ptrs /\
    childCount pn' = childCount pn + Z.of_nat (length ptrs) /\
    (forall i p c orig,
        nth_error ptrs i = Some p ->
        nth_error news i = Some c ->
        deref (heap w) p = Some orig ->
        child pn' (Z.of_nat (k + i)) = Some c /\
        m_parentNode c = Some P /\
        content c =
          content (replace_node P (with_inserted pn k (firstn i news)) orig) /\
        (~ In P (addrs orig) -> content c = content orig)).
Proof.
  intros Hwf Hfmt Hdata HP Hpn Hlive Hfit Hr k.
  destruct (@drop_effect m w mimeData action r column parent P pn ptrs)
    as (news & w' & Hrun & Hheap & Hlen & Hnx & Hpid & Hnews & Hith & _);
    auto; try lia.
  fold k in Hheap, Hith.
  assert (Hk : (k <= length (m_childNodes pn))%nat).
  { unfold k, insertion_point. destruct (r =? -1) eqn:E.
    - destruct (isValid parent); lia.
    - apply Z.eqb_neq in E. lia. }
  assert (Hfr : fresh_nodes w news).
  { unfold fresh_nodes. eapply Forall_impl; [|exact Hnews].
    simpl. intros; lia. }
  exists news, w', (with_inserted pn k news).
  split; [exact Hrun|]. split.
  { rewrite Hheap. now apply deref_inserted_parent. }
  split; [reflexivity|]. split; [exact Hlen|]. split.
  { rewrite !TreeNodeFacts.childCount_small.
    - rewrite with_inserted_children_length. lia.
    - lia.
    - rewrite with_inserted_children_length. lia. }
  intros i p c orig Hp Hc Horig.
  destruct (Hith i p c orig Hp Hc Horig) as [H1 H2].
  split; [|split; [exact H1|split; [exact H2|]]].
  - rewrite TreeNodeFacts.child_in_range.
    + unfold with_inserted. cbn [m_childNodes set_children].
      rewrite nth_error_app2 by (rewrite length_firstn; lia).
      rewrite length_firstn, Nat.min_l by exact Hk.
      replace (k + i - k)%nat with i by lia.
      rewrite nth_error_app1; [exact Hc|].
      apply nth_error_Some. congruence.
    + rewrite with_inserted_children_length. lia.
    + rewrite with_inserted_children_length.
      assert (i < length news)%nat by (apply nth_error_Some; congruence).
      lia.
  - intros Hnot. rewrite H2. now rewrite replace_node_absent.
Qed.

Lemma sample_world_wf : wf_world sample_world.
Proof.
  unfold wf_world. cbn. split; [|split].
  - repeat constructor; cbn; intuition discriminate.
  - repeat constructor.
  - intuition discriminate.
Qed.

Lemma drop_inserts_clones_witness :
  exists w' pn',
    dropMimeData 1 (sample_payload [2; 3]) MoveAction (-1) (-1) InvalidIndex
      sample_world = Some (true, w') /\
    deref (heap w') 10 = Some pn' /\
    map content (m_childNodes pn') =
      [ContentNode [QVString "A"] [ContentNode [QVString "A1"] []];
       ContentNode [QVString "B"] []] /\
    childCount pn' = 2.
Proof.
  destruct (@drop_inserts_clones 1 sample_world (sample_payload [2; 3])
              MoveAction (-1) (-1) InvalidIndex 10
              (TreeNode_new 10 [QVString "Title"; QVString "Summary"] None)
              [2; 3])
    as (news & w' & pn' & Hrun & Hpn' & Hcs & Hlen & Hcount & Hith).
  - exact sample_world_wf.
  - reflexivity.
  - reflexivity.
  - reflexivity.
  - reflexivity.
  - intros p [<-|[<-|[]]]; discriminate.
  - cbn. unfold INT_MAX. lia.
  - left. reflexivity.
  - exists w', pn'. split; [exact Hrun|]. split; [exact Hpn'|].
    split; [|exact Hcount].
    rewrite Hcs. cbn [TreeNode_new m_childNodes insertion_point isValid
      Z.eqb Pos.eqb firstn skipn length app] in *.
    rewrite app_nil_r.
    destruct news as [|c0 [|c1 [|c2 rest]]]; try discriminate Hlen.
    destruct (Hith 0%nat 2 c0 (appendChild (TreeNode_new 2 [QVString "A"] (Some 1))
                                 (TreeNode_new 4 [QVString "A1"] (Some 2)))
                eq_refl eq_refl eq_refl) as (_ & _ & _ & H0).
    destruct (Hith 1%nat 3 c1 (TreeNode_new 3 [QVString "B"] (Some 1))
                eq_refl eq_refl eq_refl) as (_ & _ & _ & H1).
    cbn [map]. rewrite H0, H1.
    + reflexivity.
    + cbn. intuition discriminate.
    + cbn. intuition discriminate.
Defined.

(** C2, as stated, fails on stale data: an address in a payload with the
    receiver's process id is dereferenced as it is.  Where no node lives
    at it, the drop is not declined (the result is not false with the
    state kept), and no clone is inserted either: the behaviour is
    undefined. *)
Lemma drop_of_stale_address_not_declined :
  deref (heap sample_world) 999 = None /\
  dropMimeData 1 (sample_payload [999]) MoveAction (-1) (-1) InvalidIndex
    sample_world <> Some (false, sample_world) /\
  dropMimeData 1 (sample_payload [999]) MoveAction (-1) (-1) InvalidIndex
    sample_world = None.
Proof.
  split; [reflexivity|]. split; [|reflexivity].
  vm_compute. discriminate.
Qed.

Lemma insert_events_no_removal (parent : QModelIndex) (P : ptr) (n : nat) :
  forall r, existsb is_removal (insert_events parent P r n) = false.
Proof. induction n as [|n IH]; intros r; cbn; auto. Qed.

Lemma node_view_after_write (P : ptr) (cur orig : TreeNode) :
  this_addr cur = P -> this_addr orig <> P ->
  node_view (replace_node P cur orig) = node_view orig.
Proof.
  intros Hcur Hne. rewrite replace_node_unfold.
  apply Z.eqb_neq in Hne. rewrite Hne. unfold node_view.
  cbn [this_addr m_itemData m_parentNode m_childNodes].
  f_equal. rewrite map_map. apply map_ext. intros c.
  now apply replace_node_addr.
Qed.

(** C7, as the code has it.  An accepted drop removes and detaches
    nothing.  Every node that existed is still found at its address,
    with its column values and parent back-reference; except for the
    target parent it has the same child sequence, and it is unchanged
    with its entire subtree when the target parent is not inside it, as
    for every dragged node that the drop does not land in.  The target
    parent only gains the inserted nodes, which are new objects.  The
    drop announces and performs insertions only: no removal is part of
    it. *)
Theorem drop_keeps_existing_nodes (m : nat) (w : World) (mimeData : QMimeData)
  (action : DropAction) (r column : Z) (parent : QModelIndex)
  (P : ptr) (pn : TreeNode) (ptrs : list Z) :
  wf_world w ->
  hasFormat mimeData s_mimeType = true ->
  mime_data mimeData s_mimeType
  = I64 (applicationPid w) :: I64 (Z.of_nat (length ptrs)) :: map I64 ptrs ->
  nodeForIndex m parent w = Some (P, w) ->
  deref (heap w) P = Some pn ->
  (forall p, In p ptrs -> deref (heap w) p <> None) ->
  Z.of_nat (length (m_childNodes pn)) <= INT_MAX ->
  r = -1 \/ 0 <= r <= Z.of_nat (length (m_childNodes pn)) ->
  exists news w' evs,
    dropMimeData m mimeData action r column parent w = Some (true, w') /\
    (forall b orig,
        deref (heap w) b = Some orig ->
        exists now,
          deref (heap w') b = Some now /\
          this_addr now = b /\
          m_itemData now = m_itemData orig /\
          m_parentNode now = m_parentNode orig /\
          (b <> P -> node_view now = node_view orig) /\
          (~ In P (addrs orig) -> now = orig)) /\
    deref (heap w') P
    = Some (with_inserted pn (insertion_point parent pn r) news) /\
    Forall (fun a => ~ In a (store_addrs (heap w))) (flat_map addrs news) /\
    log w' = log w ++ evs /\
    existsb is_removal evs = false.
Proof.
  intros Hwf Hfmt Hdata HP Hpn Hlive Hfit Hr.
  destruct (@drop_effect m w mimeData action r column parent P pn ptrs)
    as (news & w' & Hrun & Hheap & Hlen & Hnx & Hpid & Hnews & Hith & Hlog);
    auto.
  set (k := insertion_point parent pn r) in *.
  assert (Hk : (k <= length (m_childNodes pn))%nat).
  { unfold k, insertion_point. destruct (r =? -1) eqn:E.
    - destruct (isValid parent); lia.
    - apply Z.eqb_neq in E. lia. }
  assert (Hfr : fresh_nodes w news).
  { unfold fresh_nodes. eapply Forall_impl; [|exact Hnews].
    simpl. intros; lia. }
  exists news, w', (insert_events parent P (Z.of_nat k) (length ptrs)).
  split; [exact Hrun|]. split; [|split; [|split; [|split]]].
  - intros b orig Hb.
    exists (replace_node P (with_inserted pn k news) orig).
    pose proof (@deref_in_store _ _ _ Hb) as [_ Hbo].
    split; [rewrite Hheap; now apply deref_inserted|].
    destruct (Z.eq_dec b P) as [->|HbP].
    + assert (orig = pn) by congruence. subst orig.
      rewrite replace_node_unfold, Hbo, Z.eqb_refl.
      split; [eapply with_inserted_addr; eassumption|].
      split; [reflexivity|]. split; [reflexivity|].
      split; [intros Hc; now elim Hc|].
      intros Hnot. exfalso. apply Hnot. rewrite addrs_unfold, Hbo.
      now left.
    + assert (this_addr orig <> P) by congruence.
      pose proof (@node_view_after_write P (with_inserted pn k news) orig
                    (@with_inserted_addr w P pn k Hpn news) H) as Hview.
      unfold node_view in Hview. injection Hview as H1 H2 H3 H4.
      split; [congruence|]. split; [exact H2|]. split; [exact H3|].
      split; [intros _; unfold node_view; congruence|].
      intros Hnot. now apply replace_node_absent.
  - rewrite Hheap. now apply deref_inserted_parent.
  - destruct Hwf as (_ & Hlt & _). rewrite Forall_forall in *.
    intros a Ha Hin. specialize (Hnews a Ha). specialize (Hlt a Hin). lia.
  - exact Hlog.
  - apply insert_events_no_removal.
Qed.

Lemma drop_keeps_existing_nodes_witness :
  exists w',
    dropMimeData 1 (sample_payload [2; 3]) MoveAction (-1) (-1) InvalidIndex
      sample_world = Some (true, w') /\
    deref (heap w') 2 = deref (heap sample_world) 2 /\
    deref (heap w') 3 = deref (heap sample_world) 3 /\
    deref (heap w') 1 = Some sample_root.
Proof.
  destruct (@drop_keeps_existing_nodes 1 sample_world (sample_payload [2; 3])
              MoveAction (-1) (-1) InvalidIndex 10
              (TreeNode_new 10 [QVString "Title"; QVString "Summary"] None)
              [2; 3])
    as (news & w' & evs & Hrun & Hkeep & _).
  - exact sample_world_wf.
  - reflexivity.
  - reflexivity.
  - reflexivity.
  - reflexivity.
  - intros p [<-|[<-|[]]]; discriminate.
  - cbn. unfold INT_MAX. lia.
  - left. reflexivity.
  - exists w'. split; [exact Hrun|].
    assert (Hsame : forall b orig,
               deref (heap sample_world) b = Some orig ->
               ~ In 10 (addrs orig) ->
               deref (heap w') b = deref (heap sample_world) b).
    { intros b orig Hb Hnot.
      destruct (Hkeep b orig Hb) as (now & Hnow & _ & _ & _ & _ & Heq).
      rewrite Hnow, Hb, (Heq Hnot). reflexivity. }
    split; [|split].
    + eapply Hsame; [reflexivity|]. cbn. intuition discriminate.
    + eapply Hsame; [reflexivity|]. cbn. intuition discriminate.
    + erewrite Hsame; [reflexivity | reflexivity |].
      cbn. intuition discriminate.
Defined.

(** C7, as stated, fails when a node is dropped onto itself (a copy by
    drag within one view): the dragged node [A] at address 2 is the
    target parent, and afterwards it has a new first child, the clone of
    itself, so the dragged node's subtree has changed. *)
Lemma drop_onto_itself_changes_the_source :
  exists w' a_before a_after,
    dropMimeData 0 (sample_payload [2]) CopyAction (-1) 0 (Index 0 0 2)
      sample_world = Some (true, w') /\
    deref (heap sample_world) 2 = Some a_before /\
    deref (heap w') 2 = Some a_after /\
    map this_addr (m_childNodes a_before) = [4] /\
    map this_addr (m_childNodes a_after) = [20; 4] /\
    a_after <> a_before.
Proof.
  eexists _, _, _.
  split; [vm_compute; reflexivity|].
  split; [vm_compute; reflexivity|].
  split; [vm_compute; reflexivity|].
  split; [reflexivity|]. split; [reflexivity|]. discriminate.
Qed.

End DropFacts.

(* ===================================================================== *)
(** ** Notifications around structural changes *)

Module NotifyFacts.
Import TreeNodes Mime TreeModels StoreFacts DropFacts.

Lemma bind_Some {A B} (c : M A) (k : A -> M B) (w w' : World) (y : B) :
  bind c k w = Some (y, w') ->
  exists x w1, c w = Some (x, w1) /\ k x w1 = Some (y, w').
Proof.
  unfold bind. destruct (c w) as [[x w1]|]; [|discriminate]. eauto.
Qed.

Lemma reads_only_ret {A} (x : A) : reads_only (ret x).
Proof. intros w y w1 [= _ <-]. reflexivity. Qed.

Lemma reads_only_lift {A} (o : option A) : reads_only (lift o).
Proof. intros w y w1. unfold lift. destruct o; [|discriminate]. congruence. Qed.

Lemma reads_only_bind {A B} (c : M A) (k : A -> M B) :
  reads_only c -> (forall x, reads_only (k x)) -> reads_only (bind c k).
Proof.
  intros Hc Hk w y w' H. apply bind_Some in H as (x & w1 & H1 & H2).
  apply Hc in H1. subst w1. now apply Hk in H2.
Qed.

Lemma reads_only_undefined {A} : reads_only (@undefined A).
Proof. intros w y w1 H. discriminate. Qed.

Lemma reads_only_load (p : ptr) : reads_only (load p).
Proof. intros w x w1. unfold load. apply reads_only_lift. Qed.

Lemma reads_only_rootNode_get (m : nat) : reads_only (rootNode_get m).
Proof. intros w x w1. unfold rootNode_get. apply reads_only_lift. Qed.

Lemma reads_only_call_row (p : ptr) : reads_only (call_row p).
Proof.
  intros w x w1. unfold call_row. destruct (deref (heap w) p); [|discriminate].
  apply reads_only_lift.
Qed.

Lemma reads_only_Q_ASSERT (b : bool) : reads_only (Q_ASSERT b).
Proof.
  destruct b; [apply reads_only_ret | apply reads_only_undefined].
Qed.

Lemma reads_only_nodeForIndex (m : nat) (i : QModelIndex) :
  reads_only (nodeForIndex m i).
Proof.
  unfold nodeForIndex. destruct (isValid i);
    [apply reads_only_ret | apply reads_only_rootNode_get].
Qed.

Lemma reads_only_rowCount (m : nat) (i : QModelIndex) :
  reads_only (rowCount m i).
Proof.
  unfold rowCount. destruct (index_column i >? 0); [apply reads_only_ret|].
  apply reads_only_bind; [apply reads_only_nodeForIndex|]. intros p.
  apply reads_only_bind; [apply reads_only_load|]. intros n.
  apply reads_only_ret.
Qed.

Lemma reads_only_indexForItem (m : nat) (node : ptr) :
  reads_only (indexForItem m node).
Proof.
  unfold indexForItem.
  apply reads_only_bind; [apply reads_only_rootNode_get|]. intros root.
  destruct (negb (node =? root)); [|apply reads_only_ret].
  apply reads_only_bind; [apply reads_only_call_row|]. intros r.
  apply reads_only_ret.
Qed.

Lemma reads_only_parent_index (m : nat) (i : QModelIndex) :
  reads_only (parent_index m i).
Proof.
  unfold parent_index. destruct (negb (isValid i)); [apply reads_only_ret|].
  apply reads_only_bind; [apply reads_only_load|]. intros n.
  destruct (parentNode n);
    [apply reads_only_indexForItem | apply reads_only_undefined].
Qed.


(** *** The three handlers' logs *)

Lemma observe_all_app (f : QModelIndex -> ptr) (ph : Phase)
  (e1 e2 : list Event) :
  observe_all f ph (e1 ++ e2) =
  match observe_all f ph e1 with
  | Some ph' => observe_all f ph' e2
  | None => None
  end.
Proof.
  revert ph. induction e1 as [|e r IH]; intros ph; simpl; [reflexivity|].
  destruct (observe f ph e); [apply IH | reflexivity].
Qed.
















End NotifyFacts.

(* ===================================================================== *)
(** ** The tree node store: how the operations compose *)

Module TreeNodeCompose.
Import TreeNodes NodeOps TreeNodeFacts.

Lemma set_children_same (this : TreeNode) :
  set_children this (m_childNodes this) = this.
Proof. now destruct this. Qed.

Lemma nth_error_inserted {A} (l : list A) (n : nat) (x : A) :
  (n <= length l)%nat ->
  nth_error (firstn n l ++ x :: skipn n l) n = Some x.
Proof.
  intros H. rewrite nth_error_app2 by (rewrite length_firstn; lia).
  rewrite length_firstn, Nat.min_l by exact H.
  now rewrite Nat.sub_diag.
Qed.

Lemma remove_inserted {A} (l : list A) (n : nat) (x : A) :
  (n <= length l)%nat ->
  firstn n (firstn n l ++ x :: skipn n l)
    ++ skipn (S n) (firstn n l ++ x :: skipn n l) = l.
Proof.
  intros H.
  assert (Hn : length (firstn n l) = n) by (rewrite length_firstn; lia).
  rewrite firstn_app, skipn_app, Hn, Nat.sub_diag.
  rewrite firstn_firstn, Nat.min_id. cbn [firstn].
  rewrite app_nil_r.
  replace (S n - n)%nat with 1%nat by lia.
  rewrite (skipn_all2 (firstn n l)) by lia.
  cbn [skipn app]. apply firstn_skipn.
Qed.

(** X1.  Inserting a node and detaching the same position gives back the
    node, re-parented to the receiver, and the receiver as it was. *)
Theorem insertChild_then_takeChild (this this' c : TreeNode) (pos : Z) :
  insertChild this pos c = Some this' ->
  takeChild this' pos = Some (set_parent c (Some (this_addr this)), this).
Proof.
  intros H. apply insertChild_children in H as [Hr ->].
  unfold takeChild. cbn [m_childNodes set_children].
  rewrite length_app, length_firstn. cbn [length]. rewrite length_skipn.
  match goal with
  | |- (if ?b then _ else _) = _ =>
      replace b with true
        by (symmetry; apply andb_true_intro; split;
            [apply Z.leb_le | apply Z.ltb_lt]; lia)
  end.
  rewrite nth_error_inserted by lia.
  rewrite remove_inserted by lia.
  unfold set_children at 1. cbn [this_addr m_itemData m_parentNode set_children].
  now destruct this.
Qed.

Lemma insertChild_then_takeChild_witness :
  let root := appendChild (TreeNode_new 1 [QVString "Title"] None)
                (TreeNode_new 2 [QVString "A"] (Some 1)) in
  exists this',
    insertChild root 0 (TreeNode_new 3 [QVString "B"] None) = Some this' /\
    takeChild this' 0 = Some (TreeNode_new 3 [QVString "B"] (Some 1), root).
Proof.
  eexists. split; [reflexivity|].
  apply (@insertChild_then_takeChild
           (appendChild (TreeNode_new 1 [QVString "Title"] None)
              (TreeNode_new 2 [QVString "A"] (Some 1)))
           _ (TreeNode_new 3 [QVString "B"] None) 0).
  reflexivity.
Defined.

Lemma set_parent_same (c : TreeNode) : set_parent c (m_parentNode c) = c.
Proof. now destruct c. Qed.

Lemma restore_taken {A} (l : list A) (n : nat) (x : A) :
  nth_error l n = Some x ->
  firstn n (firstn n l ++ skipn (S n) l)
    ++ x :: skipn n (firstn n l ++ skipn (S n) l) = l.
Proof.
  intros H.
  assert (Hlt : (n < length l)%nat) by (apply nth_error_Some; congruence).
  assert (Hn : length (firstn n l) = n) by (rewrite length_firstn; lia).
  rewrite firstn_app, skipn_app, Hn, Nat.sub_diag.
  rewrite firstn_firstn, Nat.min_id. cbn [firstn skipn].
  rewrite app_nil_r, (skipn_all2 (firstn n l)) by lia.
  cbn [app].
  rewrite <- (firstn_skipn n l) at 3. f_equal.
  clear Hn. revert n H Hlt. induction l as [|h t IH]; intros [|n] H Hlt;
    simpl in *; try lia; try discriminate.
  - now injection H as ->.
  - apply IH; [exact H | lia].
Qed.

(** X2.  Detaching a child and inserting it again at the same row gives the
    receiver back, provided the child named the receiver as its parent. *)
Theorem takeChild_then_insertChild (this this' c : TreeNode) (r : Z) :
  takeChild this r = Some (c, this') ->
  m_parentNode c = Some (this_addr this) ->
  insertChild this' r c = Some this.
Proof.
  intros H Hp. apply takeChild_children in H as (Hr & Hn & ->).
  unfold insertChild. cbn [m_childNodes set_children this_addr].
  rewrite length_app, length_firstn, length_skipn.
  match goal with
  | |- (if ?b then _ else _) = _ =>
      replace b with true
        by (symmetry; apply andb_true_intro; split; apply Z.leb_le; lia)
  end.
  rewrite <- Hp, set_parent_same, restore_taken by exact Hn.
  f_equal. now destruct this.
Qed.

Lemma takeChild_then_insertChild_witness :
  let a := TreeNode_new 2 [QVString "A"] (Some 1) in
  let b := TreeNode_new 3 [QVString "B"] (Some 1) in
  let root := appendChild (appendChild (TreeNode_new 1 [] None) a) b in
  exists this', takeChild root 0 = Some (a, this') /\
                insertChild this' 0 a = Some root.
Proof.
  eexists. split; [reflexivity|].
  apply (@takeChild_then_insertChild
           (appendChild (appendChild (TreeNode_new 1 [] None)
                           (TreeNode_new 2 [QVString "A"] (Some 1)))
              (TreeNode_new 3 [QVString "B"] (Some 1)))
           _ (TreeNode_new 2 [QVString "A"] (Some 1)) 0);
    reflexivity.
Defined.

Lemma child_small (this : TreeNode) (i : Z) :
  Z.of_nat (length (m_childNodes this)) <= INT_MAX ->
  child this i =
  if (0 <=? i) && (i <? Z.of_nat (length (m_childNodes this)))
  then nth_error (m_childNodes this) (Z.to_nat i) else None.
Proof. intros H. unfold child. now rewrite childCount_small. Qed.

(** X3.  After [insertChild] at [pos], [child] finds the new node at [pos],
    the earlier children at their old rows and the later ones one row
    further. *)
Theorem insertChild_shifts_rows (this this' c : TreeNode) (pos i : Z) :
  insertChild this pos c = Some this' ->
  Z.of_nat (length (m_childNodes this)) < INT_MAX ->
  child this' i =
  if i <? pos then child this i
  else if i =? pos then Some (set_parent c (Some (this_addr this)))
       else child this (i - 1).
Proof.
  intros H Hfit. apply insertChild_children in H as [Hr ->].
  set (cs := m_childNodes this) in *.
  assert (Hlen : length (firstn (Z.to_nat pos) cs) = Z.to_nat pos)
    by (rewrite length_firstn; lia).
  rewrite !child_small;
    cbn [m_childNodes set_children]; fold cs;
    try (rewrite length_app, Hlen; cbn [length]; rewrite length_skipn);
    try lia.
  destruct (Z.ltb_spec i pos) as [Hlt|Hge].
  - destruct (Z.leb_spec 0 i) as [H0|H0]; cbn [andb]; [|reflexivity].
    replace (i <? Z.of_nat (Z.to_nat pos + S (length cs - Z.to_nat pos)))
      with true by (symmetry; apply Z.ltb_lt; lia).
    replace (i <? Z.of_nat (length cs))
      with true by (symmetry; apply Z.ltb_lt; lia).
    rewrite nth_error_app1 by lia.
    rewrite nth_error_firstn.
    now replace (Z.to_nat i <? Z.to_nat pos)%nat
      with true by (symmetry; apply Nat.ltb_lt; lia).
  - destruct (Z.eqb_spec i pos) as [->|Hne].
    + replace ((0 <=? pos)
               && (pos <? Z.of_nat (Z.to_nat pos + S (length cs - Z.to_nat pos))))
        with true
        by (symmetry; apply andb_true_intro; split;
            [apply Z.leb_le | apply Z.ltb_lt]; lia).
      apply nth_error_inserted. lia.
    + replace (0 <=? i) with true by (symmetry; apply Z.leb_le; lia).
      replace (0 <=? i - 1) with true by (symmetry; apply Z.leb_le; lia).
      cbn [andb].
      destruct (Z.ltb_spec (i - 1) (Z.of_nat (length cs))) as [Hin|Hout].
      * replace (i <? Z.of_nat (Z.to_nat pos + S (length cs - Z.to_nat pos)))
          with true by (symmetry; apply Z.ltb_lt; lia).
        rewrite nth_error_app2 by lia. rewrite Hlen.
        replace (Z.to_nat i - Z.to_nat pos)%nat
          with (S (Z.to_nat (i - 1) - Z.to_nat pos)) by lia.
        cbn [nth_error]. rewrite nth_error_skipn. f_equal. lia.
      * replace (i <? Z.of_nat (Z.to_nat pos + S (length cs - Z.to_nat pos)))
          with false by (symmetry; apply Z.ltb_ge; lia).
        reflexivity.
Qed.

Lemma insertChild_shifts_rows_witness :
  let a := TreeNode_new 2 [QVString "A"] (Some 1) in
  let root := appendChild (TreeNode_new 1 [] None) a in
  exists this',
    insertChild root 0 (TreeNode_new 3 [QVString "B"] None) = Some this' /\
    child this' 1 = child root 0.
Proof.
  eexists. split; [reflexivity|].
  apply (@insertChild_shifts_rows
           (appendChild (TreeNode_new 1 [] None)
              (TreeNode_new 2 [QVString "A"] (Some 1)))
           _ (TreeNode_new 3 [QVString "B"] None) 0 1);
    [reflexivity | unfold INT_MAX; simpl; lia].
Defined.

(** X4.  After [takeChild] at [r], [child] finds the earlier children at
    their old rows and the later ones one row nearer. *)
Theorem takeChild_shifts_rows (this this' c : TreeNode) (r i : Z) :
  takeChild this r = Some (c, this') ->
  Z.of_nat (length (m_childNodes this)) <= INT_MAX ->
  child this' i = if i <? r then child this i else child this (i + 1).
Proof.
  intros H Hfit. apply takeChild_children in H as (Hr & _ & ->).
  set (cs := m_childNodes this) in *.
  assert (Hlen : length (firstn (Z.to_nat r) cs) = Z.to_nat r)
    by (rewrite length_firstn; lia).
  rewrite !child_small;
    cbn [m_childNodes set_children]; fold cs;
    try (rewrite length_app, Hlen, length_skipn);
    try lia.
  destruct (Z.ltb_spec i r) as [Hlt|Hge].
  - destruct (Z.leb_spec 0 i) as [H0|H0]; cbn [andb]; [|reflexivity].
    replace (i <? Z.of_nat (Z.to_nat r + (length cs - S (Z.to_nat r))))
      with true by (symmetry; apply Z.ltb_lt; lia).
    replace (i <? Z.of_nat (length cs))
      with true by (symmetry; apply Z.ltb_lt; lia).
    rewrite nth_error_app1 by lia.
    rewrite nth_error_firstn.
    now replace (Z.to_nat i <? Z.to_nat r)%nat
      with true by (symmetry; apply Nat.ltb_lt; lia).
  - replace (0 <=? i) with true by (symmetry; apply Z.leb_le; lia).
    replace (0 <=? i + 1) with true by (symmetry; apply Z.leb_le; lia).
    cbn [andb].
    destruct (Z.ltb_spec (i + 1) (Z.of_nat (length cs))) as [Hin|Hout].
    + replace (i <? Z.of_nat (Z.to_nat r + (length cs - S (Z.to_nat r))))
        with true by (symmetry; apply Z.ltb_lt; lia).
      rewrite nth_error_app2 by lia. rewrite Hlen, nth_error_skipn.
      f_equal. lia.
    + replace (i <? Z.of_nat (Z.to_nat r + (length cs - S (Z.to_nat r))))
        with false by (symmetry; apply Z.ltb_ge; lia).
      reflexivity.
Qed.

Lemma takeChild_shifts_rows_witness :
  let a := TreeNode_new 2 [QVString "A"] (Some 1) in
  let b := TreeNode_new 3 [QVString "B"] (Some 1) in
  let root := appendChild (appendChild (TreeNode_new 1 [] None) a) b in
  exists this', takeChild root 0 = Some (a, this') /\
                child this' 0 = child root 1.
Proof.
  eexists. split; [reflexivity|].
  apply (@takeChild_shifts_rows
           (appendChild (appendChild (TreeNode_new 1 [] None)
                           (TreeNode_new 2 [QVString "A"] (Some 1)))
              (TreeNode_new 3 [QVString "B"] (Some 1)))
           _ (TreeNode_new 2 [QVString "A"] (Some 1)) 0 0);
    [reflexivity | unfold INT_MAX; simpl; lia].
Defined.

End TreeNodeCompose.

(* ===================================================================== *)
(** ** The flat models: what a drop and a removal do to the rows *)

Module TableFacts.
Import Mime MimeFacts NodeOps TreeModels Folders DragFacts Tables.

Lemma hasFormat_setData (t : string) (d : QByteArray) :
  hasFormat (setData t d) t = true.
Proof. unfold hasFormat, setData. simpl. now rewrite String.eqb_refl. Qed.

Lemma mime_data_setData (t : string) (d : QByteArray) :
  mime_data (setData t d) t = d.
Proof. unfold mime_data, setData. simpl. now rewrite String.eqb_refl. Qed.

Lemma flat_map_write_row {A} (write : A -> QByteArray) (m_data : list A)
  (rows : list Z) :
  flat_map (write_row write m_data) rows =
  flat_map write
    (flat_map (fun r => match QList_at m_data r with
                        | Some x => [x]
                        | None => []
                        end) rows).
Proof.
  induction rows as [|r rest IH]; simpl; [reflexivity|].
  rewrite flat_map_app, <- IH. f_equal.
  unfold write_row. destruct (QList_at m_data r); simpl;
    [now rewrite app_nil_r | reflexivity].
Qed.

Lemma rows_stream_dragged {A} (write : A -> QByteArray) (m_data : list A)
  (indexes : list QModelIndex) (stream : QByteArray) :
  rows_valid m_data indexes ->
  rows_stream write m_data indexes [] stream =
  Some (stream ++ flat_map write (dragged m_data indexes)).
Proof.
  intros Hv. rewrite rows_stream_spec by exact Hv. simpl.
  now rewrite filter_true, flat_map_write_row.
Qed.

Lemma dragged_nonempty {A} (m_data : list A) (indexes : list QModelIndex) :
  rows_valid m_data indexes -> indexes <> [] -> dragged m_data indexes <> [].
Proof.
  intros Hv Hne. destruct indexes as [|i rest]; [congruence|].
  unfold dragged. simpl.
  destruct (QList_at_in_range m_data (Forall_inv Hv)) as [x ->].
  discriminate.
Qed.

Lemma read_write_countries (l : list CountryData) :
  read_countries (flat_map write_country l) = Some l.
Proof.
  induction l as [|[c p] r IH]; simpl; [reflexivity|].
  now rewrite IH.
Qed.

Lemma insert_rows_spec {A} (news l : list A) (k : nat) :
  (k <= length l)%nat ->
  insert_rows l (Z.of_nat k) news = Some (firstn k l ++ news ++ skipn k l).
Proof.
  revert l k. induction news as [|x rest IH]; intros l k Hk; simpl.
  - now rewrite firstn_skipn.
  - unfold QList_insert.
    replace ((0 <=? Z.of_nat k) && (Z.of_nat k <=? Z.of_nat (length l)))
      with true
      by (symmetry; apply andb_true_intro; split; apply Z.leb_le; lia).
    rewrite Nat2Z.id.
    replace (Z.of_nat k + 1) with (Z.of_nat (S k)) by lia.
    assert (Hlen : length (firstn k l) = k) by (rewrite length_firstn; lia).
    rewrite IH
      by (rewrite length_app, Hlen; cbn [length]; rewrite length_skipn; lia).
    f_equal.
    replace (firstn k l ++ x :: skipn k l)
      with ((firstn k l ++ [x]) ++ skipn k l)
      by (now rewrite <- app_assoc).
    assert (Hlen' : length (firstn k l ++ [x]) = S k)
      by (rewrite length_app, Hlen; simpl; lia).
    rewrite firstn_app, skipn_app, Hlen', Nat.sub_diag.
    rewrite (firstn_all2 (n := S k) (firstn k l ++ [x])) by lia.
    rewrite (skipn_all2 (n := S k) (firstn k l ++ [x])) by lia.
    cbn [firstn skipn app]. now rewrite app_nil_r, <- !app_assoc.
Qed.

Lemma removeAt_loop_spec {A} (n : nat) (l : list A) (p : nat) :
  (p + n <= length l)%nat ->
  removeAt_loop n l (Z.of_nat p) = Some (firstn p l ++ skipn (p + n) l).
Proof.
  revert l. induction n as [|n IH]; intros l Hl; simpl.
  - now rewrite Nat.add_0_r, firstn_skipn.
  - unfold QList_removeAt.
    replace ((0 <=? Z.of_nat p) && (Z.of_nat p <? Z.of_nat (length l)))
      with true
      by (symmetry; apply andb_true_intro; split;
          [apply Z.leb_le | apply Z.ltb_lt]; lia).
    rewrite Nat2Z.id.
    assert (Hlen : length (firstn p l) = p) by (rewrite length_firstn; lia).
    rewrite IH by (rewrite length_app, Hlen, length_skipn; lia).
    f_equal.
    rewrite firstn_app, skipn_app, Hlen.
    rewrite (firstn_all2 (n := p) (firstn p l)) by lia.
    rewrite (skipn_all2 (n := (p + n)%nat) (firstn p l)) by lia.
    replace (p - p)%nat with O by lia.
    replace (p + n - p)%nat with n by lia.
    cbn [firstn app]. rewrite app_nil_r, skipn_skipn.
    do 2 f_equal. lia.
Qed.

Lemma remove_inserted_rows {A} (l news : list A) (k : nat) :
  (k <= length l)%nat ->
  firstn k (firstn k l ++ news ++ skipn k l)
    ++ skipn (k + length news) (firstn k l ++ news ++ skipn k l) = l.
Proof.
  intros Hk.
  assert (Hlen : length (firstn k l) = k) by (rewrite length_firstn; lia).
  rewrite firstn_app, Hlen, Nat.sub_diag.
  rewrite (firstn_all2 (n := k) (firstn k l)) by lia.
  cbn [firstn]. rewrite app_nil_r.
  rewrite app_assoc, skipn_app.
  rewrite (skipn_all2 (firstn k l ++ news))
    by (rewrite length_app, Hlen; lia).
  rewrite length_app, Hlen.
  replace (k + length news - (k + length news))%nat with O by lia.
  cbn [skipn app]. apply firstn_skipn.
Qed.

Lemma CountryModel_mimeData_dragged (m_data : list CountryData)
  (indexes : list QModelIndex) :
  rows_valid m_data indexes ->
  CountryModel_mimeData m_data indexes =
  Some (setData s_countryMimeType
          (flat_map write_country (dragged m_data indexes))).
Proof.
  intros Hv. unfold CountryModel_mimeData.
  now rewrite rows_stream_dragged.
Qed.

Lemma flat_map_write_country_atEnd (l : list CountryData) :
  l <> [] -> atEnd (flat_map write_country l) = false.
Proof. destruct l; [congruence | reflexivity]. Qed.

Lemma country_drag_then_drop_core (source : list CountryData)
  (indexes : list QModelIndex) (target : CountryModel)
  (action : DropAction) (r column : Z) :
  rows_valid source indexes ->
  indexes <> [] ->
  Z.of_nat (length (m_data target)) <= INT_MAX ->
  r = -1 \/ 0 <= r <= Z.of_nat (length (m_data target)) ->
  let k := landing (length (m_data target)) r in
  exists mimeData,
    CountryModel_mimeData source indexes = Some mimeData /\
    CountryModel_dropMimeData target mimeData action r column InvalidIndex =
    Some (true,
          mkCountryModel
            (firstn k (m_data target) ++ dragged source indexes
               ++ skipn k (m_data target))
            (notified target
               ++ [BeginInsertRows InvalidIndex (Z.of_nat k)
                     (to_int (Z.of_nat k
                              + Z.of_nat (length (dragged source indexes)) - 1));
                   EndInsertRows])).
Proof.
  intros Hv Hne Hfit Hr k.
  eexists. split; [apply CountryModel_mimeData_dragged; exact Hv|].
  unfold CountryModel_dropMimeData.
  rewrite hasFormat_setData, mime_data_setData. cbn [negb isValid andb].
  rewrite flat_map_write_country_atEnd by (now apply dragged_nonempty).
  rewrite read_write_countries.
  assert (Hk : CountryModel_dropRow target r InvalidIndex = Z.of_nat k
               /\ (k <= length (m_data target))%nat).
  { unfold CountryModel_dropRow, CountryModel_rowCount, k, landing.
    cbn [isValid].
    destruct (Z.eqb_spec r (-1)) as [->|Hn].
    - rewrite to_int_small by lia. split; lia.
    - split; lia. }
  destruct Hk as [-> Hk].
  now rewrite insert_rows_spec by exact Hk.
Qed.

(** X5.  Dragging rows out of one country model and dropping them between
    the rows of another decodes what was encoded: the target holds the
    dragged records, each once and in the order of first selection, from the
    drop row on, its own rows around them in their old order, and one
    insertion is announced for them. *)
Theorem country_drag_then_drop (source : list CountryData)
  (indexes : list QModelIndex) (target : CountryModel)
  (action : DropAction) (r column : Z) :
  rows_valid source indexes ->
  indexes <> [] ->
  Z.of_nat (length (m_data target)) <= INT_MAX ->
  r = -1 \/ 0 <= r <= Z.of_nat (length (m_data target)) ->
  let k := landing (length (m_data target)) r in
  exists mimeData,
    CountryModel_mimeData source indexes = Some mimeData /\
    CountryModel_dropMimeData target mimeData action r column InvalidIndex =
    Some (true,
          mkCountryModel
            (firstn k (m_data target) ++ dragged source indexes
               ++ skipn k (m_data target))
            (notified target
               ++ [BeginInsertRows InvalidIndex (Z.of_nat k)
                     (to_int (Z.of_nat k
                              + Z.of_nat (length (dragged source indexes)) - 1));
                   EndInsertRows])).
Proof. intros; now apply country_drag_then_drop_core. Qed.

Lemma country_drag_then_drop_witness :
  exists mimeData,
    CountryModel_mimeData sample_countries
      [Index 2 0 0; Index 2 1 0; Index 0 0 0; Index 0 1 0] = Some mimeData /\
    CountryModel_dropMimeData
      (mkCountryModel [mkCountryData "France" 67; mkCountryData "Brazil" 213] [])
      mimeData MoveAction 1 0 InvalidIndex =
    Some (true,
          mkCountryModel
            [mkCountryData "France" 67; mkCountryData "India" 1380;
             mkCountryData "USA" 331; mkCountryData "Brazil" 213]
            [BeginInsertRows InvalidIndex 1 2; EndInsertRows]).
Proof.
  apply (@country_drag_then_drop sample_countries
           [Index 2 0 0; Index 2 1 0; Index 0 0 0; Index 0 1 0]
           (mkCountryModel [mkCountryData "France" 67; mkCountryData "Brazil" 213] [])
           MoveAction 1 0).
  - repeat constructor; simpl; lia.
  - discriminate.
  - unfold INT_MAX. simpl. lia.
  - right. simpl. lia.
Defined.

(** X6.  [CountryModel::dropMimeData] returns false exactly when the mime
    type is absent, or the drop is onto an item (valid parent, row -1), or
    the payload is empty; and a drop that returns false has changed neither
    the rows nor the notifications. *)
Theorem country_drop_false_iff (this this' : CountryModel)
  (mimeData : QMimeData) (action : DropAction) (r column : Z)
  (parent : QModelIndex) (b : bool) :
  CountryModel_dropMimeData this mimeData action r column parent
  = Some (b, this') ->
  (b = false <-> country_drop_declined mimeData r parent) /\
  (b = false -> this' = this).
Proof.
  unfold CountryModel_dropMimeData, country_drop_declined.
  destruct (hasFormat mimeData s_countryMimeType) eqn:Hf; cbn [negb].
  2:{ intros [= <- <-]. split; [split; intros; auto 6 | auto]. }
  destruct (isValid parent) eqn:Hp; cbn [andb].
  - destruct (Z.eqb_spec r (-1)) as [->|Hr].
    + intros [= <- <-]. split; [split; intros; auto 6 | auto].
    + destruct (mime_data mimeData s_countryMimeType) as [|i rest] eqn:Hd;
        cbn [atEnd].
      * intros [= <- <-]. split; [split; intros; auto 6 | auto].
      * destruct (read_countries (i :: rest)); [|discriminate].
        destruct (insert_rows _ _ _); [|discriminate].
        intros [= <- <-]. split; [|discriminate].
        split; [discriminate|].
        intros [H|[[_ H]|H]]; congruence.
  - destruct (mime_data mimeData s_countryMimeType) as [|i rest] eqn:Hd;
      cbn [atEnd].
    + intros [= <- <-]. split; [split; intros; auto 6 | auto].
    + destruct (read_countries (i :: rest)); [|discriminate].
      destruct (insert_rows _ _ _); [|discriminate].
      intros [= <- <-]. split; [|discriminate].
      split; [discriminate|].
      intros [H|[[H _]|H]]; congruence.
Qed.

Lemma country_drop_false_iff_witness :
  let this := mkCountryModel sample_countries [] in
  let onto_item := Index 1 0 0 in
  let payload := setData s_countryMimeType [QStr "Peru"; I32 33] in
  (false = false <-> country_drop_declined payload (-1) onto_item) /\
  (false = false -> this = this).
Proof.
  apply (@country_drop_false_iff (mkCountryModel sample_countries [])
           (mkCountryModel sample_countries [])
           (setData s_countryMimeType [QStr "Peru"; I32 33])
           MoveAction (-1) 0 (Index 1 0 0) false).
  reflexivity.
Defined.

Lemma insert_rows_inv {A} (news l l' : list A) (r : Z) :
  insert_rows l r news = Some l' ->
  news = [] \/ 0 <= r <= Z.of_nat (length l).
Proof.
  destruct news as [|x rest]; [now left|]. simpl. unfold QList_insert.
  destruct ((0 <=? r) && (r <=? Z.of_nat (length l))) eqn:E; [|discriminate].
  intros _. right. apply andb_prop in E as [H1 H2]. lia.
Qed.

(** X7.  Removing, from the row an accepted drop started at, as many rows as
    the drop inserted gives back the rows the model held before. *)
Theorem country_drop_then_removeRows (this this' : CountryModel)
  (mimeData : QMimeData) (action : DropAction) (r column : Z)
  (parent parent' : QModelIndex) :
  CountryModel_dropMimeData this mimeData action r column parent
  = Some (true, this') ->
  let first := CountryModel_dropRow this r parent in
  let count := Z.of_nat (length (m_data this') - length (m_data this)) in
  exists this'',
    CountryModel_removeRows this' first count parent' = Some (true, this'') /\
    m_data this'' = m_data this.
Proof.
  unfold CountryModel_dropMimeData.
  destruct (negb (hasFormat mimeData s_countryMimeType)); [discriminate|].
  destruct (isValid parent && (r =? -1)); [discriminate|].
  destruct (atEnd (mime_data mimeData s_countryMimeType)) eqn:He;
    [discriminate|].
  destruct (read_countries _) as [news|] eqn:Hread; [|discriminate].
  destruct (insert_rows _ _ _) as [m'|] eqn:Hins; [|discriminate].
  intros [= <-]. cbn [m_data].
  set (first := CountryModel_dropRow this r parent) in *.
  assert (Hnews : news <> []).
  { destruct (mime_data mimeData s_countryMimeType) as [|i rest];
      [discriminate|].
    intros ->. simpl in Hread.
    destruct i; try discriminate.
    destruct rest as [|[] ?]; try discriminate.
    destruct (read_countries rest); discriminate. }
  destruct (insert_rows_inv _ _ _ Hins) as [|Hr]; [contradiction|].
  replace first with (Z.of_nat (Z.to_nat first)) in Hins |- * by lia.
  rewrite insert_rows_spec in Hins by lia. injection Hins as <-.
  unfold CountryModel_removeRows. cbn [m_data].
  rewrite Nat2Z.id.
  match goal with
  | |- context [removeAt_loop ?n _ _] =>
      replace n with (length news)
        by (rewrite !length_app, length_firstn, length_skipn; lia)
  end.
  rewrite removeAt_loop_spec
    by (rewrite !length_app, length_firstn, length_skipn; lia).
  rewrite remove_inserted_rows by lia.
  eexists. split; reflexivity.
Qed.

Lemma country_drop_then_removeRows_witness :
  exists this'',
    CountryModel_removeRows
      (mkCountryModel
         (mkCountryData "Peru" 33 :: sample_countries)
         [BeginInsertRows InvalidIndex 0 0; EndInsertRows])
      0 1 InvalidIndex = Some (true, this'') /\
    m_data this'' = sample_countries.
Proof.
  apply (@country_drop_then_removeRows
           (mkCountryModel sample_countries [])
           (mkCountryModel
              (mkCountryData "Peru" 33 :: sample_countries)
              [BeginInsertRows InvalidIndex 0 0; EndInsertRows])
           (setData s_countryMimeType [QStr "Peru"; I32 33])
           MoveAction 0 0 InvalidIndex InvalidIndex).
  reflexivity.
Defined.

Lemma QList_at_nat {A} (l : list A) (i : nat) :
  QList_at l (Z.of_nat i) = nth_error l i.
Proof.
  unfold QList_at. rewrite Nat2Z.id.
  destruct (Z.ltb_spec (Z.of_nat i) (Z.of_nat (length l))) as [H|H].
  - now replace (0 <=? Z.of_nat i) with true by (symmetry; apply Z.leb_le; lia).
  - rewrite andb_false_r. symmetry. apply nth_error_None. lia.
Qed.

Lemma skipn_nth_error {A} (l : list A) (p : nat) (x : A) :
  nth_error l p = Some x -> skipn p l = x :: skipn (S p) l.
Proof.
  revert p. induction l as [|h t IH]; intros [|p] H; simpl in *;
    try discriminate.
  - now injection H as ->.
  - now apply IH.
Qed.

Lemma picked_contiguous {A} (l : list A) (n p : nat) :
  (p + n <= length l)%nat ->
  flat_map (fun r => match QList_at l r with
                     | Some x => [x]
                     | None => []
                     end) (map Z.of_nat (seq p n))
  = firstn n (skipn p l).
Proof.
  revert p. induction n as [|n IH]; intros p Hp; [reflexivity|].
  cbn [seq map flat_map].
  rewrite QList_at_nat.
  destruct (nth_error l p) as [x|] eqn:E;
    [|apply nth_error_None in E; lia].
  rewrite (skipn_nth_error _ _ E). cbn [firstn app].
  now rewrite IH by lia.
Qed.

Lemma contiguous_rows_valid {A} (l : list A) (indexes : list QModelIndex)
  (p n : nat) :
  first_occurrences (map index_row indexes) = map Z.of_nat (seq p n) ->
  (p + n <= length l)%nat ->
  rows_valid l indexes.
Proof.
  intros Hrows Hp. unfold rows_valid. apply Forall_forall. intros i Hi.
  assert (Hin : In (index_row i) (map Z.of_nat (seq p n))).
  { rewrite <- Hrows. apply first_occurrences_In. now apply in_map. }
  apply in_map_iff in Hin as (j & <- & Hj). apply in_seq in Hj. lia.
Qed.

(** X8.  A move of a contiguous selection from one country model to another
    (the drop on the target, then [removeRows] on the source) neither loses
    nor duplicates a record: the rows of the two models together are the
    same as before, up to order. *)
Theorem country_move_keeps_records (source target : CountryModel)
  (indexes : list QModelIndex) (p n : nat) (r column : Z) :
  first_occurrences (map index_row indexes) = map Z.of_nat (seq p n) ->
  (0 < n)%nat ->
  (p + n <= length (m_data source))%nat ->
  Z.of_nat (length (m_data target)) <= INT_MAX ->
  r = -1 \/ 0 <= r <= Z.of_nat (length (m_data target)) ->
  exists mimeData target' source',
    CountryModel_mimeData (m_data source) indexes = Some mimeData /\
    CountryModel_dropMimeData target mimeData MoveAction r column InvalidIndex
    = Some (true, target') /\
    CountryModel_removeRows source (Z.of_nat p) (Z.of_nat n) InvalidIndex
    = Some (true, source') /\
    Permutation (m_data source' ++ m_data target')
      (m_data source ++ m_data target).
Proof.
  intros Hrows Hn Hp Hfit Hr.
  assert (Hv : rows_valid (m_data source) indexes)
    by (eapply contiguous_rows_valid; eassumption).
  assert (Hne : indexes <> []).
  { intros ->. destruct n; [lia | discriminate]. }
  destruct (@country_drag_then_drop_core (m_data source) indexes target
              MoveAction r column Hv Hne Hfit Hr) as (md & Hmd & Hdrop).
  exists md. eexists. eexists.
  split; [exact Hmd|]. split; [exact Hdrop|].
  unfold CountryModel_removeRows. rewrite Nat2Z.id.
  rewrite removeAt_loop_spec by exact Hp.
  split; [reflexivity|]. cbn [m_data].
  unfold dragged. rewrite Hrows, picked_contiguous by exact Hp.
  set (k := landing (length (m_data target)) r).
  set (A1 := firstn p (m_data source)).
  set (B1 := skipn (p + n) (m_data source)).
  set (D := firstn n (skipn p (m_data source))).
  set (T1 := firstn k (m_data target)).
  set (T2 := skipn k (m_data target)).
  assert (Hs : m_data source = A1 ++ D ++ B1).
  { unfold A1, D, B1. rewrite Nat.add_comm, <- skipn_skipn.
    now rewrite !firstn_skipn. }
  assert (Ht : m_data target = T1 ++ T2)
    by (unfold T1, T2; now rewrite firstn_skipn).
  clearbody A1 B1 D T1 T2. rewrite Hs, Ht.
  rewrite <- !app_assoc. apply Permutation_app_head.
  transitivity (D ++ (B1 ++ T1) ++ T2).
  - rewrite (app_assoc B1 T1). apply Permutation_app_swap_app.
  - rewrite <- !app_assoc. reflexivity.
Qed.

Lemma country_move_keeps_records_witness :
  exists mimeData target' source',
    CountryModel_mimeData sample_countries
      [Index 1 0 0; Index 1 1 0; Index 2 0 0; Index 2 1 0] = Some mimeData /\
    CountryModel_dropMimeData (mkCountryModel [mkCountryData "France" 67] [])
      mimeData MoveAction (-1) (-1) InvalidIndex = Some (true, target') /\
    CountryModel_removeRows (mkCountryModel sample_countries []) 1 2
      InvalidIndex = Some (true, source') /\
    Permutation (m_data source' ++ m_data target')
      (sample_countries ++ [mkCountryData "France" 67]).
Proof.
  apply (@country_move_keeps_records (mkCountryModel sample_countries [])
           (mkCountryModel [mkCountryData "France" 67] [])
           [Index 1 0 0; Index 1 1 0; Index 2 0 0; Index 2 1 0]
           1%nat 2%nat (-1) (-1)).
  - reflexivity.
  - lia.
  - simpl. lia.
  - unfold INT_MAX. simpl. lia.
  - now left.
Defined.

Lemma read_write_emails (l : list string) (f : EmailFolder) :
  read_emails (flat_map write_email l) f =
  Some (mkEmailFolder (folderName f) (emails f ++ l)).
Proof.
  revert f. induction l as [|e r IH]; intros f; simpl.
  - rewrite app_nil_r. now destruct f.
  - rewrite IH. unfold append_email. simpl. now rewrite <- app_assoc.
Qed.

Lemma nth_error_replace_nth_same {A} (l : list A) (i : nat) (x y : A) :
  nth_error l i = Some y -> nth_error (replace_nth i x l) i = Some x.
Proof.
  revert i. induction l as [|h t IH]; intros [|i] H; simpl in *;
    try discriminate; auto.
Qed.

Lemma nth_error_replace_nth_other {A} (l : list A) (i j : nat) (x : A) :
  i <> j -> nth_error (replace_nth i x l) j = nth_error l j.
Proof.
  revert i j. induction l as [|h t IH]; intros [|i] [|j] H; simpl;
    try reflexivity; try congruence.
  apply IH. congruence.
Qed.

Lemma EmailsModel_mimeData_dragged (folder : EmailFolder)
  (indexes : list QModelIndex) :
  rows_valid (emails folder) indexes ->
  EmailsModel_mimeData folder indexes =
  Some (setData s_emailsMimeType
          (QStr (folderName folder)
             :: flat_map write_email (dragged (emails folder) indexes))).
Proof.
  intros Hv. unfold EmailsModel_mimeData.
  now rewrite rows_stream_dragged.
Qed.

Lemma emails_drag_then_drop_core (this : FoldersModel)
  (source dest : EmailFolder) (d : nat) (indexes : list QModelIndex)
  (action : DropAction) (r column c : Z) :
  nth_error (m_emailFolders this) d = Some dest ->
  folderName source <> folderName dest ->
  rows_valid (emails source) indexes ->
  let parent := Index (Z.of_nat d) c 0 in
  let this' :=
    mkFoldersModel
      (replace_nth d
         (mkEmailFolder (folderName dest)
            (emails dest ++ dragged (emails source) indexes))
         (m_emailFolders this))
      (emitted this ++ [DataChanged parent parent]) in
  exists mimeData,
    EmailsModel_mimeData source indexes = Some mimeData /\
    FoldersModel_dropMimeData this mimeData action r column parent
    = Some (true, this').
Proof.
  intros Hd Hname Hv parent this'.
  eexists. split; [apply EmailsModel_mimeData_dragged; exact Hv|].
  unfold FoldersModel_dropMimeData, parent.
  cbn [isValid negb index_row].
  rewrite QList_at_nat, Hd, mime_data_setData.
  cbn [atEnd read_qstring].
  destruct (String.eqb_spec (folderName source) (folderName dest));
    [contradiction|].
  now rewrite read_write_emails, Nat2Z.id.
Qed.

(** X9.  Dragging rows out of the e-mails model and dropping them onto
    another folder of the folders model appends the dragged e-mails, each
    once and in the order of first selection, to that folder, leaves every
    other folder and all names as they were, emits one [dataChanged] for the
    folder's row, and the count cell of the row then shows the new number of
    e-mails. *)
Theorem emails_drag_then_drop (this : FoldersModel)
  (source dest : EmailFolder) (d : nat) (indexes : list QModelIndex)
  (action : DropAction) (r column c : Z) :
  nth_error (m_emailFolders this) d = Some dest ->
  folderName source <> folderName dest ->
  rows_valid (emails source) indexes ->
  let parent := Index (Z.of_nat d) c 0 in
  exists mimeData this',
    EmailsModel_mimeData source indexes = Some mimeData /\
    FoldersModel_dropMimeData this mimeData action r column parent
    = Some (true, this') /\
    nth_error (m_emailFolders this') d =
    Some (mkEmailFolder (folderName dest)
            (emails dest ++ dragged (emails source) indexes)) /\
    (forall j, j <> d ->
               nth_error (m_emailFolders this') j
               = nth_error (m_emailFolders this) j) /\
    emitted this' = emitted this ++ [DataChanged parent parent] /\
    FoldersModel_data this' (Index (Z.of_nat d) 1 0) true =
    Some (QVInt (Z.of_nat (length (emails dest))
                 + Z.of_nat (length (dragged (emails source) indexes)))).
Proof.
  intros Hd Hname Hv parent.
  destruct (@emails_drag_then_drop_core this source dest d indexes action
              r column c Hd Hname Hv) as (md & Hmd & Hdrop).
  exists md. eexists. split; [exact Hmd|]. split; [exact Hdrop|].
  cbn [m_emailFolders emitted].
  split; [eapply nth_error_replace_nth_same; exact Hd|].
  split; [intros j Hj; apply nth_error_replace_nth_other; congruence|].
  split; [reflexivity|].
  unfold FoldersModel_data. cbn [isValid negb orb index_row index_column
                                   m_emailFolders].
  rewrite QList_at_nat, (nth_error_replace_nth_same _ _ _ Hd).
  cbn [Z.eqb Pos.eqb emails]. now rewrite length_app, Nat2Z.inj_add.
Qed.

Lemma emails_drag_then_drop_witness :
  exists mimeData this',
    EmailsModel_mimeData (mkEmailFolder "Inbox" ["Urgent"%string; "Spam 1"%string])
      [Index 1 0 0; Index 1 0 0; Index 0 0 0] = Some mimeData /\
    FoldersModel_dropMimeData (mkFoldersModel sample_folders []) mimeData
      MoveAction (-1) (-1) (Index 1 0 0) = Some (true, this') /\
    nth_error (m_emailFolders this') 1 =
    Some (mkEmailFolder "Customers"
            ["Old customer"%string; "Spam 1"%string; "Urgent"%string]) /\
    (forall j, j <> 1%nat ->
               nth_error (m_emailFolders this') j
               = nth_error sample_folders j) /\
    emitted this' = [DataChanged (Index 1 0 0) (Index 1 0 0)] /\
    FoldersModel_data this' (Index 1 1 0) true = Some (QVInt 3).
Proof.
  apply (@emails_drag_then_drop (mkFoldersModel sample_folders [])
           (mkEmailFolder "Inbox" ["Urgent"%string; "Spam 1"%string])
           (mkEmailFolder "Customers" ["Old customer"%string])
           1%nat [Index 1 0 0; Index 1 0 0; Index 0 0 0]
           MoveAction (-1) (-1) 0).
  - reflexivity.
  - discriminate.
  - repeat constructor; simpl; lia.
Defined.

(** X10.  A move of a contiguous selection by drop in the folders example:
    both models point into one vector of folders, the drop appends to the
    destination folder and [EmailsModel::removeRows] then removes the rows
    from the source folder of that same vector. Afterwards the source folder
    has lost exactly the selected e-mails, the destination has gained them
    at its end, and no other folder has changed. *)
Theorem emails_move_by_drop (this : FoldersModel)
  (source dest : EmailFolder) (s d p n : nat) (indexes : list QModelIndex)
  (r column c : Z) :
  nth_error (m_emailFolders this) s = Some source ->
  nth_error (m_emailFolders this) d = Some dest ->
  folderName source <> folderName dest ->
  first_occurrences (map index_row indexes) = map Z.of_nat (seq p n) ->
  (p + n <= length (emails source))%nat ->
  exists mimeData this' folders'' events,
    EmailsModel_mimeData source indexes = Some mimeData /\
    FoldersModel_dropMimeData this mimeData MoveAction r column
      (Index (Z.of_nat d) c 0) = Some (true, this') /\
    EmailsModel_removeRows (m_emailFolders this') (Z.of_nat s)
      (Z.of_nat p) (Z.of_nat n) InvalidIndex
    = Some (true, folders'', events) /\
    nth_error folders'' s =
    Some (mkEmailFolder (folderName source)
            (firstn p (emails source) ++ skipn (p + n) (emails source))) /\
    nth_error folders'' d =
    Some (mkEmailFolder (folderName dest)
            (emails dest ++ firstn n (skipn p (emails source)))) /\
    (forall j, j <> s -> j <> d ->
               nth_error folders'' j = nth_error (m_emailFolders this) j).
Proof.
  intros Hs Hd Hname Hrows Hp.
  assert (Hv : rows_valid (emails source) indexes)
    by (eapply contiguous_rows_valid; eassumption).
  assert (Hsd : s <> d) by (intros ->; congruence).
  destruct (@emails_drag_then_drop_core this source dest d indexes
              MoveAction r column c Hd Hname Hv) as (md & Hmd & Hdrop).
  exists md. eexists. eexists. eexists.
  split; [exact Hmd|]. split; [exact Hdrop|].
  cbn [m_emailFolders].
  assert (Hs' : nth_error
                  (replace_nth d
                     (mkEmailFolder (folderName dest)
                        (emails dest ++ dragged (emails source) indexes))
                     (m_emailFolders this)) s = Some source)
    by (rewrite nth_error_replace_nth_other by congruence; exact Hs).
  unfold EmailsModel_removeRows.
  rewrite QList_at_nat, Hs', !Nat2Z.id.
  rewrite removeAt_loop_spec by exact Hp.
  split; [reflexivity|].
  split; [eapply nth_error_replace_nth_same; exact Hs'|].
  split.
  - rewrite nth_error_replace_nth_other by exact Hsd.
    rewrite (nth_error_replace_nth_same _ _ _ Hd).
    unfold dragged. now rewrite Hrows, picked_contiguous by exact Hp.
  - intros j Hjs Hjd.
    rewrite !nth_error_replace_nth_other by congruence. reflexivity.
Qed.

Lemma emails_move_by_drop_witness :
  exists mimeData this' folders'' events,
    EmailsModel_mimeData (mkEmailFolder "Inbox" ["Urgent"%string; "Spam 1"%string])
      [Index 1 0 0] = Some mimeData /\
    FoldersModel_dropMimeData (mkFoldersModel sample_folders []) mimeData
      MoveAction (-1) (-1) (Index 1 0 0) = Some (true, this') /\
    EmailsModel_removeRows (m_emailFolders this') 0 1 1 InvalidIndex
    = Some (true, folders'', events) /\
    nth_error folders'' 0 = Some (mkEmailFolder "Inbox" ["Urgent"%string]) /\
    nth_error folders'' 1 =
    Some (mkEmailFolder "Customers" ["Old customer"%string; "Spam 1"%string]) /\
    (forall j, j <> 0%nat -> j <> 1%nat ->
               nth_error folders'' j = nth_error sample_folders j).
Proof.
  apply (@emails_move_by_drop (mkFoldersModel sample_folders [])
           (mkEmailFolder "Inbox" ["Urgent"%string; "Spam 1"%string])
           (mkEmailFolder "Customers" ["Old customer"%string])
           0%nat 1%nat 1%nat 1%nat [Index 1 0 0] (-1) (-1) 0).
  - reflexivity.
  - reflexivity.
  - discriminate.
  - reflexivity.
  - simpl. lia.
Defined.

End TableFacts.

(* ===================================================================== *)
(** ** The item widgets: what an accepted drop does *)

Module WidgetFacts.
Import Mime MimeFacts NodeOps Folders Tables TableFacts WidgetDrag.

Lemma item_row_found (items : list EmailItem) (p : ptr) :
  In p (map item_addr items) ->
  exists i it,
    item_row items p = Some i /\ nth_error items i = Some it /\
    item_addr it = p /\
    find (fun it => item_addr it =? p) items = Some it.
Proof.
  unfold item_row.
  induction items as [|h t IH]; intros Hin; [destruct Hin|].
  simpl. destruct (Z.eqb_spec (item_addr h) p) as [E|E].
  - exists O, h. auto.
  - destruct Hin as [Hh|Ht]; [contradiction|].
    destruct (IH Ht) as (i & it & -> & Hn & Ha & Hf).
    exists (S i), it. auto.
Qed.

Lemma filter_none_out (items : list EmailItem) (p : ptr) :
  ~ In p (map item_addr items) ->
  filter (fun x => negb (item_addr x =? p)) items = items.
Proof.
  induction items as [|h t IH]; intros Hn; simpl; [reflexivity|].
  destruct (Z.eqb_spec (item_addr h) p) as [E|E]; simpl.
  - exfalso. apply Hn. now left.
  - rewrite IH; [reflexivity|]. intros H. apply Hn. now right.
Qed.

Lemma remove_row_filter (items : list EmailItem) (i : nat) (it : EmailItem) :
  NoDup (map item_addr items) ->
  nth_error items i = Some it ->
  firstn i items ++ skipn (S i) items
  = filter (fun x => negb (item_addr x =? item_addr it)) items.
Proof.
  revert i. induction items as [|h t IH]; intros [|i] Hnd Hn; simpl in *;
    try discriminate.
  - injection Hn as ->. rewrite Z.eqb_refl. simpl.
    symmetry. apply filter_none_out. now apply NoDup_cons_iff in Hnd.
  - apply NoDup_cons_iff in Hnd as [Hh Ht].
    destruct (Z.eqb_spec (item_addr h) (item_addr it)) as [E|E]; simpl.
    + exfalso. apply Hh. rewrite E. apply in_map.
      eapply nth_error_In; exact Hn.
    + f_equal. now apply IH.
Qed.

Lemma map_remove_row {A B} (f : A -> B) (l : list A) (i : nat) :
  map f (firstn i l ++ skipn (S i) l)
  = firstn i (map f l) ++ skipn (S i) (map f l).
Proof. now rewrite map_app, firstn_map, skipn_map. Qed.

Lemma NoDup_map_filter {A B} (f : A -> B) (g : A -> bool) (l : list A) :
  NoDup (map f l) -> NoDup (map f (filter g l)).
Proof.
  induction l as [|h t IH]; intros H; simpl; [constructor|].
  simpl in H. apply NoDup_cons_iff in H as [Hh Ht].
  destruct (g h); simpl; [|now apply IH].
  constructor; [|now apply IH].
  intros Hin. apply Hh. apply in_map_iff in Hin as (x & Hx & Hin).
  apply filter_In in Hin as [Hin _]. rewrite <- Hx. now apply in_map.
Qed.

Lemma find_filter_other (items : list EmailItem) (p q : ptr) :
  q <> p ->
  find (fun it => item_addr it =? q)
    (filter (fun x => negb (item_addr x =? p)) items)
  = find (fun it => item_addr it =? q) items.
Proof.
  intros Hqp. induction items as [|h t IH]; simpl; [reflexivity|].
  destruct (Z.eqb_spec (item_addr h) p) as [E|E]; simpl.
  - destruct (Z.eqb_spec (item_addr h) q); [congruence | exact IH].
  - destruct (Z.eqb_spec (item_addr h) q); [reflexivity | exact IH].
Qed.

Lemma texts_of_filter_other (items : list EmailItem) (p : ptr)
  (rest : list ptr) :
  ~ In p rest ->
  texts_of (filter (fun x => negb (item_addr x =? p)) items) rest
  = texts_of items rest.
Proof.
  unfold texts_of. induction rest as [|q r IH]; intros Hn; simpl;
    [reflexivity|].
  rewrite find_filter_other by (intros ->; apply Hn; now left).
  rewrite IH; [reflexivity|]. intros H. apply Hn. now right.
Qed.

Lemma replace_nth_twice {A} (l : list A) (i : nat) (x y : A) :
  replace_nth i y (replace_nth i x l) = replace_nth i y l.
Proof.
  revert i. induction l as [|h t IH]; intros [|i]; simpl; auto.
  now rewrite IH.
Qed.

Lemma replace_nth_same {A} (l : list A) (i : nat) (x : A) :
  nth_error l i = Some x -> replace_nth i x l = l.
Proof.
  revert i. induction l as [|h t IH]; intros [|i] H; simpl in *;
    try discriminate.
  - now injection H as ->.
  - now rewrite IH.
Qed.

(** One turn of the loop for a move. *)
Lemma drop_item_move (d : Desk) (s dd : nat) (fsrc fdest : EmailFolder)
  (p : ptr) :
  s <> dd ->
  nth_error (m_emails d) s = Some fsrc ->
  nth_error (m_emails d) dd = Some fdest ->
  shows (email_items d) fsrc ->
  In p (map item_addr (email_items d)) ->
  exists d1,
    drop_item (Z.of_nat s) (Z.of_nat dd) MoveAction d p = Some d1 /\
    email_items d1
    = filter (fun x => negb (item_addr x =? p)) (email_items d) /\
    nth_error (m_emails d1) s =
    Some (mkEmailFolder (folderName fsrc) (map item_text (email_items d1))) /\
    nth_error (m_emails d1) dd =
    Some (mkEmailFolder (folderName fdest)
            (emails fdest ++ texts_of (email_items d) [p])) /\
    (forall j, j <> s -> j <> dd ->
               nth_error (m_emails d1) j = nth_error (m_emails d) j) /\
    folder_items d1 = folder_items d /\ counts d1 = counts d /\
    desk_pid d1 = desk_pid d.
Proof.
  intros Hsd Hs Hd [Hmirror Hnd] Hin.
  destruct (item_row_found _ _ Hin) as (i & it & Hrow & Hn & Ha & Hf).
  unfold drop_item. rewrite Hrow, Hn, QList_at_nat, Hd.
  cbn [is_move]. unfold set_folder at 1. cbn [m_emails].
  rewrite QList_at_nat, Nat2Z.id.
  rewrite nth_error_replace_nth_other by congruence. rewrite Hs.
  assert (Hi : (i < length (emails fsrc))%nat).
  { rewrite <- Hmirror, length_map. apply nth_error_Some. congruence. }
  unfold QList_removeAt.
  replace ((0 <=? Z.of_nat i) && (Z.of_nat i <? Z.of_nat (length (emails fsrc))))
    with true
    by (symmetry; apply andb_true_intro; split;
        [apply Z.leb_le | apply Z.ltb_lt]; lia).
  rewrite !Nat2Z.id.
  eexists. split; [reflexivity|].
  cbn [email_items m_emails folder_items counts desk_pid set_folder].
  assert (Hitems : firstn i (email_items d) ++ skipn (S i) (email_items d)
                   = filter (fun x => negb (item_addr x =? p)) (email_items d))
    by (rewrite <- Ha; now apply remove_row_filter).
  rewrite !Nat2Z.id.
  split; [exact Hitems|].
  split.
  { erewrite nth_error_replace_nth_same
      by (rewrite nth_error_replace_nth_other by congruence; exact Hs).
    now rewrite map_remove_row, Hmirror. }
  split.
  { rewrite nth_error_replace_nth_other by congruence.
    rewrite (nth_error_replace_nth_same _ _ _ Hd).
    unfold append_email, texts_of. cbn [flat_map]. rewrite Hf.
    now rewrite app_nil_r. }
  split; [|auto].
  intros j Hjs Hjd. now rewrite !nth_error_replace_nth_other by congruence.
Qed.

Lemma drop_items_move (s dd : nat) (ptrs : list ptr) :
  s <> dd ->
  forall (d : Desk) (fsrc fdest : EmailFolder),
    nth_error (m_emails d) s = Some fsrc ->
    nth_error (m_emails d) dd = Some fdest ->
    shows (email_items d) fsrc ->
    NoDup ptrs ->
    incl ptrs (map item_addr (email_items d)) ->
    exists d',
      drop_items (Z.of_nat s) (Z.of_nat dd) MoveAction d ptrs = Some d' /\
      email_items d' = filter (not_dragged ptrs) (email_items d) /\
      nth_error (m_emails d') s =
      Some (mkEmailFolder (folderName fsrc) (map item_text (email_items d'))) /\
      nth_error (m_emails d') dd =
      Some (mkEmailFolder (folderName fdest)
              (emails fdest ++ texts_of (email_items d) ptrs)) /\
      (forall j, j <> s -> j <> dd ->
                 nth_error (m_emails d') j = nth_error (m_emails d) j) /\
      folder_items d' = folder_items d /\ counts d' = counts d /\
      desk_pid d' = desk_pid d.
Proof.
  intros Hsd. induction ptrs as [|p rest IH];
    intros d fsrc fdest Hs Hd Hshow Hnd Hincl.
  - exists d. cbn [drop_items]. split; [reflexivity|].
    split; [symmetry; apply filter_true|].
    split; [rewrite Hs; destruct Hshow as [-> _]; now destruct fsrc|].
    split; [rewrite Hd; cbn; rewrite app_nil_r; now destruct fdest|].
    auto.
  - apply NoDup_cons_iff in Hnd as [Hp Hrest].
    destruct (@drop_item_move d s dd fsrc fdest p Hsd Hs Hd Hshow
                (Hincl p (or_introl eq_refl)))
      as (d1 & Hstep & Hitems1 & Hs1 & Hd1 & Hframe1 & Hfi1 & Hc1 & Hpid1).
    assert (Hshow1 : shows (email_items d1)
                       (mkEmailFolder (folderName fsrc)
                          (map item_text (email_items d1)))).
    { split; [reflexivity|]. rewrite Hitems1.
      apply NoDup_map_filter. apply Hshow. }
    assert (Hincl1 : incl rest (map item_addr (email_items d1))).
    { intros q Hq. rewrite Hitems1.
      assert (Hq' : In q (map item_addr (email_items d)))
        by (apply Hincl; now right).
      apply in_map_iff in Hq' as (x & Hx & Hxin).
      apply in_map_iff. exists x. split; [exact Hx|].
      apply filter_In. split; [exact Hxin|].
      rewrite Hx. apply negb_true_iff, Z.eqb_neq. intros ->. contradiction. }
    destruct (IH d1 _ _ Hs1 Hd1 Hshow1 Hrest Hincl1)
      as (d' & Hrun & Hitems & Hs' & Hd' & Hframe & Hfi & Hc & Hpid).
    exists d'. cbn [drop_items]. rewrite Hstep.
    split; [exact Hrun|].
    split.
    { rewrite Hitems, Hitems1, filter_filter. apply filter_ext.
      intros x. unfold not_dragged. cbn [existsb].
      now rewrite negb_orb. }
    split; [exact Hs'|].
    split.
    { rewrite Hd'. cbn [folderName emails]. rewrite Hitems1.
      rewrite texts_of_filter_other by exact Hp.
      unfold texts_of. cbn [flat_map].
      now rewrite app_nil_r, <- app_assoc. }
    split.
    { intros j Hjs Hjd. rewrite Hframe by assumption. now apply Hframe1. }
    split; [congruence|]. split; congruence.
Qed.

Lemma texts_of_length (items : list EmailItem) (ptrs : list ptr) :
  incl ptrs (map item_addr items) ->
  length (texts_of items ptrs) = length ptrs.
Proof.
  unfold texts_of. induction ptrs as [|p rest IH]; intros Hincl;
    [reflexivity|].
  destruct (item_row_found _ _ (Hincl p (or_introl eq_refl)))
    as (i & it & _ & _ & _ & Hf).
  cbn [flat_map]. rewrite Hf. cbn [app length]. f_equal.
  apply IH. exact (fun q Hq => Hincl q (or_intror Hq)).
Qed.

(** X11.  A move by drop onto a folder of the list or of the table widget,
    from the items the e-mails widget shows for another folder: the dragged
    items leave the widget and the items left are those not dragged, in
    their old order; the source folder holds exactly the texts of the items
    left, so widget and folder stay in step; the destination folder gains
    the dragged texts at its end in the order of the payload; no other
    folder changes; and the handler returns false.  The list widget's
    handler touches nothing else.  The table widget's handler ends in the
    same folders and items and has refreshed the counts it shows: one
    count per folder, each the number of e-mails the folder now holds, so
    the source folder's count is the number of items left and the
    destination folder's count has grown by the number of dragged
    items. *)
Theorem widget_move_by_drop (d : Desk) (r column : Z) (s dd : nat)
  (fsrc fdest : EmailFolder) (ptrs : list ptr) :
  s <> dd ->
  nth_error (m_emails d) s = Some fsrc ->
  nth_error (m_emails d) dd = Some fdest ->
  shows (email_items d) fsrc ->
  NoDup ptrs ->
  incl ptrs (map item_addr (email_items d)) ->
  let payload := EmailsWidget_mimeData d (Z.of_nat s) ptrs in
  exists d',
    (dest_folder_ptr d r 0 = Some (Z.of_nat dd) ->
     FoldersListWidget_dropMimeData d r payload MoveAction
     = Some (false, d')) /\
    (dest_folder_ptr d r column = Some (Z.of_nat dd) ->
     exists t,
       FoldersTableWidget_dropMimeData d r column payload MoveAction
       = Some (false, t) /\
       m_emails t = m_emails d' /\ email_items t = email_items d' /\
       folder_items t = folder_items d' /\ desk_pid t = desk_pid d' /\
       counts t = map (fun f => Z.of_nat (length (emails f))) (m_emails d') /\
       nth_error (counts t) s = Some (Z.of_nat (length (email_items d'))) /\
       nth_error (counts t) dd
       = Some (Z.of_nat (length (emails fdest) + length ptrs))) /\
    email_items d' = filter (not_dragged ptrs) (email_items d) /\
    nth_error (m_emails d') s =
    Some (mkEmailFolder (folderName fsrc) (map item_text (email_items d'))) /\
    nth_error (m_emails d') dd =
    Some (mkEmailFolder (folderName fdest)
            (emails fdest ++ texts_of (email_items d) ptrs)) /\
    (forall j, j <> s -> j <> dd ->
               nth_error (m_emails d') j = nth_error (m_emails d) j) /\
    folder_items d' = folder_items d /\ counts d' = counts d /\
    desk_pid d' = desk_pid d.
Proof.
  intros Hsd Hs Hd Hshow Hnd Hincl payload.
  destruct (@drop_items_move s dd ptrs Hsd d fsrc fdest Hs Hd Hshow Hnd Hincl)
    as (d' & Hrun & Hitems & Hs' & Hd' & Hframe & Hrest).
  exists d'.
  assert (Hw : forall finish c,
             dest_folder_ptr d r c = Some (Z.of_nat dd) ->
             widget_drop finish d r c payload MoveAction
             = Some (false, finish d')).
  { intros finish c Hdest. unfold widget_drop, payload, EmailsWidget_mimeData.
    rewrite Hdest, mime_data_setData. cbn [atEnd read_i64].
    rewrite Z.eqb_refl. cbn [negb].
    replace (Z.of_nat s =? Z.of_nat dd) with false
      by (symmetry; apply Z.eqb_neq; lia).
    cbn [read_ptrlist]. now rewrite Hrun. }
  split; [exact (Hw (fun x => x) 0)|].
  split; [|auto 8].
  intros Hdest. exists (updateCounts d').
  split; [exact (Hw updateCounts column Hdest)|].
  unfold updateCounts.
  cbn [m_emails email_items folder_items desk_pid counts].
  do 5 (split; [reflexivity|]).
  rewrite !nth_error_map, Hs', Hd'. cbn [option_map emails].
  rewrite length_map, length_app, (texts_of_length _ Hincl).
  split; reflexivity.
Qed.

Lemma widget_move_by_drop_witness :
  exists d' t,
    FoldersListWidget_dropMimeData sample_desk 1
      (EmailsWidget_mimeData sample_desk 0 [501]) MoveAction
    = Some (false, d') /\
    counts d' = [2; 1] /\
    FoldersTableWidget_dropMimeData sample_desk 1 1
      (EmailsWidget_mimeData sample_desk 0 [501]) MoveAction
    = Some (false, t) /\
    nth_error (counts t) 0 = Some 1 /\
    nth_error (counts t) 1 = Some 2 /\
    email_items t = email_items d' /\
    email_items d' = [mkEmailItem 500 "Urgent"] /\
    nth_error (m_emails d') 0 =
    Some (mkEmailFolder "Inbox" (map item_text (email_items d'))) /\
    nth_error (m_emails d') 1 =
    Some (mkEmailFolder "Customers" ["Old customer"%string; "Spam 1"%string]).
Proof.
  destruct (@widget_move_by_drop sample_desk 1 1 0%nat 1%nat
              (mkEmailFolder "Inbox" ["Urgent"%string; "Spam 1"%string])
              (mkEmailFolder "Customers" ["Old customer"%string]) [501])
    as (d' & Hlist & Htable & Hitems & Hsrc & Hdest & _ & _ & Hcounts & _).
  - discriminate.
  - reflexivity.
  - reflexivity.
  - split; [reflexivity|].
    simpl. repeat constructor; simpl; intuition lia.
  - repeat constructor. simpl. tauto.
  - intros q [<-|[]]. simpl. tauto.
  - destruct (Htable eq_refl)
      as (t & Hrun & _ & Hsame & _ & _ & _ & Hc0 & Hc1).
    rewrite Hitems in Hc0.
    exists d', t.
    split; [exact (Hlist eq_refl)|]. split; [exact Hcounts|].
    split; [exact Hrun|].
    split; [exact Hc0|]. split; [exact Hc1|].
    split; [exact Hsame|].
    split; [exact Hitems|]. split; [exact Hsrc | exact Hdest].
Defined.

Lemma drop_items_copy (src : Z) (dd : nat) (action : DropAction)
  (ptrs : list ptr) :
  is_move action = false ->
  forall (d : Desk) (fdest : EmailFolder),
    nth_error (m_emails d) dd = Some fdest ->
    incl ptrs (map item_addr (email_items d)) ->
    drop_items src (Z.of_nat dd) action d ptrs =
    Some (set_folder d (Z.of_nat dd)
            (mkEmailFolder (folderName fdest)
               (emails fdest ++ texts_of (email_items d) ptrs))).
Proof.
  intros Hact. induction ptrs as [|p rest IH]; intros d fdest Hd Hincl.
  - cbn [drop_items texts_of flat_map]. rewrite app_nil_r.
    unfold set_folder. rewrite Nat2Z.id.
    replace (mkEmailFolder (folderName fdest) (emails fdest)) with fdest
      by (now destruct fdest).
    rewrite (replace_nth_same _ _ Hd). now destruct d.
  - destruct (item_row_found _ _ (Hincl p (or_introl eq_refl)))
      as (i & it & Hrow & Hn & Ha & Hf).
    cbn [drop_items]. unfold drop_item.
    rewrite Hrow, Hn, QList_at_nat, Hd, Hact.
    rewrite (IH _ (append_email fdest (item_text it))).
    + unfold set_folder. cbn [m_emails folder_items email_items counts
                                desk_pid]. rewrite Nat2Z.id.
      rewrite replace_nth_twice. do 3 f_equal.
      unfold append_email, texts_of. cbn [folderName emails flat_map].
      now rewrite Hf, <- app_assoc.
    + unfold set_folder. cbn [m_emails]. rewrite Nat2Z.id.
      eapply nth_error_replace_nth_same; exact Hd.
    + exact (fun q Hq => Hincl q (or_intror Hq)).
Qed.

(** X12.  A drop with an action other than a move (a copy) onto a folder of
    the list or of the table widget appends the texts of the dragged items
    to the destination folder, in the order of the payload, and changes
    nothing else: the items of the e-mails widget and every other folder
    stay, the folder named as the source is not even read.  The handler
    returns false.  The list widget's handler leaves the counts alone; the
    table widget's handler has refreshed the counts it shows: one count
    per folder, each the number of e-mails the folder now holds, so the
    destination folder's count has grown by the number of dragged items and
    every other folder's count is the number of e-mails it held before. *)
Theorem widget_copy_by_drop (d : Desk) (r column src : Z) (dd : nat)
  (fdest : EmailFolder) (ptrs : list ptr) (action : DropAction) :
  src <> Z.of_nat dd ->
  nth_error (m_emails d) dd = Some fdest ->
  is_move action = false ->
  incl ptrs (map item_addr (email_items d)) ->
  let payload := EmailsWidget_mimeData d src ptrs in
  let d' := set_folder d (Z.of_nat dd)
              (mkEmailFolder (folderName fdest)
                 (emails fdest ++ texts_of (email_items d) ptrs)) in
  (dest_folder_ptr d r 0 = Some (Z.of_nat dd) ->
   FoldersListWidget_dropMimeData d r payload action = Some (false, d')) /\
  (dest_folder_ptr d r column = Some (Z.of_nat dd) ->
   exists t,
     FoldersTableWidget_dropMimeData d r column payload action
     = Some (false, t) /\
     m_emails t = m_emails d' /\ email_items t = email_items d /\
     folder_items t = folder_items d /\ desk_pid t = desk_pid d /\
     counts t = map (fun f => Z.of_nat (length (emails f))) (m_emails d') /\
     nth_error (counts t) dd
     = Some (Z.of_nat (length (emails fdest) + length ptrs)) /\
     (forall j f, j <> dd -> nth_error (m_emails d) j = Some f ->
                  nth_error (counts t) j
                  = Some (Z.of_nat (length (emails f))))) /\
  email_items d' = email_items d /\ counts d' = counts d /\
  (forall j, j <> dd ->
             nth_error (m_emails d') j = nth_error (m_emails d) j).
Proof.
  intros Hsd Hd Hact Hincl payload d'.
  assert (Hw : forall finish c,
             dest_folder_ptr d r c = Some (Z.of_nat dd) ->
             widget_drop finish d r c payload action
             = Some (false, finish d')).
  { intros finish c Hdest. unfold widget_drop, payload, EmailsWidget_mimeData.
    rewrite Hdest, mime_data_setData. cbn [atEnd read_i64].
    rewrite Z.eqb_refl. cbn [negb].
    replace (src =? Z.of_nat dd) with false
      by (symmetry; apply Z.eqb_neq; lia).
    cbn [read_ptrlist].
    now rewrite (@drop_items_copy src dd action ptrs Hact d fdest Hd Hincl). }
  assert (Hother : forall j, j <> dd ->
                     nth_error (m_emails d') j = nth_error (m_emails d) j).
  { intros j Hj. unfold d', set_folder. cbn [m_emails]. rewrite Nat2Z.id.
    apply nth_error_replace_nth_other. congruence. }
  assert (Hdest' : nth_error (m_emails d') dd
                   = Some (mkEmailFolder (folderName fdest)
                             (emails fdest ++ texts_of (email_items d) ptrs))).
  { unfold d', set_folder. cbn [m_emails]. rewrite Nat2Z.id.
    eapply nth_error_replace_nth_same; exact Hd. }
  split; [exact (Hw (fun x => x) 0)|].
  split; [|split; [reflexivity | split; [reflexivity | exact Hother]]].
  intros Hdest. exists (updateCounts d').
  split; [exact (Hw updateCounts column Hdest)|].
  unfold updateCounts.
  cbn [m_emails email_items folder_items desk_pid counts].
  do 5 (split; [reflexivity|]).
  split.
  - rewrite nth_error_map, Hdest'. cbn [option_map emails].
    now rewrite length_app, (texts_of_length _ Hincl).
  - intros j f Hj Hf. rewrite nth_error_map, (Hother j Hj), Hf. reflexivity.
Qed.

Lemma widget_copy_by_drop_witness :
  let d' := set_folder sample_desk 1
              (mkEmailFolder "Customers"
                 ["Old customer"%string; "Spam 1"%string; "Spam 1"%string]) in
  FoldersListWidget_dropMimeData sample_desk 1
    (EmailsWidget_mimeData sample_desk 0 [501; 501]) CopyAction
  = Some (false, d') /\
  (exists t,
     FoldersTableWidget_dropMimeData sample_desk 1 1
       (EmailsWidget_mimeData sample_desk 0 [501; 501]) CopyAction
     = Some (false, t) /\
     m_emails t = m_emails d' /\
     counts t = [2; 3]) /\
  email_items d' = email_items sample_desk.
Proof.
  destruct (@widget_copy_by_drop sample_desk 1 1 0 1%nat
              (mkEmailFolder "Customers" ["Old customer"%string]) [501; 501]
              CopyAction)
    as (Hlist & Htable & Hitems & _).
  - discriminate.
  - reflexivity.
  - reflexivity.
  - intros q [<-|[<-|[]]]; simpl; tauto.
  - split; [exact (Hlist eq_refl)|]. split; [|exact Hitems].
    destruct (Htable eq_refl) as (t & Hrun & Hfolders & _ & _ & _ & Hct & _).
    exists t. split; [exact Hrun|]. split; [exact Hfolders | exact Hct].
Defined.

End WidgetFacts.

(* ===================================================================== *)
(** ** The tree model: removing rows, and undoing a drop *)

Module RemovalFacts.
Import TreeNodes NodeOps Mime MimeFacts TreeModels TreeNodeFacts StoreFacts.
Import DropFacts NotifyFacts Tables TableFacts.
Local Open Scope model_scope.

Lemma find_node_self (new : TreeNode) :
  find_node (this_addr new) new = Some new.
Proof. rewrite find_node_unfold. now rewrite Z.eqb_refl. Qed.

Lemma find_in_written (P : ptr) (new : TreeNode) (l : list TreeNode) :
  Forall (fun t => In P (addrs t) ->
                   find_node P (replace_node P new t) = Some new) l ->
  In P (flat_map addrs l) ->
  find_in P (map (replace_node P new) l) = Some new.
Proof.
  induction l as [|c r IH]; intros Hall Hin; [destruct Hin|].
  cbn [map find_in].
  destruct (in_dec Z.eq_dec P (addrs c)) as [Hc|Hc].
  - now rewrite (Forall_inv Hall Hc).
  - rewrite replace_node_absent by exact Hc.
    rewrite (proj2 (find_node_None P c) Hc).
    apply IH; [exact (Forall_inv_tail Hall)|].
    cbn [flat_map] in Hin. apply in_app_or in Hin as [H|H];
      [contradiction | exact H].
Qed.

Lemma find_node_written (P : ptr) (new t : TreeNode) :
  this_addr new = P ->
  In P (addrs t) ->
  find_node P (replace_node P new t) = Some new.
Proof.
  intros Hnew. induction t as [a cs d p IH] using TreeNode_ind.
  intros Hin. rewrite replace_node_unfold. cbn [this_addr m_childNodes].
  destruct (Z.eqb_spec a P) as [E|E].
  - rewrite <- Hnew. apply find_node_self.
  - rewrite find_node_unfold. cbn [this_addr m_childNodes].
    replace (a =? P) with false by (symmetry; now apply Z.eqb_neq).
    apply find_in_written; [exact IH|].
    rewrite addrs_unfold in Hin. cbn [this_addr m_childNodes] in Hin.
    destruct Hin as [H|H]; [contradiction | exact H].
Qed.

Lemma deref_written (st : Store) (P : ptr) (new : TreeNode) :
  this_addr new = P ->
  In P (store_addrs st) ->
  deref (map (replace_node P new) st) P = Some new.
Proof.
  intros Hnew Hin. rewrite deref_find_in.
  apply find_in_written; [|exact Hin].
  apply Forall_forall. intros t _. now apply find_node_written.
Qed.

Lemma map_replace_twice (P : ptr) (x y : TreeNode) (st : Store) :
  this_addr y = P ->
  map (replace_node P x) (map (replace_node P y) st)
  = map (replace_node P x) st.
Proof.
  intros Hy. rewrite map_map. apply map_ext.
  intros t. now apply replace_node_twice.
Qed.

Lemma remove_again {A} (l : list A) (p n : nat) :
  (p < length l)%nat ->
  firstn p (firstn p l ++ skipn (S p) l)
    ++ skipn (p + n) (firstn p l ++ skipn (S p) l)
  = firstn p l ++ skipn (p + S n) l.
Proof.
  intros Hp.
  assert (Hlen : length (firstn p l) = p) by (rewrite length_firstn; lia).
  rewrite firstn_app, skipn_app, Hlen.
  rewrite (firstn_all2 (n := p) (firstn p l)) by lia.
  rewrite (skipn_all2 (n := (p + n)%nat) (firstn p l)) by lia.
  replace (p - p)%nat with O by lia.
  replace (p + n - p)%nat with n by lia.
  cbn [firstn app]. rewrite app_nil_r, skipn_skipn.
  do 2 f_equal. lia.
Qed.

(** What the loop of [removeRows] leaves: the node at [P] without the
    [n] children from row [r] on.  The memory is given as the result of
    the last write to [P]. *)
Lemma remove_loop_effect (P : ptr) (r : nat) (n : nat) :
  forall (w : World) (st0 : Store) (pn : TreeNode),
    heap w = map (replace_node P pn) st0 ->
    In P (store_addrs st0) ->
    this_addr pn = P ->
    (r + n <= length (m_childNodes pn))%nat ->
    remove_loop n P (Z.of_nat r) w =
    Some (tt,
          mkWorld
            (map (replace_node P
                    (set_children pn
                       (firstn r (m_childNodes pn)
                          ++ skipn (r + n) (m_childNodes pn))))
               st0)
            (next_addr w) (applicationPid w)
            (log w ++ repeat (ChildTaken P (Z.of_nat r)) n)).
Proof.
  induction n as [|n IH]; intros w st0 pn Hheap Hin Haddr Hlen.
  - cbn [remove_loop repeat]. unfold ret.
    rewrite Nat.add_0_r, firstn_skipn, app_nil_r.
    rewrite TreeNodeCompose.set_children_same, <- Hheap. now destruct w.
  - assert (Hpn : deref (heap w) P = Some pn)
      by (rewrite Hheap; now apply deref_written).
    cbn [remove_loop]. unfold bind at 1, call_takeChild. rewrite Hpn.
    unfold takeChild.
    replace ((0 <=? Z.of_nat r)
             && (Z.of_nat r <? Z.of_nat (length (m_childNodes pn))))
      with true
      by (symmetry; apply andb_true_intro; split;
          [apply Z.leb_le | apply Z.ltb_lt]; lia).
    rewrite Nat2Z.id.
    destruct (nth_error (m_childNodes pn) r) as [c|] eqn:Hc;
      [|apply nth_error_None in Hc; lia].
    set (pn1 := set_children pn
                  (firstn r (m_childNodes pn) ++ skipn (S r) (m_childNodes pn))).
    assert (Haddr1 : this_addr pn1 = P) by exact Haddr.
    rewrite (IH _ st0 pn1);
      cbn [heap next_addr applicationPid log].
    + unfold pn1. cbn [m_childNodes set_children].
      rewrite remove_again by lia.
      rewrite <- app_assoc. cbn [app repeat].
      reflexivity.
    + rewrite Hheap. now apply map_replace_twice.
    + exact Hin.
    + exact Haddr1.
    + unfold pn1. cbn [m_childNodes set_children].
      rewrite length_app, length_firstn, length_skipn. lia.
Qed.

Lemma nodeForIndex_after_write (m : nat) (parent : QModelIndex) (P Q : ptr)
  (cur : TreeNode) (w w' : World) :
  nodeForIndex m parent w = Some (P, w) ->
  heap w' = map (replace_node Q cur) (heap w) ->
  this_addr cur = Q ->
  nodeForIndex m parent w' = Some (P, w').
Proof.
  unfold nodeForIndex, rootNode_get, ret, lift. intros HP Hheap Hcur.
  destruct (isValid parent); [congruence|].
  rewrite Hheap, nth_error_map.
  destruct (nth_error (heap w) m) as [t|]; [|discriminate].
  cbn [option_map] in *. rewrite (replace_node_addr _ _ Hcur). congruence.
Qed.

(** [removeRows] on a memory given as the result of the last write to
    the parent node. *)
Lemma removeRows_core (m : nat) (w : World) (st0 : Store)
  (parent : QModelIndex) (P : ptr) (pn : TreeNode) (r count : nat) :
  heap w = map (replace_node P pn) st0 ->
  In P (store_addrs st0) ->
  this_addr pn = P ->
  nodeForIndex m parent w = Some (P, w) ->
  (r + count <= length (m_childNodes pn))%nat ->
  Z.of_nat (length (m_childNodes pn)) <= INT_MAX ->
  removeRows m (Z.of_nat r) (Z.of_nat count) parent w =
  Some (true,
        mkWorld
          (map (replace_node P
                  (set_children pn
                     (firstn r (m_childNodes pn)
                        ++ skipn (r + count) (m_childNodes pn))))
             st0)
          (next_addr w) (applicationPid w)
          (log w ++ remove_events parent P (Z.of_nat r) count
                      (Z.of_nat r + Z.of_nat count - 1))).
Proof.
  intros Hheap Hin Haddr HP Hlen Hfit.
  assert (Hpn : deref (heap w) P = Some pn)
    by (rewrite Hheap; now apply deref_written).
  unfold removeRows.
  replace (0 <=? Z.of_nat r) with true by (symmetry; apply Z.leb_le; lia).
  cbn [Q_ASSERT]. unfold bind at 1. cbn [ret].
  unfold bind at 1. rewrite HP.
  unfold bind at 1. unfold load at 1, lift. rewrite Hpn.
  rewrite childCount_small by exact Hfit.
  replace (Z.of_nat r <=? Z.of_nat (length (m_childNodes pn)) - Z.of_nat count)
    with true by (symmetry; apply Z.leb_le; lia).
  cbn [Q_ASSERT]. unfold bind at 1. cbn [ret].
  unfold bind at 1. cbn [emit].
  unfold bind at 1. rewrite Nat2Z.id.
  rewrite (@remove_loop_effect P r count _ st0 pn); try assumption.
  unfold bind, emit, ret. cbn [heap next_addr applicationPid log].
  unfold remove_events. now rewrite <- !app_assoc.
Qed.

(** X13.  [removeRows] takes exactly the rows [r .. r+count-1] out of the
    child sequence of the parent node, in one announced removal, keeps the
    other children in their order, and returns true; reading the parent node
    afterwards gives the shortened node. *)
Theorem removeRows_removes (m : nat) (w : World) (parent : QModelIndex)
  (P : ptr) (pn : TreeNode) (r count : nat) :
  wf_world w ->
  nodeForIndex m parent w = Some (P, w) ->
  deref (heap w) P = Some pn ->
  (r + count <= length (m_childNodes pn))%nat ->
  Z.of_nat (length (m_childNodes pn)) <= INT_MAX ->
  let pn' := set_children pn
               (firstn r (m_childNodes pn)
                  ++ skipn (r + count) (m_childNodes pn)) in
  exists w',
    removeRows m (Z.of_nat r) (Z.of_nat count) parent w = Some (true, w') /\
    heap w' = map (replace_node P pn') (heap w) /\
    deref (heap w') P = Some pn' /\
    childCount pn' = childCount pn - Z.of_nat count /\
    next_addr w' = next_addr w /\
    log w' = log w ++ remove_events parent P (Z.of_nat r) count
                        (Z.of_nat r + Z.of_nat count - 1).
Proof.
  intros Hwf HP Hpn Hlen Hfit pn'.
  destruct (deref_in_store _ _ Hpn) as [Hin Haddr].
  eexists. split.
  - apply (@removeRows_core m w (heap w) parent P pn r count);
      try assumption.
    symmetry. apply store_write_same; [apply Hwf | exact Hpn].
  - cbn [heap next_addr log]. split; [reflexivity|].
    split; [now apply deref_written|].
    split; [|split; reflexivity].
    assert (Hlen' : length (m_childNodes pn')
                    = (length (m_childNodes pn) - count)%nat).
    { unfold pn'. cbn [m_childNodes set_children].
      rewrite length_app, length_firstn, length_skipn. lia. }
    rewrite !childCount_small by lia. lia.
Qed.

Lemma removeRows_removes_witness :
  exists w',
    removeRows 0 1 1 InvalidIndex sample_world = Some (true, w') /\
    option_map (fun n => map this_addr (m_childNodes n)) (deref (heap w') 1)
    = Some [2] /\
    log w' = [BeginRemoveRows InvalidIndex 1 1; ChildTaken 1 1; EndRemoveRows].
Proof.
  destruct (@removeRows_removes 0 sample_world InvalidIndex 1 sample_root
              1%nat 1%nat sample_world_wf eq_refl eq_refl)
    as (w' & Hrun & _ & Hd & _ & _ & Hlog).
  - simpl. lia.
  - unfold INT_MAX. simpl. lia.
  - exists w'. split; [exact Hrun|]. split; [now rewrite Hd | exact Hlog].
Defined.

(** X14.  Undoing a drop: after an accepted drop of [n] nodes, [removeRows]
    for the [n] rows from the insertion point on, under the same parent,
    succeeds and leaves the memory of the models exactly as it was before
    the drop. *)
Theorem drop_then_removeRows_restores (m : nat) (w : World)
  (mimeData : QMimeData) (action : DropAction) (r column : Z)
  (parent : QModelIndex) (P : ptr) (pn : TreeNode) (ptrs : list Z) :
  wf_world w ->
  hasFormat mimeData s_mimeType = true ->
  mime_data mimeData s_mimeType
  = I64 (applicationPid w) :: I64 (Z.of_nat (length ptrs)) :: map I64 ptrs ->
  nodeForIndex m parent w = Some (P, w) ->
  deref (heap w) P = Some pn ->
  (forall p, In p ptrs -> deref (heap w) p <> None) ->
  Z.of_nat (length (m_childNodes pn) + length ptrs) <= INT_MAX ->
  r = -1 \/ 0 <= r <= Z.of_nat (length (m_childNodes pn)) ->
  exists w' w'',
    dropMimeData m mimeData action r column parent w = Some (true, w') /\
    removeRows m (Z.of_nat (insertion_point parent pn r))
      (Z.of_nat (length ptrs)) parent w' = Some (true, w'') /\
    heap w'' = heap w /\
    applicationPid w'' = applicationPid w.
Proof.
  intros Hwf Hfmt Hdata HP Hpn Hlive Hfit Hr.
  destruct (@drop_effect m w mimeData action r column parent P pn ptrs
              Hwf Hfmt Hdata HP Hpn Hlive ltac:(lia) Hr)
    as (news & w' & Hrun & Hheap & Hlen & _ & Hpid & _ & _ & _).
  set (k := insertion_point parent pn r) in *.
  assert (Hk : (k <= length (m_childNodes pn))%nat).
  { unfold k, insertion_point. destruct (r =? -1) eqn:E.
    - destruct (isValid parent); lia.
    - apply Z.eqb_neq in E. lia. }
  destruct (deref_in_store _ _ Hpn) as [Hin Haddr].
  assert (Hcur : this_addr (with_inserted pn k news) = P) by exact Haddr.
  exists w'. eexists. split; [exact Hrun|]. split.
  - apply (@removeRows_core m w' (heap w) parent P (with_inserted pn k news)
             k (length ptrs));
      try assumption.
    + eapply nodeForIndex_after_write; eassumption.
    + unfold with_inserted. cbn [m_childNodes set_children].
      rewrite !length_app, length_firstn, length_skipn. lia.
    + rewrite with_inserted_children_length. lia.
  - cbn [heap applicationPid]. split; [|exact Hpid].
    unfold with_inserted. cbn [m_childNodes set_children].
    rewrite <- Hlen, remove_inserted_rows by exact Hk.
    match goal with
    | |- map (replace_node P ?x) _ = _ =>
        replace x with pn by (now destruct pn)
    end.
    apply store_write_same; [apply Hwf | exact Hpn].
Qed.

Lemma drop_then_removeRows_restores_witness :
  exists w' w'',
    dropMimeData 1 (sample_payload [2; 3]) MoveAction (-1) (-1) InvalidIndex
      sample_world = Some (true, w') /\
    removeRows 1 0 2 InvalidIndex w' = Some (true, w'') /\
    heap w'' = heap sample_world /\
    applicationPid w'' = 777.
Proof.
  apply (@drop_then_removeRows_restores 1 sample_world (sample_payload [2; 3])
           MoveAction (-1) (-1) InvalidIndex 10
           (TreeNode_new 10 [QVString "Title"; QVString "Summary"] None)
           [2; 3] sample_world_wf);
    try reflexivity.
  - intros p [<-|[<-|[]]]; discriminate.
  - unfold INT_MAX. simpl. lia.
  - now left.
Defined.

(** X15.  Dragging nodes of a tree model and dropping them under a node of a
    tree model of the same process: the payload [mimeData] makes is accepted
    by [dropMimeData], one new child is made per distinct dragged node,
    however many indexes name it, and the new children hold, in the order of
    first selection, what the dragged nodes hold (for dragged nodes that do
    not contain the drop target). *)
Theorem tree_drag_then_drop (m : nat) (w : World)
  (indexes : list QModelIndex) (action : DropAction) (r column : Z)
  (parent : QModelIndex) (P : ptr) (pn : TreeNode) :
  wf_world w ->
  nodeForIndex m parent w = Some (P, w) ->
  deref (heap w) P = Some pn ->
  (forall i, In i indexes -> deref (heap w) (internalPointer i) <> None) ->
  Z.of_nat (length (m_childNodes pn)) <= INT_MAX ->
  r = -1 \/ 0 <= r <= Z.of_nat (length (m_childNodes pn)) ->
  let ptrs := first_occurrences (map internalPointer indexes) in
  exists payload news w',
    mimeData indexes w = Some (payload, w) /\
    dropMimeData m payload action r column parent w = Some (true, w') /\
    length news = length ptrs /\
    deref (heap w') P
    = Some (with_inserted pn (insertion_point parent pn r) news) /\
    (forall i p c orig,
        nth_error ptrs i = Some p ->
        nth_error news i = Some c ->
        deref (heap w) p = Some orig ->
        ~ In P (addrs orig) ->
        m_parentNode c = Some P /\ content c = content orig).
Proof.
  intros Hwf HP Hpn Hlive Hfit Hr ptrs.
  assert (Hlive' : forall p, In p ptrs -> deref (heap w) p <> None).
  { intros p Hp. unfold ptrs in Hp.
    apply (proj1 (first_occurrences_In _ _)) in Hp.
    apply in_map_iff in Hp as (i & <- & Hi). now apply Hlive. }
  destruct (@drop_effect m w
              (setData s_mimeType
                 (I64 (applicationPid w) :: I64 (Z.of_nat (length ptrs))
                    :: map I64 ptrs))
              action r column parent P pn ptrs
              Hwf (hasFormat_setData _ _) (mime_data_setData _ _)
              HP Hpn Hlive' Hfit Hr)
    as (news & w' & Hrun & Hheap & Hlen & _ & _ & _ & Hith & _).
  eexists. exists news, w'. split.
  - unfold mimeData, bind, getpid, ret.
    rewrite dedupe_first_occurrences. reflexivity.
  - split; [exact Hrun|]. split; [exact Hlen|]. split.
    + rewrite Hheap. destruct (deref_in_store _ _ Hpn) as [Hin Haddr].
      now apply deref_written.
    + intros i p c orig Hp Hc Horig Hout.
      destruct (Hith i p c orig Hp Hc Horig) as [Hpar Hcont].
      split; [exact Hpar|].
      now rewrite Hcont, replace_node_absent.
Qed.

Lemma tree_drag_then_drop_witness :
  exists payload news w',
    mimeData [Index 0 0 2; Index 0 1 2; Index 1 0 3] sample_world
    = Some (payload, sample_world) /\
    dropMimeData 1 payload CopyAction (-1) (-1) InvalidIndex sample_world
    = Some (true, w') /\
    length news = 2%nat /\
    deref (heap w') 10
    = Some (with_inserted
              (TreeNode_new 10 [QVString "Title"; QVString "Summary"] None)
              O news) /\
    (forall i p c orig,
        nth_error [2; 3] i = Some p ->
        nth_error news i = Some c ->
        deref (heap sample_world) p = Some orig ->
        ~ In 10 (addrs orig) ->
        m_parentNode c = Some 10 /\ content c = content orig).
Proof.
  apply (@tree_drag_then_drop 1 sample_world
           [Index 0 0 2; Index 0 1 2; Index 1 0 3] CopyAction (-1) (-1)
           InvalidIndex 10
           (TreeNode_new 10 [QVString "Title"; QVString "Summary"] None)
           sample_world_wf);
    try reflexivity.
  - intros i [<-|[<-|[<-|[]]]]; discriminate.
  - unfold INT_MAX. simpl. lia.
  - now left.
Defined.

End RemovalFacts.

(* ===================================================================== *)
(** ** The tree model: indexes and their parents *)

Module QueryFacts.
Import TreeNodes NodeOps Mime TreeModels TreeNodeFacts StoreFacts.
Import DropFacts NotifyFacts TreeQueries RemovalFacts.
Local Open Scope model_scope.

Lemma subtrees_unfold (t : TreeNode) :
  subtrees t = t :: flat_map subtrees (m_childNodes t).
Proof. destruct t; reflexivity. Qed.

Lemma subtree_addr (n t : TreeNode) :
  In n (subtrees t) -> In (this_addr n) (addrs t).
Proof.
  induction t as [a cs d p IH] using TreeNode_ind.
  rewrite subtrees_unfold, addrs_unfold. cbn [this_addr m_childNodes].
  intros [<-|Hin]; [now left|]. right.
  apply in_flat_map in Hin as (c & Hc & Hn).
  apply in_flat_map. exists c. split; [exact Hc|].
  rewrite Forall_forall in IH. now apply IH.
Qed.

Lemma subtrees_addr_list (n : TreeNode) (l : list TreeNode) :
  In n (flat_map subtrees l) -> In (this_addr n) (flat_map addrs l).
Proof.
  intros Hin. apply in_flat_map in Hin as (c & Hc & Hn).
  apply in_flat_map. exists c. split; [exact Hc | now apply subtree_addr].
Qed.

Lemma find_in_subtree (a : ptr) (n : TreeNode) (l : list TreeNode) :
  Forall (fun t => find_node a t = Some n -> In n (subtrees t)) l ->
  find_in a l = Some n -> In n (flat_map subtrees l).
Proof.
  induction l as [|c r IH]; intros Hall Hf; [discriminate|].
  cbn [find_in] in Hf. cbn [flat_map]. apply in_or_app.
  destruct (find_node a c) as [x|] eqn:E.
  - injection Hf as ->. left. exact (Forall_inv Hall E).
  - right. apply IH; [exact (Forall_inv_tail Hall) | exact Hf].
Qed.

Lemma find_node_subtree (a : ptr) (t n : TreeNode) :
  find_node a t = Some n -> In n (subtrees t).
Proof.
  induction t as [b cs d p IH] using TreeNode_ind.
  rewrite find_node_unfold, subtrees_unfold. cbn [this_addr m_childNodes].
  destruct (b =? a).
  - intros [= <-]. now left.
  - intros Hf. right. eapply find_in_subtree; [exact IH | exact Hf].
Qed.

Lemma deref_subtree (st : Store) (a : ptr) (n : TreeNode) :
  deref st a = Some n -> exists t, In t st /\ In n (subtrees t).
Proof.
  induction st as [|t r IH]; [discriminate|]. cbn [deref].
  destruct (find_node a t) as [x|] eqn:E.
  - intros [= <-]. exists t. split; [now left | now apply find_node_subtree in E].
  - intros H. destruct (IH H) as (t' & Ht' & Hn). exists t'. split; auto.
    now right.
Qed.

Lemma subtree_found_list (n : TreeNode) (l : list TreeNode) :
  Forall (fun t => NoDup (addrs t) -> In n (subtrees t) ->
                   find_node (this_addr n) t = Some n) l ->
  NoDup (flat_map addrs l) ->
  In n (flat_map subtrees l) ->
  find_in (this_addr n) l = Some n.
Proof.
  induction l as [|c r IH]; intros Hall Hnd Hin; [destruct Hin|].
  cbn [flat_map] in Hnd, Hin. cbn [find_in].
  apply NoDup_app_inv in Hnd as (Hc & Hr & Hdisj).
  apply in_app_or in Hin as [Hin|Hin].
  - now rewrite (Forall_inv Hall Hc Hin).
  - assert (Hout : ~ In (this_addr n) (addrs c)).
    { intros H. apply (Hdisj _ H). now apply subtrees_addr_list. }
    rewrite (proj2 (find_node_None _ _) Hout).
    apply IH; [exact (Forall_inv_tail Hall) | exact Hr | exact Hin].
Qed.

Lemma subtree_found (t n : TreeNode) :
  NoDup (addrs t) -> In n (subtrees t) ->
  find_node (this_addr n) t = Some n.
Proof.
  induction t as [a cs d p IH] using TreeNode_ind.
  rewrite subtrees_unfold, addrs_unfold. cbn [this_addr m_childNodes].
  intros Hnd [<-|Hin].
  - apply (find_node_self (mkTreeNode a cs d p)).
  - apply NoDup_cons_iff in Hnd as [Ha Hcs].
    rewrite find_node_unfold. cbn [this_addr m_childNodes].
    replace (a =? this_addr n) with false.
    + now apply subtree_found_list.
    + symmetry. apply Z.eqb_neq. intros ->. apply Ha.
      now apply subtrees_addr_list.
Qed.

Lemma deref_subtree_found (st : Store) (t n : TreeNode) :
  NoDup (store_addrs st) -> In t st -> In n (subtrees t) ->
  deref st (this_addr n) = Some n.
Proof.
  intros Hnd Ht Hn. rewrite deref_find_in.
  apply subtree_found_list; [|exact Hnd|].
  - apply Forall_forall. intros x _. apply subtree_found.
  - apply in_flat_map. now exists t.
Qed.

Lemma child_subtree (t n c : TreeNode) :
  In n (subtrees t) -> In c (m_childNodes n) -> In c (subtrees t).
Proof.
  induction t as [a cs d p IH] using TreeNode_ind.
  rewrite subtrees_unfold. cbn [m_childNodes].
  intros [<-|Hin] Hc.
  - right. cbn [m_childNodes] in Hc. apply in_flat_map. exists c.
    split; [exact Hc|]. rewrite subtrees_unfold. now left.
  - right. apply in_flat_map in Hin as (x & Hx & Hn).
    apply in_flat_map. exists x. split; [exact Hx|].
    rewrite Forall_forall in IH. now apply IH.
Qed.

Lemma subtree_cases (t n : TreeNode) :
  In n (subtrees t) ->
  n = t \/ exists g, In g (subtrees t) /\ In n (m_childNodes g).
Proof.
  induction t as [a cs d p IH] using TreeNode_ind.
  rewrite subtrees_unfold. cbn [m_childNodes].
  intros [<-|Hin]; [now left|]. right.
  apply in_flat_map in Hin as (x & Hx & Hn).
  rewrite Forall_forall in IH.
  destruct (IH x Hx Hn) as [->|(g & Hg & Hng)].
  - exists (mkTreeNode a cs d p). split; [now left | exact Hx].
  - exists g. split; [|exact Hng]. right.
    apply in_flat_map. now exists x.
Qed.

Lemma parents_ok_child (n c : TreeNode) :
  parents_ok n = true -> In c (m_childNodes n) ->
  m_parentNode c = Some (this_addr n) /\ parents_ok c = true.
Proof.
  rewrite parents_ok_unfold, forallb_forall. intros H Hc.
  apply H in Hc. apply andb_prop in Hc as [H1 H2].
  split; [now apply opt_ptr_eqb_eq | exact H2].
Qed.

Lemma parents_ok_subtree (t n : TreeNode) :
  parents_ok t = true -> In n (subtrees t) -> parents_ok n = true.
Proof.
  induction t as [a cs d p IH] using TreeNode_ind.
  rewrite subtrees_unfold. cbn [m_childNodes].
  intros Hok [<-|Hin]; [exact Hok|].
  apply in_flat_map in Hin as (x & Hx & Hn).
  rewrite Forall_forall in IH. apply (IH x Hx); [|exact Hn].
  exact (proj2 (@parents_ok_child (mkTreeNode a cs d p) x Hok Hx)).
Qed.

(** What [rowCount], [columnCount] and [hasIndex] read for the node an
    index names. *)
Lemma rowCount_of (m : nat) (w : World) (parent : QModelIndex) (P : ptr)
  (pn : TreeNode) :
  nodeForIndex m parent w = Some (P, w) ->
  deref (heap w) P = Some pn ->
  rowCount m parent w
  = Some ((if index_column parent >? 0 then 0 else childCount pn), w).
Proof.
  intros HP Hpn. unfold rowCount.
  destruct (index_column parent >? 0); [reflexivity|].
  unfold bind. rewrite HP. unfold load, lift. now rewrite Hpn.
Qed.

Lemma columnCount_of (m : nat) (w : World) (parent : QModelIndex) (P : ptr)
  (pn : TreeNode) :
  nodeForIndex m parent w = Some (P, w) ->
  deref (heap w) P = Some pn ->
  TreeQueries.columnCount m parent w = Some (TreeNodes.columnCount pn, w).
Proof.
  unfold nodeForIndex, TreeQueries.columnCount. intros HP Hpn.
  destruct (isValid parent).
  - injection HP as HP. unfold bind, load, lift. now rewrite HP, Hpn.
  - unfold bind. rewrite HP. unfold load, lift. now rewrite Hpn.
Qed.

Lemma index_names_child_core (m : nat) (w : World) (parent : QModelIndex)
  (P : ptr) (pn : TreeNode) (r column : Z) :
  nodeForIndex m parent w = Some (P, w) ->
  deref (heap w) P = Some pn ->
  Z.of_nat (length (m_childNodes pn)) <= INT_MAX ->
  (in_range pn r column = true -> index_column parent <= 0 ->
   exists ch,
     nth_error (m_childNodes pn) (Z.to_nat r) = Some ch /\
     index m r column parent w = Some (Index r column (this_addr ch), w)) /\
  (in_range pn r column = false \/ index_column parent > 0 ->
   index m r column parent w = Some (InvalidIndex, w)).
Proof.
  intros HP Hpn Hfit.
  pose proof (rowCount_of m parent HP Hpn) as Hrows.
  pose proof (columnCount_of m parent HP Hpn) as Hcols.
  unfold in_range, index, hasIndex. split.
  - intros Hin Hcol.
    apply andb_prop in Hin as [Hin Hc2]. apply andb_prop in Hin as [Hin Hc1].
    apply andb_prop in Hin as [Hr1 Hr2].
    replace (index_column parent >? 0) with false in Hrows
      by (symmetry; rewrite Z.gtb_ltb; apply Z.ltb_ge; lia).
    assert (Hch : exists ch, nth_error (m_childNodes pn) (Z.to_nat r) = Some ch).
    { destruct (nth_error (m_childNodes pn) (Z.to_nat r)) eqn:E; eauto.
      apply nth_error_None in E.
      rewrite childCount_small in Hr2 by exact Hfit. lia. }
    destruct Hch as [ch Hch]. exists ch. split; [exact Hch|].
    replace (r <? 0) with false by (symmetry; apply Z.ltb_ge; lia).
    replace (column <? 0) with false by (symmetry; apply Z.ltb_ge; lia).
    cbn [orb]. unfold bind at 1. unfold bind at 1. rewrite Hrows, Hr2.
    unfold bind at 1. rewrite Hcols. cbn [ret]. rewrite Hc2. cbn [negb].
    unfold bind at 1. rewrite HP. unfold bind, load, lift. rewrite Hpn.
    unfold child. rewrite Hr1, Hr2. cbn [andb]. now rewrite Hch.
  - intros Hout.
    destruct (Z.ltb_spec r 0) as [Hr|Hr]; [reflexivity|].
    destruct (Z.ltb_spec column 0) as [Hc|Hc]; [reflexivity|].
    cbn [orb]. unfold bind at 1. unfold bind at 1. rewrite Hrows.
    destruct (index_column parent >? 0) eqn:Hpc.
    + replace (r <? 0) with false by (symmetry; apply Z.ltb_ge; lia).
      reflexivity.
    + destruct (r <? childCount pn) eqn:Hr2; [|reflexivity].
      unfold bind at 1. rewrite Hcols. cbn [ret].
      destruct (column <? TreeNodes.columnCount pn) eqn:Hc2; [|reflexivity].
      exfalso. destruct Hout as [Hout|Hout].
      * replace (0 <=? r) with true in Hout by (symmetry; apply Z.leb_le; lia).
        replace (0 <=? column) with true in Hout
          by (symmetry; apply Z.leb_le; lia).
        discriminate Hout.
      * rewrite Z.gtb_ltb in Hpc. apply Z.ltb_ge in Hpc. lia.
Qed.

(** X16.  [TreeModel::index] gives a valid index exactly for the rows and
    columns that exist under the parent, and then the index carries the row,
    the column and the address of the child at that row; outside that range,
    and under a parent index of a column other than the first, it gives the
    invalid index. *)
Theorem index_names_child (m : nat) (w : World) (parent : QModelIndex)
  (P : ptr) (pn : TreeNode) (r column : Z) :
  nodeForIndex m parent w = Some (P, w) ->
  deref (heap w) P = Some pn ->
  Z.of_nat (length (m_childNodes pn)) <= INT_MAX ->
  (in_range pn r column = true -> index_column parent <= 0 ->
   exists ch,
     nth_error (m_childNodes pn) (Z.to_nat r) = Some ch /\
     index m r column parent w = Some (Index r column (this_addr ch), w)) /\
  (in_range pn r column = false \/ index_column parent > 0 ->
   index m r column parent w = Some (InvalidIndex, w)).
Proof. apply index_names_child_core. Qed.

Lemma index_names_child_witness :
  (exists ch,
      nth_error (m_childNodes sample_root) 1 = Some ch /\
      index 0 1 1 InvalidIndex sample_world
      = Some (Index 1 1 (this_addr ch), sample_world)) /\
  index 0 2 0 InvalidIndex sample_world = Some (InvalidIndex, sample_world).
Proof.
  assert (Hfit : Z.of_nat (length (m_childNodes sample_root)) <= INT_MAX)
    by (unfold INT_MAX; simpl; lia).
  split.
  - apply (proj1 (@index_names_child 0 sample_world InvalidIndex 1 sample_root
                    1 1 eq_refl eq_refl Hfit));
      [reflexivity | simpl; lia].
  - apply (proj2 (@index_names_child 0 sample_world InvalidIndex 1 sample_root
                    2 0 eq_refl eq_refl Hfit)).
    now left.
Defined.

Lemma sample_world_ok : store_ok sample_world.
Proof.
  split; [split; [apply sample_world_wf | reflexivity]|].
  repeat constructor.
Qed.

(** In a consistent memory [row()] is defined for every node. *)
Lemma row_defined (w : World) (P : ptr) (pn : TreeNode) :
  store_ok w -> deref (heap w) P = Some pn ->
  exists rv, call_row P w = Some (rv, w).
Proof.
  intros [[Hwf _] Hroots] Hpn. unfold call_row. rewrite Hpn. unfold row, lift.
  destruct (m_parentNode pn) as [gp|] eqn:Hgp; [|eauto].
  destruct (deref_subtree _ _ Hpn) as (t & Ht & Hn).
  rewrite Forall_forall in Hroots. destruct (Hroots t Ht) as [Hok Hnone].
  destruct (subtree_cases _ _ Hn) as [->|(g & Hg & Hc)]; [congruence|].
  pose proof (parents_ok_subtree _ _ Hok Hg) as Hgok.
  destruct (parents_ok_child _ _ Hgok Hc) as [Hpar _].
  assert (Hgp' : gp = this_addr g) by congruence.
  rewrite Hgp', (@deref_subtree_found _ _ _ (proj1 Hwf) Ht Hg).
  destruct (find_index _ _); eauto.
Qed.

(** X17.  In a consistent memory the model's [parent] undoes [index]: for a
    row and column that exist under [parent], the index [index] makes names
    a live child, and [parent] of that index names the node [parent] names;
    it is the invalid index exactly when that node is the root of the model.
    Neither call changes anything. *)
Theorem parent_of_index (m : nat) (w : World) (root : ptr)
  (parent : QModelIndex) (P : ptr) (pn : TreeNode) (r column : Z) :
  store_ok w ->
  rootNode_get m w = Some (root, w) ->
  nodeForIndex m parent w = Some (P, w) ->
  deref (heap w) P = Some pn ->
  Z.of_nat (length (m_childNodes pn)) <= INT_MAX ->
  index_column parent <= 0 ->
  in_range pn r column = true ->
  exists ch pidx,
    index m r column parent w = Some (Index r column (this_addr ch), w) /\
    deref (heap w) (this_addr ch) = Some ch /\
    child pn r = Some ch /\
    parent_index m (Index r column (this_addr ch)) w = Some (pidx, w) /\
    node_named root pidx = P /\
    (pidx = InvalidIndex <-> P = root).
Proof.
  intros Hok Hroot HP Hpn Hfit Hcol Hin.
  destruct (proj1 (@index_names_child_core m w parent P pn r column HP Hpn Hfit)
              Hin Hcol) as (ch & Hch & Hidx).
  pose proof Hok as [[Hwf _] Hroots].
  destruct (deref_subtree _ _ Hpn) as (t & Ht & Hn).
  pose proof (proj1 (Forall_forall _ _) Hroots t Ht) as [Htok _].
  pose proof (parents_ok_subtree _ _ Htok Hn) as Hpnok.
  assert (Hc : In ch (m_childNodes pn)) by (eapply nth_error_In; exact Hch).
  destruct (parents_ok_child _ _ Hpnok Hc) as [Hpar _].
  destruct (deref_in_store _ _ Hpn) as [_ Haddr]. rewrite Haddr in Hpar.
  assert (Hlive : deref (heap w) (this_addr ch) = Some ch).
  { eapply deref_subtree_found; [apply Hwf | exact Ht |].
    eapply child_subtree; eassumption. }
  destruct (@row_defined w P pn Hok Hpn) as [rv Hrow].
  assert (Hchild : child pn r = Some ch).
  { unfold in_range in Hin.
    apply andb_prop in Hin as [Hin _]. apply andb_prop in Hin as [Hin _].
    unfold child. now rewrite Hin. }
  exists ch.
  exists (if negb (P =? root) then Index rv 0 P else InvalidIndex).
  split; [exact Hidx|]. split; [exact Hlive|]. split; [exact Hchild|].
  split.
  - unfold parent_index. cbn [isValid negb internalPointer].
    unfold bind at 1. unfold load at 1, lift. rewrite Hlive.
    unfold parentNode. rewrite Hpar.
    unfold indexForItem, bind. rewrite Hroot.
    destruct (negb (P =? root)); [now rewrite Hrow | reflexivity].
  - unfold node_named.
    destruct (Z.eqb_spec P root) as [E|E]; cbn [negb isValid internalPointer].
    + split; [congruence | tauto].
    + split; [reflexivity|]. split; [discriminate | contradiction].
Qed.

Lemma parent_of_index_witness :
  exists ch pidx,
    index 0 0 0 (Index 0 0 2) sample_world
    = Some (Index 0 0 (this_addr ch), sample_world) /\
    deref (heap sample_world) (this_addr ch) = Some ch /\
    child (appendChild (TreeNode_new 2 [QVString "A"] (Some 1))
             (TreeNode_new 4 [QVString "A1"] (Some 2))) 0 = Some ch /\
    parent_index 0 (Index 0 0 (this_addr ch)) sample_world
    = Some (pidx, sample_world) /\
    node_named 1 pidx = 2 /\
    (pidx = InvalidIndex <-> 2 = 1).
Proof.
  apply (@parent_of_index 0 sample_world 1 (Index 0 0 2) 2
           (appendChild (TreeNode_new 2 [QVString "A"] (Some 1))
              (TreeNode_new 4 [QVString "A1"] (Some 2)))
           0 0);
    try reflexivity.
  - apply sample_world_ok.
  - unfold INT_MAX. simpl. lia.
Defined.

End QueryFacts.

(* ===================================================================== *)
(** ** The tree model: the handlers keep the memory consistent *)

Module InvariantFacts.
Import TreeNodes NodeOps Mime TreeModels TreeNodeFacts StoreFacts.
Import DropFacts NotifyFacts TreeQueries RemovalFacts QueryFacts.
Local Open Scope model_scope.

(** *** Clones *)

Lemma clone_children_wf (parent : ptr) (l : list TreeNode) :
  Forall clone_wf l ->
  forall nx,
    NoDup (flat_map addrs (fst (clone_children parent l nx))) /\
    forallb (fun c => opt_ptr_eqb (m_parentNode c) (Some parent)
                      && parents_ok c)
      (fst (clone_children parent l nx)) = true.
Proof.
  induction l as [|c r IH]; intros Hall nx; cbn [clone_children].
  - split; [constructor | reflexivity].
  - pose proof (Forall_inv Hall (Some parent) nx) as [Hnd Hok].
    pose proof (clone_node_ok c (Some parent) nx) as Hc. cbv zeta in Hc.
    destruct (clone_node c (Some parent) nx) as [c' nx1].
    cbn [fst snd] in Hnd, Hok, Hc.
    destruct Hc as (_ & Hpar & _ & Hlt & Hrange).
    destruct (IH (Forall_inv_tail Hall) nx1) as [Hnd' Hok'].
    assert (Hall' : Forall clone_ok r)
      by (apply Forall_forall; intros; apply clone_node_ok).
    pose proof (clone_children_ok parent Hall' nx1) as Hr. cbv zeta in Hr.
    destruct (clone_children parent r nx1) as [r' nx2].
    cbn [fst snd] in *. destruct Hr as (_ & _ & Hrange').
    split.
    + cbn [flat_map]. apply NoDup_app; [exact Hnd | exact Hnd' |].
      intros a Ha Ha'. rewrite Forall_forall in Hrange, Hrange'.
      specialize (Hrange a Ha). specialize (Hrange' a Ha'). lia.
    + cbn [forallb]. rewrite Hpar, Hok, Hok'.
      now rewrite (proj2 (opt_ptr_eqb_eq _ _) eq_refl).
Qed.

Lemma clone_node_wf (n : TreeNode) : clone_wf n.
Proof.
  induction n as [a cs d p IH] using TreeNode_ind.
  intros parent next. rewrite clone_node_unfold.
  cbn [fst m_childNodes m_itemData].
  destruct (clone_children_wf next IH (next + 1)) as [Hnd Hok].
  assert (Hall : Forall clone_ok cs)
    by (apply Forall_forall; intros; apply clone_node_ok).
  pose proof (clone_children_ok next Hall (next + 1)) as Hr. cbv zeta in Hr.
  destruct Hr as (_ & _ & Hrange).
  split.
  - rewrite addrs_unfold. cbn [this_addr m_childNodes].
    constructor; [|exact Hnd].
    intros Hin. rewrite Forall_forall in Hrange.
    specialize (Hrange _ Hin). lia.
  - rewrite parents_ok_unfold. exact Hok.
Qed.

(** *** The addresses in memory after a write through a pointer *)

Lemma perm_swap_tail {A} (x y z rem add : list A) :
  Permutation (x ++ rem) (y ++ add) ->
  Permutation ((x ++ z) ++ rem) ((y ++ z) ++ add).
Proof.
  intros H.
  transitivity ((x ++ rem) ++ z).
  - rewrite <- !app_assoc. apply Permutation_app_head, Permutation_app_comm.
  - transitivity ((y ++ add) ++ z).
    + now apply Permutation_app_tail.
    + rewrite <- !app_assoc. apply Permutation_app_head, Permutation_app_comm.
Qed.

Lemma map_replace_absent (P : ptr) (cur : TreeNode) (l : list TreeNode) :
  ~ In P (flat_map addrs l) -> map (replace_node P cur) l = l.
Proof.
  induction l as [|c r IH]; intros Hout; [reflexivity|].
  cbn [map flat_map] in *.
  rewrite replace_node_absent, IH; [reflexivity| |];
    intros H; apply Hout; apply in_or_app; auto.
Qed.

Lemma find_node_in (a : ptr) (t n : TreeNode) :
  find_node a t = Some n -> In a (addrs t).
Proof.
  intros H. destruct (in_dec Z.eq_dec a (addrs t)) as [Hin|Hout]; [exact Hin|].
  apply find_node_None in Hout. congruence.
Qed.

Section Write.
(** The object [this] at [P] is overwritten by [cur]; [rem] are the
    addresses that leave the memory with the write, [add] those that
    enter it. *)
Variables (P : ptr) (this cur : TreeNode) (rem add : list ptr).
Hypothesis cur_addr : this_addr cur = P.
Hypothesis cur_addrs : Permutation (addrs cur ++ rem) (addrs this ++ add).

Lemma addrs_written_list (l : list TreeNode) :
  Forall (fun t => NoDup (addrs t) -> find_node P t = Some this ->
                   Permutation (addrs (replace_node P cur t) ++ rem)
                     (addrs t ++ add)) l ->
  NoDup (flat_map addrs l) ->
  find_in P l = Some this ->
  Permutation (flat_map addrs (map (replace_node P cur) l) ++ rem)
    (flat_map addrs l ++ add).
Proof.
  induction l as [|c r IH]; intros Hall Hnd Hf; [discriminate|].
  cbn [map flat_map find_in] in *.
  apply NoDup_app_inv in Hnd as (Hc & Hr & Hdisj).
  destruct (find_node P c) as [x|] eqn:E.
  - injection Hf as ->.
    assert (Hout : ~ In P (flat_map addrs r))
      by (apply Hdisj; eapply find_node_in; exact E).
    rewrite (@map_replace_absent P cur r Hout).
    apply perm_swap_tail. exact (Forall_inv Hall Hc E).
  - rewrite replace_node_absent by (now apply find_node_None).
    rewrite <- !app_assoc. apply Permutation_app_head.
    apply IH; [exact (Forall_inv_tail Hall) | exact Hr | exact Hf].
Qed.

Lemma addrs_written (t : TreeNode) :
  NoDup (addrs t) -> find_node P t = Some this ->
  Permutation (addrs (replace_node P cur t) ++ rem) (addrs t ++ add).
Proof.
  induction t as [a cs d p IH] using TreeNode_ind.
  rewrite find_node_unfold, replace_node_unfold.
  cbn [this_addr m_childNodes m_itemData m_parentNode].
  destruct (a =? P).
  - intros _ [= <-]. exact cur_addrs.
  - rewrite !addrs_unfold. cbn [this_addr m_childNodes].
    intros Hnd Hf. apply NoDup_cons_iff in Hnd as [_ Hnd].
    cbn [app]. apply perm_skip. now apply addrs_written_list.
Qed.

Lemma store_addrs_written (st : Store) :
  NoDup (store_addrs st) -> deref st P = Some this ->
  Permutation (store_addrs (map (replace_node P cur) st) ++ rem)
    (store_addrs st ++ add).
Proof.
  intros Hnd Hf. rewrite deref_find_in in Hf.
  apply addrs_written_list; [|exact Hnd | exact Hf].
  apply Forall_forall. intros t _. apply addrs_written.
Qed.

(** *** Parent back-references after a write *)

Hypothesis cur_parent : m_parentNode cur = m_parentNode this.
Hypothesis cur_ok : parents_ok cur = true.

Lemma holds_at_most_in (l : list TreeNode) :
  NoDup (flat_map addrs l) ->
  find_in P l = Some this \/ ~ In P (flat_map addrs l) ->
  forall c, In c l -> holds_at_most P this c /\ NoDup (addrs c).
Proof.
  induction l as [|h r IH]; intros Hnd Hh c Hc; [destruct Hc|].
  destruct (@holds_at_most_cons P this h r Hnd Hh) as [Hhead Hrest].
  cbn [flat_map] in Hnd. apply NoDup_app_inv in Hnd as (Hnh & Hnr & _).
  destruct Hc as [<-|Hc]; [split; assumption|].
  now apply IH.
Qed.

Lemma parent_after_write (c : TreeNode) :
  holds_at_most P this c ->
  m_parentNode (replace_node P cur c) = m_parentNode c.
Proof.
  intros Hh. rewrite replace_node_unfold.
  destruct (Z.eqb_spec (this_addr c) P) as [E|E]; [|reflexivity].
  rewrite cur_parent. f_equal.
  destruct Hh as [Hf|Hout].
  - rewrite <- E, find_node_self in Hf. congruence.
  - exfalso. apply Hout. rewrite addrs_unfold, E. now left.
Qed.

Lemma parents_ok_written (t : TreeNode) :
  NoDup (addrs t) -> holds_at_most P this t ->
  parents_ok t = true -> parents_ok (replace_node P cur t) = true.
Proof.
  induction t as [a cs d p IH] using TreeNode_ind.
  intros Hnd Hh Hok. rewrite replace_node_unfold.
  cbn [this_addr m_childNodes m_itemData m_parentNode].
  destruct (Z.eqb_spec a P) as [E|E]; [exact cur_ok|].
  rewrite parents_ok_unfold. cbn [this_addr m_childNodes].
  rewrite addrs_unfold in Hnd. cbn [this_addr m_childNodes] in Hnd.
  apply NoDup_cons_iff in Hnd as [_ Hnd].
  assert (Hcs : find_in P cs = Some this \/ ~ In P (flat_map addrs cs)).
  { destruct Hh as [Hf|Hout].
    - left. rewrite find_node_unfold in Hf.
      cbn [this_addr m_childNodes] in Hf.
      now replace (a =? P) with false in Hf
        by (symmetry; now apply Z.eqb_neq).
    - right. intros H. apply Hout. rewrite addrs_unfold. now right. }
  apply forallb_forall. intros x Hx.
  apply in_map_iff in Hx as (c & <- & Hc).
  destruct (@holds_at_most_in cs Hnd Hcs c Hc) as [Hhc Hndc].
  destruct (@parents_ok_child (mkTreeNode a cs d p) c Hok Hc) as [Hpar Hokc].
  rewrite (@parent_after_write c Hhc), Hpar.
  cbn [this_addr]. rewrite (proj2 (opt_ptr_eqb_eq _ _) eq_refl).
  rewrite Forall_forall in IH. now rewrite (IH c Hc Hndc Hhc Hokc).
Qed.

(** *** The write keeps a consistent memory consistent *)

Lemma write_keeps_store_ok (w : World) (nx' pid : Z) (lg : list Event) :
  store_ok w ->
  deref (heap w) P = Some this ->
  NoDup add ->
  (forall a, In a add -> next_addr w <= a < nx') ->
  next_addr w <= nx' ->
  store_ok (mkWorld (map (replace_node P cur) (heap w)) nx' pid lg).
Proof.
  intros [[(Hnd & Hold & Hnull) Hpos] Hroots] Hthis Hadd Hfresh Hnx.
  pose proof (@store_addrs_written (heap w) Hnd Hthis) as Hperm.
  rewrite Forall_forall in Hold.
  assert (Hin : forall a,
             In a (store_addrs (map (replace_node P cur) (heap w))) ->
             In a (store_addrs (heap w)) \/ In a add).
  { intros a Ha. apply in_app_or.
    eapply Permutation_in; [exact Hperm|]. apply in_or_app. now left. }
  split; [split; [split; [|split]|]|]; cbn [heap next_addr].
  - apply (NoDup_app_remove_r _ rem).
    eapply Permutation_NoDup; [symmetry; exact Hperm|].
    apply NoDup_app; [exact Hnd | exact Hadd|].
    intros a Ha Ha'. specialize (Hold a Ha). specialize (Hfresh a Ha'). lia.
  - apply Forall_forall. intros a Ha.
    destruct (Hin a Ha) as [H|H];
      [specialize (Hold a H) | specialize (Hfresh a H)]; lia.
  - intros H0. destruct (Hin 0 H0) as [H|H]; [contradiction|].
    specialize (Hfresh 0 H). lia.
  - lia.
  - apply Forall_forall. intros x Hx.
    apply in_map_iff in Hx as (t & <- & Ht).
    rewrite Forall_forall in Hroots. destruct (Hroots t Ht) as [Hok Hnone].
    assert (Hst : find_in P (heap w) = Some this
                  \/ ~ In P (flat_map addrs (heap w)))
      by (left; now rewrite <- deref_find_in).
    destruct (@holds_at_most_in (heap w) Hnd Hst t Ht) as [Hh Hndt].
    split; [now apply parents_ok_written|].
    now rewrite parent_after_write.
Qed.
End Write.

Lemma store_ok_same_memory (w w' : World) :
  heap w' = heap w -> next_addr w' = next_addr w ->
  store_ok w -> store_ok w'.
Proof.
  unfold store_ok, wf_world. intros Hh Hn. now rewrite Hh, Hn.
Qed.

Lemma store_ok_parents (w : World) (P : ptr) (this : TreeNode) :
  store_ok w -> deref (heap w) P = Some this -> parents_ok this = true.
Proof.
  intros [_ Hroots] Hthis.
  destruct (deref_subtree _ _ Hthis) as (t & Ht & Hn).
  rewrite Forall_forall in Hroots.
  eapply parents_ok_subtree; [exact (proj1 (Hroots t Ht)) | exact Hn].
Qed.

(** Inserting a well-formed tree of new objects under a node. *)
Lemma insert_keeps (w : World) (P : ptr) (this this' c : TreeNode) (r : Z)
  (nx' pid : Z) (lg : list Event) :
  store_ok w ->
  deref (heap w) P = Some this ->
  insertChild this r c = Some this' ->
  NoDup (addrs c) ->
  parents_ok c = true ->
  (forall a, In a (addrs c) -> next_addr w <= a < nx') ->
  next_addr w <= nx' ->
  store_ok (mkWorld (map (replace_node P this') (heap w)) nx' pid lg).
Proof.
  intros Hok Hthis Hins Hndc Hokc Hfresh Hnx.
  apply insertChild_children in Hins as [Hr ->].
  destruct (deref_in_store _ _ Hthis) as [_ Haddr].
  pose proof (@store_ok_parents w P this Hok Hthis) as Hpok.
  apply (@write_keeps_store_ok P this _ [] (addrs c)); try assumption.
  - rewrite app_nil_r, (addrs_unfold this), (addrs_unfold (set_children _ _)).
    cbn [this_addr m_childNodes set_children]. cbn [app].
    apply perm_skip.
    rewrite <- (firstn_skipn (Z.to_nat r) (m_childNodes this)) at 3.
    rewrite !flat_map_app. cbn [flat_map]. rewrite addrs_set_parent.
    rewrite <- !app_assoc. apply Permutation_app_head, Permutation_app_comm.
  - reflexivity.
  - rewrite parents_ok_set_children, forallb_app. cbn [forallb].
    rewrite parents_ok_unfold in Hpok.
    rewrite (forallb_firstn_skipn _ (Z.to_nat r)) in Hpok.
    apply andb_prop in Hpok as [-> ->].
    rewrite parents_ok_set_parent, Hokc. cbn [m_parentNode set_parent].
    now rewrite (proj2 (opt_ptr_eqb_eq _ _) eq_refl).
Qed.

Lemma take_addrs (this this' c : TreeNode) (r : Z) :
  takeChild this r = Some (c, this') ->
  Permutation (addrs this' ++ addrs c) (addrs this ++ []).
Proof.
  intros Htake. apply takeChild_children in Htake as (Hr & Hc & ->).
  rewrite app_nil_r, (addrs_unfold this), (addrs_unfold (set_children _ _)).
  cbn [this_addr m_childNodes set_children]. cbn [app].
  apply perm_skip.
  rewrite <- (TreeNodeCompose.restore_taken _ _ Hc) at 3.
  set (k := Z.to_nat r) in *. set (cs := m_childNodes this) in *.
  assert (Hk : (k < length cs)%nat) by (apply nth_error_Some; congruence).
  assert (Hlen : length (firstn k cs) = k) by (rewrite length_firstn; lia).
  rewrite firstn_app, skipn_app, Hlen, Nat.sub_diag.
  rewrite (firstn_all2 (n := k) (firstn k cs)) by lia.
  rewrite (skipn_all2 (n := k) (firstn k cs)) by lia.
  cbn [firstn skipn app]. rewrite app_nil_r.
  rewrite !flat_map_app. cbn [flat_map].
  rewrite <- !app_assoc.
  apply Permutation_app_head, Permutation_app_comm.
Qed.

(** Detaching a child. *)
Lemma take_keeps (w : World) (P : ptr) (this this' c : TreeNode) (r : Z)
  (pid : Z) (lg : list Event) :
  store_ok w ->
  deref (heap w) P = Some this ->
  takeChild this r = Some (c, this') ->
  store_ok (mkWorld (map (replace_node P this') (heap w)) (next_addr w)
              pid lg).
Proof.
  intros Hok Hthis Htake.
  pose proof (take_addrs _ _ Htake) as Hperm.
  apply takeChild_children in Htake as (Hr & Hc & ->).
  pose proof (@store_ok_parents w P this Hok Hthis) as Hpok.
  apply (@write_keeps_store_ok P this _ (addrs c) []); try assumption.
  - reflexivity.
  - rewrite parents_ok_set_children, forallb_app.
    rewrite parents_ok_unfold in Hpok.
    rewrite (forallb_firstn_skipn _ (Z.to_nat r)) in Hpok.
    apply andb_prop in Hpok as [-> Hrest].
    rewrite (forallb_firstn_skipn _ 1) in Hrest.
    apply andb_prop in Hrest as [_ Hrest].
    now rewrite skipn_skipn in Hrest.
  - constructor.
  - intros a [].
  - lia.
Qed.

Lemma drop_loop_keeps (n : nat) :
  forall stream P parent r w w',
    store_ok w ->
    drop_loop n stream P parent r w = Some (tt, w') ->
    store_ok w'.
Proof.
  induction n as [|n IH]; intros stream P parent r w w' Hok Hrun.
  - cbn [drop_loop] in Hrun. unfold ret in Hrun. congruence.
  - destruct (read_i64 stream) as [[p rest]|] eqn:Hread;
      [|rewrite drop_loop_unread in Hrun by exact Hread; discriminate].
    rewrite (@drop_loop_turn n stream p rest P parent r w Hread) in Hrun.
    destruct (deref (heap w) p) as [src|] eqn:Hsrc; [|discriminate].
    destruct (deref (heap w) P) as [this|] eqn:Hthis; [|discriminate].
    destruct (insertChild this r _) as [this'|] eqn:Hins; [|discriminate].
    apply IH in Hrun; [exact Hrun|].
    pose proof (clone_node_ok src None (next_addr w)) as Hc. cbv zeta in Hc.
    destruct Hc as (_ & _ & _ & Hlt & Hrange).
    destruct (clone_node_wf src None (next_addr w)) as [Hnd Hcok].
    eapply insert_keeps; try eassumption; [|lia].
    intros a Ha. rewrite Forall_forall in Hrange. now apply Hrange.
Qed.

Lemma dropMimeData_keeps (m : nat) (w w' : World)
  (mimeData : QMimeData) (action : DropAction) (r column : Z)
  (parent : QModelIndex) (b : bool) :
  store_ok w ->
  dropMimeData m mimeData action r column parent w = Some (b, w') ->
  store_ok w'.
Proof.
  intros Hok. unfold dropMimeData.
  destruct (negb (hasFormat mimeData s_mimeType));
    [unfold ret; congruence|].
  intros H.
  apply bind_Some in H as ([senderPid stream] & w1 & H1 & H).
  apply reads_only_lift in H1 as ->.
  apply bind_Some in H as (pid & w1 & H1 & H).
  unfold getpid in H1. injection H1 as <- <-.
  destruct (negb (senderPid =? applicationPid w));
    [unfold ret in H; congruence|].
  apply bind_Some in H as (parentNode & w1 & H1 & H).
  apply reads_only_nodeForIndex in H1 as ->.
  apply bind_Some in H as (u & w1 & H1 & H).
  apply reads_only_Q_ASSERT in H1 as ->.
  apply bind_Some in H as ([count stream'] & w1 & H1 & H).
  apply reads_only_lift in H1 as ->.
  apply bind_Some in H as (r' & w1 & H1 & H).
  assert (Hw1 : w1 = w).
  { destruct (r =? -1); [destruct (isValid parent)|].
    - now apply reads_only_ret in H1.
    - now apply reads_only_rowCount in H1.
    - now apply reads_only_ret in H1. }
  rewrite Hw1 in H.
  apply bind_Some in H as ([] & w2 & H2 & H).
  unfold ret in H. injection H as _ <-.
  eapply drop_loop_keeps; eassumption.
Qed.

(** X18.  [dropMimeData] keeps the memory of the models consistent: whatever
    the payload, when the call returns, the objects still have distinct
    addresses below the allocator, none at the null address, every child
    names the node that owns it as its parent, and the roots have no parent. *)
Theorem dropMimeData_keeps_store_ok (m : nat) (w w' : World)
  (mimeData : QMimeData) (action : DropAction) (r column : Z)
  (parent : QModelIndex) (b : bool) :
  store_ok w ->
  dropMimeData m mimeData action r column parent w = Some (b, w') ->
  store_ok w'.
Proof. apply dropMimeData_keeps. Qed.

Lemma dropMimeData_keeps_store_ok_witness :
  exists w',
    dropMimeData 0 (sample_payload [2]) CopyAction (-1) 0 (Index 0 0 2)
      sample_world = Some (true, w') /\
    store_ok w'.
Proof.
  assert (H : exists w',
             dropMimeData 0 (sample_payload [2]) CopyAction (-1) 0
               (Index 0 0 2) sample_world = Some (true, w'))
    by (vm_compute; eexists; reflexivity).
  destruct H as [w' H]. exists w'. split; [exact H|].
  exact (@dropMimeData_keeps_store_ok 0 sample_world w' (sample_payload [2])
           CopyAction (-1) 0 (Index 0 0 2) true sample_world_ok H).
Defined.

Lemma call_takeChild_keeps (P : ptr) (r : Z) (w w' : World) (x : TreeNode) :
  store_ok w -> call_takeChild P r w = Some (x, w') -> store_ok w'.
Proof.
  intros Hok. unfold call_takeChild.
  destruct (deref (heap w) P) as [this|] eqn:Hthis; [|discriminate].
  destruct (takeChild this r) as [[c this']|] eqn:Htake; [|discriminate].
  intros [= _ <-]. eapply take_keeps; eassumption.
Qed.

Lemma remove_loop_keeps (n : nat) :
  forall P r w w',
    store_ok w -> remove_loop n P r w = Some (tt, w') -> store_ok w'.
Proof.
  induction n as [|n IH]; intros P r w w' Hok Hrun.
  - cbn [remove_loop] in Hrun. unfold ret in Hrun. congruence.
  - cbn [remove_loop] in Hrun.
    apply bind_Some in Hrun as (x & w1 & H1 & Hrun).
    eapply IH; [|exact Hrun]. eapply call_takeChild_keeps; eassumption.
Qed.

Lemma emit_keeps (e : Event) (w w' : World) (u : unit) :
  store_ok w -> emit e w = Some (u, w') -> store_ok w'.
Proof.
  intros Hok [= _ <-]. now apply (store_ok_same_memory (w := w)).
Qed.

(** X19.  [removeRows] and [removeNode] keep the memory of the models
    consistent: when either returns, the objects left have distinct
    addresses below the allocator, every child names its owner as parent,
    and the roots have no parent. *)
Theorem removal_keeps_store_ok (m : nat) (w w' : World) :
  store_ok w ->
  (forall r count parent b,
      removeRows m r count parent w = Some (b, w') -> store_ok w') /\
  (forall node ownedNode,
      removeNode m node w = Some (ownedNode, w') -> store_ok w').
Proof.
  intros Hok. split.
  - intros r count parent b H. unfold removeRows in H.
    apply bind_Some in H as (u & w1 & H1 & H).
    apply reads_only_Q_ASSERT in H1 as ->.
    apply bind_Some in H as (parentNode & w1 & H1 & H).
    apply reads_only_nodeForIndex in H1 as ->.
    apply bind_Some in H as (n & w1 & H1 & H).
    apply reads_only_load in H1 as ->.
    apply bind_Some in H as (u1 & w1 & H1 & H).
    apply reads_only_Q_ASSERT in H1 as ->.
    apply bind_Some in H as (u2 & w1 & H1 & H).
    apply (emit_keeps Hok) in H1.
    apply bind_Some in H as ([] & w2 & H2 & H).
    apply (remove_loop_keeps _ _ _ H1) in H2.
    apply bind_Some in H as (u3 & w3 & H3 & H).
    apply (emit_keeps H2) in H3.
    unfold ret in H. now injection H as _ <-.
  - intros node ownedNode H. unfold removeNode in H.
    apply bind_Some in H as (r & w1 & H1 & H).
    apply reads_only_call_row in H1 as ->.
    apply bind_Some in H as (idx & w1 & H1 & H).
    apply reads_only_indexForItem in H1 as ->.
    apply bind_Some in H as (pidx & w1 & H1 & H).
    apply reads_only_parent_index in H1 as ->.
    apply bind_Some in H as (u & w1 & H1 & H).
    apply (emit_keeps Hok) in H1.
    apply bind_Some in H as (n & w2 & H2 & H).
    apply reads_only_load in H2 as ->.
    destruct (parentNode n) as [p|]; [|discriminate].
    apply bind_Some in H as (owned & w3 & H3 & H).
    apply (call_takeChild_keeps _ _ H1) in H3.
    apply bind_Some in H as (u4 & w4 & H4 & H).
    apply (emit_keeps H3) in H4.
    unfold ret in H. now injection H as _ <-.
Qed.

Lemma removal_keeps_store_ok_witness :
  exists w' w'',
    removeRows 0 0 1 InvalidIndex sample_world = Some (true, w') /\
    store_ok w' /\
    removeNode 0 3 sample_world
    = Some (TreeNode_new 3 [QVString "B"] (Some 1), w'') /\
    store_ok w''.
Proof.
  assert (H1 : exists w',
             removeRows 0 0 1 InvalidIndex sample_world = Some (true, w'))
    by (vm_compute; eexists; reflexivity).
  assert (H2 : exists w'',
             removeNode 0 3 sample_world
             = Some (TreeNode_new 3 [QVString "B"] (Some 1), w''))
    by (vm_compute; eexists; reflexivity).
  destruct H1 as [w' H1]. destruct H2 as [w'' H2]. exists w', w''.
  split; [exact H1|]. split.
  - exact (proj1 (@removal_keeps_store_ok 0 sample_world w' sample_world_ok)
             0 1 InvalidIndex true H1).
  - split; [exact H2|].
    exact (proj2 (@removal_keeps_store_ok 0 sample_world w'' sample_world_ok)
             3 (TreeNode_new 3 [QVString "B"] (Some 1)) H2).
Defined.

End InvariantFacts.

(* ===================================================================== *)
(** ** The tree model: building the tree from text *)

Module SetupFacts.
Import TreeNodes NodeOps Mime TreeModels TreeNodeFacts StoreFacts.
Import DropFacts NotifyFacts TreeQueries RemovalFacts QueryFacts.
Import InvariantFacts TreeSetup.
Local Open Scope model_scope.

Lemma to_int_le (z : Z) : 0 <= z -> to_int z <= z.
Proof.
  intros Hz. unfold to_int.
  pose proof (Z.mod_le (z + 2 ^ 31) (2 ^ 32) ltac:(lia) ltac:(lia)). lia.
Qed.

Lemma last_child_live (lastParent : TreeNode) :
  (childCount lastParent >? 0) = true ->
  In (last_child lastParent) (addrs lastParent).
Proof.
  intros Hpos. rewrite Z.gtb_ltb in Hpos. apply Z.ltb_lt in Hpos.
  unfold last_child, child.
  replace ((0 <=? childCount lastParent - 1)
           && (childCount lastParent - 1 <? childCount lastParent))
    with true
    by (symmetry; apply andb_true_intro; split;
        [apply Z.leb_le | apply Z.ltb_lt]; lia).
  pose proof (@to_int_le (Z.of_nat (length (m_childNodes lastParent)))
                ltac:(lia)) as Hle.
  fold (childCount lastParent) in Hle.
  destruct (nth_error (m_childNodes lastParent)
              (Z.to_nat (childCount lastParent - 1))) as [c|] eqn:E;
    [|apply nth_error_None in E; lia].
  rewrite addrs_unfold. right.
  apply in_flat_map. exists c. split; [eapply nth_error_In; exact E|].
  rewrite addrs_unfold. now left.
Qed.

Lemma live_deref (st : Store) (a : ptr) :
  In a (store_addrs st) -> exists n, deref st a = Some n.
Proof.
  intros Hin. destruct (deref st a) as [n|] eqn:E; [eauto|].
  rewrite deref_find_in in E. apply find_in_None in E. contradiction.
Qed.

Lemma deref_addrs_live (st : Store) (a : ptr) (n : TreeNode) :
  deref st a = Some n -> incl (addrs n) (store_addrs st).
Proof. rewrite deref_find_in. intros H. now apply find_in_Some in H. Qed.

Lemma pop_deeper_ok (position : Z) (parent : ptr)
  (upper : list ParentIndentation) :
  0 <= position ->
  exists upper',
    pop_deeper position (upper ++ [mkParentIndentation parent 0])
    = Some (upper' ++ [mkParentIndentation parent 0]) /\
    incl upper' upper.
Proof.
  intros Hpos. induction upper as [|top rest IH]; cbn [app pop_deeper].
  - exists []. cbn [indentation].
    replace (position <? 0) with false by (symmetry; apply Z.ltb_ge; lia).
    split; [reflexivity | apply incl_refl].
  - destruct (position <? indentation top).
    + destruct IH as (upper' & -> & Hincl). exists upper'.
      split; [reflexivity | now apply incl_tl].
    + exists (top :: rest). split; [reflexivity | apply incl_refl].
Qed.

(** Appending a new node under a live node. *)
Lemma append_new_ok (w : World) (p : ptr) (data : QVariantList) :
  store_ok w ->
  In p (store_addrs (heap w)) ->
  exists w',
    call_appendChild_new p data w = Some (tt, w') /\
    store_ok w' /\
    Permutation (store_addrs (heap w'))
      (store_addrs (heap w) ++ [next_addr w]) /\
    applicationPid w' = applicationPid w /\ log w' = log w.
Proof.
  intros Hok Hin. destruct (live_deref _ _ Hin) as [this Hthis].
  unfold call_appendChild_new. rewrite Hthis. eexists.
  split; [reflexivity|].
  destruct (deref_in_store _ _ Hthis) as [_ Haddr].
  set (node := TreeNode_new (next_addr w) data (Some p)).
  assert (Hperm : Permutation (addrs (appendChild this node) ++ [])
                    (addrs this ++ [next_addr w])).
  { rewrite app_nil_r, (addrs_unfold this), (addrs_unfold (appendChild _ _)).
    cbn [this_addr m_childNodes appendChild set_children].
    rewrite flat_map_app. cbn [flat_map node TreeNode_new addrs this_addr
                                 m_childNodes app].
    reflexivity. }
  split; [|split; [|split; reflexivity]].
  - apply (@write_keeps_store_ok p this (appendChild this node) []
             [next_addr w]); try assumption.
    + reflexivity.
    + unfold appendChild. rewrite parents_ok_set_children, forallb_app.
      rewrite <- parents_ok_unfold, (@store_ok_parents w p this Hok Hthis).
      cbn [forallb node TreeNode_new m_parentNode andb]. rewrite Haddr.
      rewrite (proj2 (opt_ptr_eqb_eq _ _) eq_refl). reflexivity.
    + repeat constructor. intros [].
    + intros a [<-|[]]. lia.
    + lia.
  - cbn [heap]. rewrite <- (app_nil_r (store_addrs (map _ _))).
    apply (@store_addrs_written p this (appendChild this node) []
             [next_addr w] Hperm (heap w)); [apply Hok | exact Hthis].
Qed.

Lemma state_live_after (w w' : World) (state : list ParentIndentation) :
  (forall a, In a (store_addrs (heap w)) -> In a (store_addrs (heap w'))) ->
  state_ok w state -> state_ok w' state.
Proof.
  intros Hsub [Hlive Hshape]. split; [|exact Hshape].
  eapply Forall_impl; [|exact Hlive]. intros e. apply Hsub.
Qed.

(** One line: the loop body is defined, keeps the memory consistent and
    the list usable, and makes one object exactly when the line holds
    something besides white space. *)
Lemma setup_line_ok (line : string) (state : list ParentIndentation)
  (w : World) :
  store_ok w -> state_ok w state ->
  exists state' w',
    setup_line line state w = Some (state', w') /\
    store_ok w' /\ state_ok w' state' /\
    Permutation (store_addrs (heap w'))
      (store_addrs (heap w)
         ++ (if makes_node line then [next_addr w] else [])) /\
    next_addr w' = next_addr w + (if makes_node line then 1 else 0) /\
    applicationPid w' = applicationPid w /\ log w' = log w.
Proof.
  intros Hok Hst. unfold setup_line, makes_node.
  destruct (negb (isEmpty (trimmed (mid line (leading_spaces line))))).
  2:{ exists state, w. unfold ret. rewrite app_nil_r, Z.add_0_r. auto 10. }
  set (position := Z.of_nat (leading_spaces line)).
  set (columnData := map QVString _).
  assert (Hstate1 : exists state1,
             (top <- constLast state ;;
              if position >? indentation top
              then (lastParent <- load (pi_parent top) ;;
                    if childCount lastParent >? 0
                    then ret (mkParentIndentation (last_child lastParent)
                                position :: state)
                    else ret state)
              else lift (pop_deeper position state)) w
             = Some (state1, w) /\ state_ok w state1).
  { destruct Hst as [Hlive (upper & parent & ->)].
    unfold constLast, bind at 1, lift at 1.
    destruct (upper ++ [mkParentIndentation parent 0]) as [|top rest] eqn:E;
      [now destruct upper|].
    cbn [hd_error]. rewrite <- E in *.
    assert (Htop : In (pi_parent top) (store_addrs (heap w))).
    { rewrite Forall_forall in Hlive. apply Hlive. rewrite E. now left. }
    destruct (position >? indentation top).
    - destruct (live_deref _ _ Htop) as [lastParent Hlp].
      unfold bind, load, lift. rewrite Hlp.
      destruct (childCount lastParent >? 0) eqn:Hcc.
      + eexists. split; [reflexivity|]. split.
        * constructor; [|exact Hlive]. cbn [pi_parent].
          eapply deref_addrs_live; [exact Hlp|].
          now apply last_child_live.
        * exists (mkParentIndentation (last_child lastParent) position
                    :: upper), parent. reflexivity.
      + eexists. split; [reflexivity|]. split; [exact Hlive|eauto].
    - destruct (@pop_deeper_ok position parent upper ltac:(lia))
        as (upper' & Hpop & Hincl).
      unfold lift. rewrite Hpop. eexists. split; [reflexivity|]. split.
      + rewrite Forall_forall in *. intros e He. apply Hlive.
        apply in_app_or in He as [He|He]; apply in_or_app; auto.
      + eauto. }
  destruct Hstate1 as (state1 & Hrun1 & Hst1).
  unfold bind at 1. unfold bind at 1 in Hrun1.
  destruct (constLast state w) as [[top w0]|] eqn:Etop; [|discriminate].
  unfold bind at 1.
  rewrite Hrun1.
  destruct Hst1 as [Hlive1 Hshape1].
  destruct state1 as [|top1 rest1];
    [destruct Hshape1 as (u & p & Hu); now destruct u|].
  unfold bind at 1, constLast at 1, lift at 1. cbn [hd_error].
  destruct (@append_new_ok w (pi_parent top1) columnData Hok
              (Forall_inv Hlive1))
    as (w' & Hrun & Hok' & Hperm & Hpid & Hlog).
  unfold bind. rewrite Hrun. unfold ret.
  exists (top1 :: rest1), w'. split; [reflexivity|].
  split; [exact Hok'|]. split.
  - apply (@state_live_after w w'); [|split; assumption].
    intros a Ha. eapply Permutation_in; [symmetry; exact Hperm|].
    apply in_or_app. now left.
  - split; [exact Hperm|]. split; [|split; assumption].
    unfold call_appendChild_new in Hrun.
    destruct (deref (heap w) (pi_parent top1)); [|discriminate].
    now injection Hrun as <-.
Qed.

Lemma setup_lines_ok (lines : list string) :
  forall (state : list ParentIndentation) (w : World),
    store_ok w -> state_ok w state ->
    exists w',
      setup_lines lines state w = Some (tt, w') /\
      store_ok w' /\
      Permutation (store_addrs (heap w'))
        (store_addrs (heap w)
           ++ fresh_addrs (next_addr w) (length (filter makes_node lines))) /\
      next_addr w'
      = next_addr w + Z.of_nat (length (filter makes_node lines)) /\
      applicationPid w' = applicationPid w /\ log w' = log w.
Proof.
  induction lines as [|line rest IH]; intros state w Hok Hst.
  - exists w. cbn [setup_lines filter length fresh_addrs]. unfold ret.
    rewrite app_nil_r, Z.add_0_r. auto 10.
  - destruct (@setup_line_ok line state w Hok Hst)
      as (state1 & w1 & Hrun1 & Hok1 & Hst1 & Hperm1 & Hnx1 & Hpid1 & Hlog1).
    destruct (IH state1 w1 Hok1 Hst1)
      as (w' & Hrun & Hok' & Hperm & Hnx & Hpid & Hlog).
    exists w'. cbn [setup_lines]. unfold bind. rewrite Hrun1.
    split; [exact Hrun|]. split; [exact Hok'|].
    cbn [filter]. rewrite Hnx1 in Hperm, Hnx.
    destruct (makes_node line); cbn [length fresh_addrs].
    + split; [|split; [lia | split; congruence]].
      etransitivity; [exact Hperm|].
      change (next_addr w :: fresh_addrs (next_addr w + 1)
                               (length (filter makes_node rest)))
        with ([next_addr w] ++ fresh_addrs (next_addr w + 1)
                                 (length (filter makes_node rest))).
      rewrite app_assoc. now apply Permutation_app_tail.
    + rewrite Z.add_0_r in Hperm, Hnx. rewrite app_nil_r in Hperm1.
      split; [|split; [lia | split; congruence]].
      etransitivity; [exact Hperm|]. now apply Permutation_app_tail.
Qed.

(** X20.  [setupModelData] is defined for every list of lines when the
    memory is consistent and [parent] points at an object: it never reads
    through a dangling or null pointer and never empties its list of open
    parents. It leaves the memory consistent (distinct addresses, every
    child naming its owner as parent), makes exactly one new object per line
    that holds something besides white space, keeps every object that
    existed, and sends no notification. *)
Theorem setupModelData_builds (lines : list string) (parent : ptr)
  (w : World) :
  store_ok w ->
  In parent (store_addrs (heap w)) ->
  exists w',
    setupModelData lines parent w = Some (tt, w') /\
    store_ok w' /\
    Permutation (store_addrs (heap w'))
      (store_addrs (heap w)
         ++ fresh_addrs (next_addr w) (length (filter makes_node lines))) /\
    next_addr w' = next_addr w + Z.of_nat (length (filter makes_node lines)) /\
    applicationPid w' = applicationPid w /\ log w' = log w.
Proof.
  intros Hok Hin. apply setup_lines_ok; [exact Hok|].
  split; [repeat constructor; exact Hin|].
  now exists [], parent.
Qed.

Lemma setupModelData_builds_witness :
  exists w',
    setupModelData
      ["Getting Started"%string; "  Launching"%string; ""%string;
       "    Details"%string; "Reference"%string]
      10 sample_world = Some (tt, w') /\
    store_ok w' /\
    Permutation (store_addrs (heap w'))
      (store_addrs (heap sample_world) ++ [20; 21; 22; 23]) /\
    next_addr w' = 24 /\
    applicationPid w' = 777 /\ log w' = [].
Proof.
  apply (@setupModelData_builds
           ["Getting Started"%string; "  Launching"%string; ""%string;
            "    Details"%string; "Reference"%string]
           10 sample_world sample_world_ok).
  vm_compute. tauto.
Defined.

End SetupFacts.

(* ===================================================================== *)
(** ** The tree model: what a view reads after a drop *)

Module ViewFacts.
Import TreeNodes NodeOps Mime TreeModels TreeNodeFacts StoreFacts.
Import DropFacts NotifyFacts TreeQueries RemovalFacts QueryFacts.
Import InvariantFacts.
Local Open Scope model_scope.

Lemma content_columns (a b : TreeNode) :
  content a = content b -> m_itemData a = m_itemData b.
Proof. destruct a, b. cbn. now intros [= -> _]. Qed.

Lemma itemData_after_write (st : Store) (P p : ptr) (pn orig cur : TreeNode) :
  deref st P = Some pn ->
  deref st p = Some orig ->
  m_itemData cur = m_itemData pn ->
  m_itemData (replace_node P cur orig) = m_itemData orig.
Proof.
  intros Hpn Horig Hcur. rewrite replace_node_unfold.
  destruct (Z.eqb_spec (this_addr orig) P) as [E|E]; [|reflexivity].
  destruct (deref_in_store _ _ Horig) as [_ Hp].
  rewrite Hcur. f_equal. congruence.
Qed.

Lemma nth_error_inserted_rows {A} (l news : list A) (k i : nat) :
  (k <= length l)%nat ->
  nth_error (firstn k l ++ news ++ skipn k l) (k + i)
  = if (i <? length news)%nat then nth_error news i
    else nth_error (skipn k l) (i - length news).
Proof.
  intros Hk.
  assert (Hlen : length (firstn k l) = k) by (rewrite length_firstn; lia).
  rewrite nth_error_app2 by lia. rewrite Hlen.
  replace (k + i - k)%nat with i by lia.
  destruct (Nat.ltb_spec i (length news)).
  - now apply nth_error_app1.
  - now apply nth_error_app2.
Qed.

Lemma nodeForIndex_sibling (m : nat) (i : QModelIndex) (column : Z) :
  nodeForIndex m (siblingAtColumn i column) = nodeForIndex m i.
Proof. now destruct i. Qed.

(** X21.  After an accepted drop the model shows the dragged data: under the
    index the drop is announced with, the sibling in column 0 of the drop
    parent (the drop parent itself when that is invalid or in column 0),
    at the rows from the insertion point on, [index] gives valid indexes,
    one per dragged node in payload order, and [data] read through them
    gives, column by column, the values of the dragged nodes.  The columns
    are those the parent node has.  The drop parent may be a cell of any
    column. *)
Theorem dropped_rows_show_dragged_data (m : nat) (w : World)
  (mimeData : QMimeData) (action : DropAction) (r column : Z)
  (parent : QModelIndex) (P : ptr) (pn : TreeNode) (ptrs : list Z) :
  store_ok w ->
  hasFormat mimeData s_mimeType = true ->
  mime_data mimeData s_mimeType
  = I64 (applicationPid w) :: I64 (Z.of_nat (length ptrs)) :: map I64 ptrs ->
  nodeForIndex m parent w = Some (P, w) ->
  deref (heap w) P = Some pn ->
  (forall p, In p ptrs -> deref (heap w) p <> None) ->
  Z.of_nat (length (m_childNodes pn) + length ptrs) <= INT_MAX ->
  r = -1 \/ 0 <= r <= Z.of_nat (length (m_childNodes pn)) ->
  exists w',
    dropMimeData m mimeData action r column parent w = Some (true, w') /\
    forall i p orig col,
      nth_error ptrs i = Some p ->
      deref (heap w) p = Some orig ->
      0 <= col < TreeNodes.columnCount pn ->
      exists idx,
        index m (Z.of_nat (insertion_point parent pn r + i)) col
          (siblingAtColumn parent 0) w'
        = Some (idx, w') /\
        isValid idx = true /\
        TreeQueries.data idx true w' = Some (TreeNodes.data orig col, w').
Proof.
  intros Hok Hfmt Hdata HP Hpn Hlive Hfit Hr.
  pose proof Hok as [[Hwf _] _].
  destruct (@drop_effect m w mimeData action r column parent P pn ptrs
              Hwf Hfmt Hdata HP Hpn Hlive ltac:(lia) Hr)
    as (news & w' & Hrun & Hheap & Hlen & _ & _ & _ & Hith & _).
  set (k := insertion_point parent pn r) in *.
  assert (Hk : (k <= length (m_childNodes pn))%nat).
  { unfold k, insertion_point. destruct (r =? -1) eqn:E.
    - destruct (isValid parent); lia.
    - apply Z.eqb_neq in E. lia. }
  exists w'. split; [exact Hrun|].
  intros i p orig col Hp Horig Hc.
  destruct (deref_in_store _ _ Hpn) as [Hin Haddr].
  set (pn' := with_inserted pn k news).
  assert (Hpn' : deref (heap w') P = Some pn')
    by (rewrite Hheap; now apply deref_written).
  assert (HP' : nodeForIndex m (siblingAtColumn parent 0) w' = Some (P, w')).
  { rewrite nodeForIndex_sibling.
    eapply nodeForIndex_after_write; [exact HP | exact Hheap | exact Haddr]. }
  assert (Hcol : index_column (siblingAtColumn parent 0) <= 0)
    by (destruct parent; cbn; lia).
  assert (Hok' : store_ok w') by (eapply dropMimeData_keeps; eassumption).
  assert (Hi : (i < length news)%nat)
    by (rewrite Hlen; apply nth_error_Some; congruence).
  destruct (nth_error news i) as [c|] eqn:Hci;
    [|apply nth_error_None in Hci; lia].
  assert (Hrow : nth_error (m_childNodes pn') (k + i) = Some c).
  { unfold pn', with_inserted. cbn [m_childNodes set_children].
    rewrite nth_error_inserted_rows by exact Hk.
    now replace (i <? length news)%nat with true
      by (symmetry; apply Nat.ltb_lt; lia). }
  assert (Hlen' : length (m_childNodes pn')
                  = (length (m_childNodes pn) + length ptrs)%nat)
    by (unfold pn'; rewrite with_inserted_children_length; lia).
  assert (Hrange : in_range pn' (Z.of_nat (k + i)) col = true).
  { unfold in_range. rewrite childCount_small by lia.
    change (TreeNodes.columnCount pn') with (TreeNodes.columnCount pn).
    repeat (apply andb_true_intro; split);
      try apply Z.leb_le; try apply Z.ltb_lt; lia. }
  destruct (proj1 (@index_names_child_core m w' (siblingAtColumn parent 0)
                     P pn'
                     (Z.of_nat (k + i)) col HP' Hpn' ltac:(lia))
              Hrange Hcol) as (ch & Hch & Hidx).
  rewrite Nat2Z.id, Hrow in Hch. injection Hch as <-.
  exists (Index (Z.of_nat (k + i)) col (this_addr c)).
  split; [exact Hidx|]. split; [reflexivity|].
  assert (Hc_live : deref (heap w') (this_addr c) = Some c).
  { destruct (deref_subtree _ _ Hpn') as (t & Ht & Hn).
    eapply deref_subtree_found; [apply Hok' | exact Ht |].
    eapply child_subtree; [exact Hn|]. eapply nth_error_In; exact Hrow. }
  unfold TreeQueries.data. cbn [isValid negb orb internalPointer index_column].
  unfold bind, load, lift. rewrite Hc_live. unfold ret, TreeNodes.data.
  destruct (Hith i p c orig Hp Hci Horig) as [_ Hcont].
  apply content_columns in Hcont.
  rewrite Hcont.
  now rewrite (@itemData_after_write (heap w) P p pn orig _ Hpn Horig).
Qed.

Lemma dropped_rows_show_dragged_data_witness :
  exists w',
    dropMimeData 0 (sample_payload [3; 4]) CopyAction (-1) (-1) (Index 0 1 2)
      sample_world = Some (true, w') /\
    exists idx,
      index 0 1 0 (Index 0 0 2) w' = Some (idx, w') /\
      isValid idx = true /\
      TreeQueries.data idx true w' = Some (QVString "A1", w').
Proof.
  destruct (@dropped_rows_show_dragged_data 0 sample_world
              (sample_payload [3; 4]) CopyAction (-1) (-1) (Index 0 1 2) 2
              (appendChild (TreeNode_new 2 [QVString "A"] (Some 1))
                 (TreeNode_new 4 [QVString "A1"] (Some 2)))
              [3; 4] sample_world_ok eq_refl eq_refl eq_refl eq_refl)
    as (w' & Hrun & Hshow).
  - intros p [<-|[<-|[]]]; discriminate.
  - unfold INT_MAX. simpl. lia.
  - now left.
  - exists w'. split; [exact Hrun|].
    apply (Hshow 1%nat 4 (TreeNode_new 4 [QVString "A1"] (Some 2)) 0);
      [reflexivity | reflexivity |].
    unfold TreeNodes.columnCount. simpl. unfold to_int. simpl. lia.
Defined.

End ViewFacts.

(* ===================================================================== *)
(** ** The reordering example: what [moveRows] does to the rows *)

Module ReorderFacts.
Import Mime Folders Tables TableFacts Reorder.

Lemma firstn_exact {A} (l1 l2 : list A) : firstn (length l1) (l1 ++ l2) = l1.
Proof.
  rewrite firstn_app, Nat.sub_diag, firstn_all. cbn [firstn].
  apply app_nil_r.
Qed.

Lemma skipn_exact {A} (l1 l2 : list A) : skipn (length l1) (l1 ++ l2) = l2.
Proof.
  rewrite skipn_app, Nat.sub_diag, skipn_all. reflexivity.
Qed.

Lemma nth_error_middle {A} (l1 l2 : list A) (x : A) :
  nth_error (l1 ++ x :: l2) (length l1) = Some x.
Proof. rewrite nth_error_app2 by lia. now rewrite Nat.sub_diag. Qed.

Lemma remove_middle {A} (l1 l2 : list A) (x : A) :
  firstn (length l1) (l1 ++ x :: l2) ++ skipn (S (length l1)) (l1 ++ x :: l2)
  = l1 ++ l2.
Proof.
  rewrite firstn_exact. f_equal.
  change (S (length l1)) with (1 + length l1)%nat.
  rewrite <- skipn_skipn, skipn_exact. reflexivity.
Qed.

(** A move towards the front: the element behind [X] goes before [X]. *)
Lemma QList_move_up {A} (l0 X Y : list A) (b : A) :
  QList_move (l0 ++ X ++ b :: Y) (Z.of_nat (length l0 + length X))
    (Z.of_nat (length l0))
  = Some (l0 ++ b :: X ++ Y).
Proof.
  unfold QList_move. rewrite ?length_app. cbn [length]. rewrite ?length_app.
  match goal with
  | |- (if ?c then _ else _) = _ =>
      replace c with true
        by (symmetry; repeat (apply andb_true_intro; split);
            try apply Z.leb_le; try apply Z.ltb_lt; cbn [length]; lia)
  end.
  rewrite !Nat2Z.id.
  rewrite app_assoc, <- length_app, nth_error_middle, remove_middle.
  rewrite <- app_assoc, firstn_exact, skipn_exact. reflexivity.
Qed.

(** A move towards the back: the element before [M] goes behind [M]. *)
Lemma QList_move_down {A} (l0 M R : list A) (x : A) :
  QList_move (l0 ++ x :: M ++ R) (Z.of_nat (length l0))
    (Z.of_nat (length l0 + length M))
  = Some (l0 ++ M ++ x :: R).
Proof.
  unfold QList_move. rewrite ?length_app. cbn [length]. rewrite ?length_app.
  match goal with
  | |- (if ?c then _ else _) = _ =>
      replace c with true
        by (symmetry; repeat (apply andb_true_intro; split);
            try apply Z.leb_le; try apply Z.ltb_lt; lia)
  end.
  rewrite !Nat2Z.id.
  rewrite nth_error_middle, remove_middle.
  rewrite app_assoc, <- length_app, firstn_exact, skipn_exact.
  now rewrite <- app_assoc.
Qed.

Lemma QList_move_perm {A} (l l' : list A) (from to : Z) :
  QList_move l from to = Some l' -> Permutation l' l.
Proof.
  unfold QList_move.
  destruct ((0 <=? from) && (from <? Z.of_nat (length l))
            && (0 <=? to) && (to <? Z.of_nat (length l))); [|discriminate].
  destruct (nth_error l (Z.to_nat from)) as [x|] eqn:E; [|discriminate].
  intros [= <-].
  set (l1 := firstn (Z.to_nat from) l ++ skipn (S (Z.to_nat from)) l).
  transitivity (x :: l1).
  - symmetry. rewrite <- (firstn_skipn (Z.to_nat to) l1) at 1.
    apply Permutation_middle.
  - rewrite <- (TreeNodeCompose.restore_taken _ _ E). fold l1.
    transitivity (x :: firstn (Z.to_nat from) l1 ++ skipn (Z.to_nat from) l1);
      [now rewrite firstn_skipn | apply Permutation_middle].
Qed.

Lemma QList_move_defined {A} (l : list A) (from to : Z) :
  0 <= from < Z.of_nat (length l) -> 0 <= to < Z.of_nat (length l) ->
  exists l', QList_move l from to = Some l'.
Proof.
  intros Hf Ht. unfold QList_move.
  replace ((0 <=? from) && (from <? Z.of_nat (length l))
           && (0 <=? to) && (to <? Z.of_nat (length l))) with true
    by (symmetry; repeat (apply andb_true_intro; split);
        try apply Z.leb_le; try apply Z.ltb_lt; lia).
  destruct (nth_error l (Z.to_nat from)) eqn:E; [eauto|].
  apply nth_error_None in E. lia.
Qed.

Lemma move_loop_defined {A} (sourceRow destinationChild : Z) (n : nat) :
  forall (i : Z) (l : list A),
    0 <= sourceRow + i ->
    sourceRow + i + Z.of_nat n <= Z.of_nat (length l) ->
    0 <= destinationChild
         + (if sourceRow >? destinationChild then 0 else -1)
    < Z.of_nat (length l) ->
    exists l',
      move_loop n i l sourceRow destinationChild = Some l' /\
      Permutation l' l.
Proof.
  induction n as [|n IH]; intros i l Hlo Hhi Hto; cbn [move_loop].
  - exists l. split; [reflexivity | apply Permutation_refl].
  - destruct (@QList_move_defined A l (sourceRow + i)
                (destinationChild
                 + (if sourceRow >? destinationChild then 0 else -1))
                ltac:(lia) Hto) as [l1 Hmove].
    rewrite Hmove. pose proof (QList_move_perm _ _ _ Hmove) as Hperm.
    pose proof (Permutation_length Hperm) as Hlen.
    destruct (IH (i + 1) l1) as (l' & Hrun & Hperm'); try lia.
    exists l'. split; [exact Hrun|]. now transitivity l1.
Qed.

(** X22.  [moveRows] is defined for every range of rows of the model and
    every destination from 0 to the number of rows; it returns false and
    changes nothing exactly when the destination lies in the moved range or
    directly behind it, and otherwise returns true with the same rows in
    another order: no row is lost or duplicated. *)
Theorem moveRows_keeps_rows (m_data : list CountryData)
  (sourceRow count destinationChild : Z) :
  0 <= sourceRow -> 0 < count ->
  sourceRow + count <= Z.of_nat (length m_data) ->
  0 <= destinationChild <= Z.of_nat (length m_data) ->
  exists b m_data',
    moveRows m_data sourceRow count destinationChild = Some (b, m_data') /\
    Permutation m_data' m_data /\
    (b = false <-> sourceRow <= destinationChild <= sourceRow + count) /\
    (b = false -> m_data' = m_data).
Proof.
  intros Hs Hc Hlen Hd. unfold moveRows, beginMoveRows.
  replace ((0 <=? sourceRow) && (sourceRow <=? sourceRow + count - 1)
           && (0 <=? destinationChild)) with true
    by (symmetry; repeat (apply andb_true_intro; split); apply Z.leb_le; lia).
  destruct ((sourceRow <=? destinationChild)
            && (destinationChild <=? sourceRow + count - 1 + 1)) eqn:E;
    cbn [negb].
  - apply andb_prop in E as [E1 E2].
    apply Z.leb_le in E1. apply Z.leb_le in E2.
    exists false, m_data. split; [reflexivity|].
    split; [apply Permutation_refl|]. split; [|reflexivity].
    split; [lia | reflexivity].
  - assert (Hout : destinationChild < sourceRow
                   \/ sourceRow + count < destinationChild).
    { apply andb_false_iff in E as [E|E];
        [apply Z.leb_gt in E | apply Z.leb_gt in E]; lia. }
    destruct (@move_loop_defined CountryData sourceRow destinationChild
                (Z.to_nat count) 0 m_data) as (l' & Hrun & Hperm); try lia.
    { destruct (Z.gtb_spec sourceRow destinationChild); lia. }
    rewrite Hrun. exists true, l'. split; [reflexivity|].
    split; [exact Hperm|]. split; [|discriminate].
    split; [discriminate | lia].
Qed.

Lemma moveRows_keeps_rows_witness :
  exists b m_data',
    moveRows sample_countries 0 2 3 = Some (b, m_data') /\
    Permutation m_data' sample_countries /\
    (b = false <-> 0 <= 3 <= 0 + 2) /\
    (b = false -> m_data' = sample_countries).
Proof.
  apply (@moveRows_keeps_rows sample_countries 0 2 3); simpl; lia.
Defined.

Lemma firstn_succ {A} (l : list A) (i : nat) (b : A) :
  nth_error l i = Some b -> firstn (S i) l = firstn i l ++ [b].
Proof.
  revert i. induction l as [|h t IH]; intros [|i] H; simpl in *;
    try discriminate.
  - now injection H as ->.
  - f_equal. now apply IH.
Qed.

(** The loop for a block moved towards the front, after [i] turns. *)
Lemma move_loop_up {A} (l0 M B R : list A) (n : nat) :
  M <> [] ->
  forall i,
    (i + n = length B)%nat ->
    move_loop n (Z.of_nat i)
      (l0 ++ rev (firstn i B) ++ M ++ skipn i B ++ R)
      (Z.of_nat (length l0 + length M)) (Z.of_nat (length l0))
    = Some (l0 ++ rev B ++ M ++ R).
Proof.
  intros HM. induction n as [|n IH]; intros i Hi; cbn [move_loop].
  - replace i with (length B) by lia.
    now rewrite firstn_all, skipn_all.
  - destruct (nth_error B i) as [b|] eqn:Hb;
      [|apply nth_error_None in Hb; lia].
    rewrite (TableFacts.skipn_nth_error _ _ Hb).
    replace (Z.of_nat (length l0 + length M) >? Z.of_nat (length l0))
      with true
      by (symmetry; rewrite Z.gtb_ltb; apply Z.ltb_lt;
          destruct M; [congruence | cbn [length]; lia]).
    rewrite Z.add_0_r.
    replace (Z.of_nat (length l0 + length M) + Z.of_nat i)
      with (Z.of_nat (length l0 + length (rev (firstn i B) ++ M)))
      by (rewrite length_app, length_rev, length_firstn; lia).
    rewrite (app_assoc (rev (firstn i B)) M), <- app_comm_cons.
    rewrite QList_move_up.
    replace (Z.of_nat i + 1) with (Z.of_nat (S i)) by lia.
    rewrite <- (IH (S i)) by lia. f_equal. f_equal.
    rewrite (firstn_succ _ _ Hb), rev_app_distr. cbn [rev app].
    now rewrite <- !app_assoc.
Qed.

(** X23.  Moving one row: the row is taken out and lands directly before the
    row that was at the destination, whether the move is towards the front
    or towards the back; the other rows keep their order. *)
Theorem moveRows_one_row (l0 M R : list CountryData) (x : CountryData) :
  M <> [] ->
  moveRows (l0 ++ M ++ x :: R) (Z.of_nat (length l0 + length M)) 1
    (Z.of_nat (length l0))
  = Some (true, l0 ++ x :: M ++ R) /\
  moveRows (l0 ++ x :: M ++ R) (Z.of_nat (length l0)) 1
    (Z.of_nat (length l0 + 1 + length M))
  = Some (true, l0 ++ M ++ x :: R).
Proof.
  intros HM.
  assert (HlenM : (0 < length M)%nat)
    by (destruct M; [congruence | cbn [length]; lia]).
  split; unfold moveRows, beginMoveRows.
  - replace ((0 <=? Z.of_nat (length l0 + length M))
             && (Z.of_nat (length l0 + length M)
                 <=? Z.of_nat (length l0 + length M) + 1 - 1)
             && (0 <=? Z.of_nat (length l0))) with true
      by (symmetry; repeat (apply andb_true_intro; split); apply Z.leb_le; lia).
    replace (Z.of_nat (length l0 + length M) <=? Z.of_nat (length l0))
      with false by (symmetry; apply Z.leb_gt; lia).
    cbn [andb negb].
    pose proof (@move_loop_up CountryData l0 M [x] R 1 HM 0 eq_refl) as H.
    cbn [firstn rev skipn app] in H.
    change (Z.to_nat 1) with 1%nat. change (Z.of_nat 0) with 0 in H.
    now rewrite H.
  - replace ((0 <=? Z.of_nat (length l0))
             && (Z.of_nat (length l0) <=? Z.of_nat (length l0) + 1 - 1)
             && (0 <=? Z.of_nat (length l0 + 1 + length M))) with true
      by (symmetry; repeat (apply andb_true_intro; split); apply Z.leb_le; lia).
    replace (Z.of_nat (length l0 + 1 + length M)
             <=? Z.of_nat (length l0) + 1 - 1 + 1)
      with false by (symmetry; apply Z.leb_gt; lia).
    rewrite andb_false_r. cbn [negb].
    change (Z.to_nat 1) with 1%nat. cbn [move_loop].
    replace (Z.of_nat (length l0) >? Z.of_nat (length l0 + 1 + length M))
      with false by (symmetry; rewrite Z.gtb_ltb; apply Z.ltb_ge; lia).
    replace (Z.of_nat (length l0) + 0) with (Z.of_nat (length l0)) by lia.
    replace (Z.of_nat (length l0 + 1 + length M) + -1)
      with (Z.of_nat (length l0 + length M)) by lia.
    now rewrite QList_move_down.
Qed.

Lemma moveRows_one_row_witness :
  moveRows sample_countries 2 1 0 =
  Some (true, [mkCountryData "India" 1380; mkCountryData "USA" 331;
               mkCountryData "China" 1439]) /\
  moveRows sample_countries 0 1 3 =
  Some (true, [mkCountryData "China" 1439; mkCountryData "India" 1380;
               mkCountryData "USA" 331]).
Proof.
  split.
  - apply (proj1 (@moveRows_one_row []
                    [mkCountryData "USA" 331; mkCountryData "China" 1439] []
                    (mkCountryData "India" 1380) ltac:(discriminate))).
  - apply (proj2 (@moveRows_one_row []
                    [mkCountryData "China" 1439; mkCountryData "India" 1380] []
                    (mkCountryData "USA" 331) ltac:(discriminate))).
Defined.

(** X24.  Moving a block of several rows towards the front: [moveRows] moves
    the rows of the block one by one to the destination index, each before
    the one moved just before it, so the block arrives in reverse order; the
    rows it jumps over and all other rows keep their order. *)
Theorem moveRows_block_to_front (l0 M B R : list CountryData) :
  M <> [] -> B <> [] ->
  moveRows (l0 ++ M ++ B ++ R) (Z.of_nat (length l0 + length M))
    (Z.of_nat (length B)) (Z.of_nat (length l0))
  = Some (true, l0 ++ rev B ++ M ++ R).
Proof.
  intros HM HB.
  assert (HlenM : (0 < length M)%nat)
    by (destruct M; [congruence | cbn [length]; lia]).
  assert (HlenB : (0 < length B)%nat)
    by (destruct B; [congruence | cbn [length]; lia]).
  unfold moveRows, beginMoveRows.
  replace ((0 <=? Z.of_nat (length l0 + length M))
           && (Z.of_nat (length l0 + length M)
               <=? Z.of_nat (length l0 + length M) + Z.of_nat (length B) - 1)
           && (0 <=? Z.of_nat (length l0))) with true
    by (symmetry; repeat (apply andb_true_intro; split); apply Z.leb_le; lia).
  replace (Z.of_nat (length l0 + length M) <=? Z.of_nat (length l0))
    with false by (symmetry; apply Z.leb_gt; lia).
  cbn [andb negb]. rewrite Nat2Z.id.
  pose proof (@move_loop_up CountryData l0 M B R (length B) HM 0 eq_refl) as H.
  cbn [firstn rev skipn app] in H. change (Z.of_nat 0) with 0 in H.
  now rewrite H.
Qed.

Lemma moveRows_block_to_front_witness :
  moveRows sample_countries 1 2 0 =
  Some (true, [mkCountryData "India" 1380; mkCountryData "China" 1439;
               mkCountryData "USA" 331]).
Proof.
  apply (@moveRows_block_to_front [] [mkCountryData "USA" 331]
           [mkCountryData "China" 1439; mkCountryData "India" 1380] []);
    discriminate.
Defined.

End ReorderFacts.

(* ===================================================================== *)
(** ** The tree model: detaching one node *)

Module DetachFacts.
Import TreeNodes NodeOps Mime TreeModels TreeNodeFacts StoreFacts.
Import DropFacts NotifyFacts TreeQueries RemovalFacts QueryFacts.
Import InvariantFacts.
Local Open Scope model_scope.

Lemma NoDup_flat_map_in {A B} (f : A -> list B) (l : list A) (x : A) :
  NoDup (flat_map f l) -> In x l -> NoDup (f x).
Proof.
  induction l as [|h t IH]; intros Hnd Hin; [destruct Hin|].
  cbn [flat_map] in Hnd. apply NoDup_app_inv in Hnd as (Hh & Ht & _).
  destruct Hin as [<-|Hin]; [exact Hh | now apply IH].
Qed.

Lemma subtree_NoDup (t n : TreeNode) :
  NoDup (addrs t) -> In n (subtrees t) -> NoDup (addrs n).
Proof.
  induction t as [a cs d p IH] using TreeNode_ind.
  rewrite subtrees_unfold. cbn [m_childNodes].
  intros Hnd [<-|Hin]; [exact Hnd|].
  rewrite addrs_unfold in Hnd. cbn [this_addr m_childNodes] in Hnd.
  apply NoDup_cons_iff in Hnd as [_ Hnd].
  apply in_flat_map in Hin as (c & Hc & Hn).
  rewrite Forall_forall in IH. apply (IH c Hc); [|exact Hn].
  eapply NoDup_flat_map_in; eassumption.
Qed.

Lemma children_addrs_NoDup (l : list TreeNode) :
  NoDup (flat_map addrs l) -> NoDup (map this_addr l).
Proof.
  induction l as [|c r IH]; intros Hnd; [constructor|].
  cbn [flat_map map] in *. apply NoDup_app_inv in Hnd as (Hc & Hr & Hdisj).
  constructor; [|now apply IH].
  intros Hin. apply in_map_iff in Hin as (x & Hx & Hxin).
  apply (Hdisj (this_addr c)).
  - rewrite addrs_unfold. now left.
  - apply in_flat_map. exists x. split; [exact Hxin|].
    rewrite addrs_unfold, Hx. now left.
Qed.

(** Among children with distinct addresses, the search of [row()] finds
    a child at its own position. *)
Lemma find_index_child (l : list TreeNode) (i : nat) (n : TreeNode) :
  NoDup (map this_addr l) ->
  nth_error l i = Some n ->
  find_index (fun x => this_addr x =? this_addr n) l = Some i.
Proof.
  intros Hnd Hn. apply find_index_first with (x := n).
  - exact Hn.
  - apply Z.eqb_refl.
  - intros j y Hj Hy. apply Z.eqb_neq. intros E.
    assert (Hij : j = i); [|lia].
    apply (@NoDup_nth_error_inj _ (map this_addr l) j i (this_addr n) Hnd).
    + rewrite nth_error_map, Hy. cbn. now rewrite E.
    + rewrite nth_error_map, Hn. reflexivity.
Qed.

(** Where a node that names a parent sits: in a consistent memory it is
    one of the children of the node at that address. *)
Lemma child_of_parent (w : World) (node p : ptr) (n pn : TreeNode) :
  store_ok w ->
  deref (heap w) node = Some n ->
  m_parentNode n = Some p ->
  deref (heap w) p = Some pn ->
  exists i,
    nth_error (m_childNodes pn) i = Some n /\
    NoDup (map this_addr (m_childNodes pn)).
Proof.
  intros [[(Hnd & _) _] Hroots] Hn Hpar Hpn.
  destruct (deref_subtree _ _ Hn) as (t & Ht & Hnt).
  rewrite Forall_forall in Hroots. destruct (Hroots t Ht) as [Hok Hnone].
  destruct (subtree_cases _ _ Hnt) as [->|(g & Hg & Hc)]; [congruence|].
  pose proof (parents_ok_subtree _ _ Hok Hg) as Hgok.
  destruct (parents_ok_child _ _ Hgok Hc) as [Hpar' _].
  assert (Hp : p = this_addr g) by congruence.
  rewrite Hp, (@deref_subtree_found _ _ _ Hnd Ht Hg) in Hpn.
  injection Hpn as <-.
  destruct (In_nth_error _ _ Hc) as [i Hi]. exists i. split; [exact Hi|].
  apply children_addrs_NoDup.
  assert (Hndg : NoDup (addrs g)).
  { eapply subtree_NoDup; [|exact Hg].
    eapply NoDup_flat_map_in; [exact Hnd | exact Ht]. }
  rewrite addrs_unfold in Hndg. now apply NoDup_cons_iff in Hndg.
Qed.

(** X25.  [removeNode] on a node that has a parent, in a consistent memory:
    the call is defined, it returns the very node asked for (with all it
    owns), the parent's child sequence loses that one row and keeps the
    others in order, the node's address no longer names an object of the
    models, and the removal is announced for the node's row under the
    index of its parent: the index [parent] gives for the node's own
    index, which is the one [indexForItem] makes for the parent node
    (invalid for the root, else the parent's row, column 0 and its
    address). *)
Theorem removeNode_detaches (m : nat) (w : World) (root node p : ptr)
  (n pn : TreeNode) :
  store_ok w ->
  rootNode_get m w = Some (root, w) ->
  deref (heap w) node = Some n ->
  m_parentNode n = Some p ->
  deref (heap w) p = Some pn ->
  Z.of_nat (length (m_childNodes pn)) <= INT_MAX ->
  exists i pidx w',
    removeNode m node w = Some (n, w') /\
    nth_error (m_childNodes pn) i = Some n /\
    heap w' = map (replace_node p
                     (set_children pn
                        (firstn i (m_childNodes pn)
                           ++ skipn (S i) (m_childNodes pn))))
                (heap w) /\
    deref (heap w') node = None /\
    indexForItem m node w = Some (Index (Z.of_nat i) 0 node, w) /\
    parent_index m (Index (Z.of_nat i) 0 node) w = Some (pidx, w) /\
    indexForItem m p w = Some (pidx, w) /\
    node_named root pidx = p /\
    log w' = log w ++ [BeginRemoveRows pidx (Z.of_nat i) (Z.of_nat i);
                       ChildTaken p (Z.of_nat i); EndRemoveRows].
Proof.
  intros Hok Hroot Hn Hpar Hpn Hfit.
  destruct (@child_of_parent w node p n pn Hok Hn Hpar Hpn) as (i & Hi & Hnd).
  assert (Hlt : (i < length (m_childNodes pn))%nat)
    by (apply nth_error_Some; congruence).
  destruct (deref_in_store _ _ Hn) as [_ Haddr].
  destruct (deref_in_store _ _ Hpn) as [_ Hpaddr].
  pose proof Hok as [[(Hnds & _) _] Hroots].
  assert (Hrow : call_row node w = Some (Z.of_nat i, w)).
  { unfold call_row. rewrite Hn. unfold row, lift. rewrite Hpar, Hpn.
    rewrite (@find_index_child _ i n Hnd Hi).
    now rewrite to_int_small by lia. }
  assert (Hnr : (node =? root) = false).
  { apply Z.eqb_neq. intros ->.
    unfold rootNode_get, lift in Hroot.
    destruct (nth_error (heap w) m) as [t|] eqn:Et; [|discriminate].
    cbn [option_map] in Hroot. injection Hroot as Hroot.
    assert (Ht : In t (heap w)) by (eapply nth_error_In; exact Et).
    assert (Hself : In t (subtrees t)) by (rewrite subtrees_unfold; now left).
    pose proof (@deref_subtree_found _ _ _ Hnds Ht Hself) as Hd.
    rewrite Hroot, Hn in Hd. injection Hd as ->.
    rewrite Forall_forall in Hroots. destruct (Hroots t Ht). congruence. }
  assert (Hidx : indexForItem m node w = Some (Index (Z.of_nat i) 0 node, w)).
  { unfold indexForItem, bind. rewrite Hroot, Hnr. cbn [negb].
    now rewrite Hrow. }
  destruct (@row_defined w p pn Hok Hpn) as [rv Hprow].
  set (pidx := if negb (p =? root) then Index rv 0 p else InvalidIndex).
  assert (Hpidx : parent_index m (Index (Z.of_nat i) 0 node) w
                  = Some (pidx, w)).
  { unfold parent_index. cbn [isValid negb internalPointer].
    unfold bind at 1. unfold load at 1, lift. rewrite Hn.
    unfold parentNode. rewrite Hpar. unfold indexForItem, bind.
    rewrite Hroot. unfold pidx.
    destruct (negb (p =? root)); [now rewrite Hprow | reflexivity]. }
  assert (Htake : takeChild pn (Z.of_nat i)
                  = Some (n, set_children pn
                               (firstn i (m_childNodes pn)
                                  ++ skipn (S i) (m_childNodes pn)))).
  { unfold takeChild.
    replace ((0 <=? Z.of_nat i)
             && (Z.of_nat i <? Z.of_nat (length (m_childNodes pn))))
      with true
      by (symmetry; apply andb_true_intro; split;
          [apply Z.leb_le | apply Z.ltb_lt]; lia).
    now rewrite Nat2Z.id, Hi. }
  exists i, pidx. eexists. split; [|split; [exact Hi|]].
  - unfold removeNode. unfold bind at 1. rewrite Hrow.
    unfold bind at 1. rewrite Hidx. unfold bind at 1. rewrite Hpidx.
    unfold bind at 1. cbn [emit]. unfold bind at 1.
    unfold load at 1, lift. cbn [heap]. rewrite Hn.
    unfold parentNode. rewrite Hpar.
    unfold bind at 1. unfold call_takeChild. cbn [heap]. rewrite Hpn, Htake.
    unfold bind, emit, ret. reflexivity.
  - cbn [heap log next_addr applicationPid].
    split; [reflexivity|]. split; [|split].
    + rewrite deref_find_in. apply find_in_None.
      pose proof (take_addrs _ _ Htake) as Hperm.
      pose proof (@store_addrs_written p pn _ (addrs n) [] Hperm (heap w)
                    Hnds Hpn) as Hst.
      rewrite app_nil_r in Hst.
      assert (Hnd' : NoDup (store_addrs
                              (map (replace_node p
                                      (set_children pn
                                         (firstn i (m_childNodes pn)
                                            ++ skipn (S i) (m_childNodes pn))))
                                 (heap w)) ++ addrs n))
        by (eapply Permutation_NoDup; [symmetry; exact Hst | exact Hnds]).
      apply NoDup_app_inv in Hnd' as (_ & _ & Hdisj).
      intros Hin. apply (Hdisj node Hin).
      rewrite addrs_unfold, Haddr. now left.
    + exact Hidx.
    + split; [exact Hpidx|]. split; [|split].
      * unfold indexForItem, bind. rewrite Hroot. unfold pidx.
        destruct (negb (p =? root)); [now rewrite Hprow | reflexivity].
      * unfold pidx, node_named.
        destruct (Z.eqb_spec p root); cbn [negb isValid internalPointer];
          congruence.
      * now rewrite <- !app_assoc.
Qed.

Lemma removeNode_detaches_witness :
  exists w',
    removeNode 0 4 sample_world
    = Some (TreeNode_new 4 [QVString "A1"] (Some 2), w') /\
    deref (heap w') 2 = Some (TreeNode_new 2 [QVString "A"] (Some 1)) /\
    deref (heap w') 4 = None /\
    log w' = [BeginRemoveRows (Index 0 0 2) 0 0; ChildTaken 2 0;
              EndRemoveRows].
Proof.
  destruct (@removeNode_detaches 0 sample_world 1 4 2
              (TreeNode_new 4 [QVString "A1"] (Some 2))
              (appendChild (TreeNode_new 2 [QVString "A"] (Some 1))
                 (TreeNode_new 4 [QVString "A1"] (Some 2)))
              sample_world_ok eq_refl eq_refl eq_refl eq_refl)
    as (i & pidx & w' & Hrun & Hi & Hheap & Hgone & _ & _ & Hpidx & _ & Hlog).
  - unfold INT_MAX. simpl. lia.
  - assert (Hi0 : i = 0%nat).
    { destruct i as [|[|i]]; [reflexivity | discriminate Hi
                                          | discriminate Hi]. }
    assert (Hp : pidx = Index 0 0 2)
      by (vm_compute in Hpidx; congruence).
    rewrite Hi0 in *. rewrite Hp in *.
    exists w'. split; [exact Hrun|]. split; [|split].
    + rewrite Hheap. reflexivity.
    + exact Hgone.
    + exact Hlog.
Defined.

End DetachFacts.

(* ===================================================================== *)
(** ** The tree model: the nodes hold the lines *)

Module SetupDataFacts.
Import TreeNodes NodeOps Mime TreeModels TreeNodeFacts StoreFacts.
Import DropFacts NotifyFacts TreeQueries RemovalFacts QueryFacts.
Import InvariantFacts ViewFacts TreeSetup SetupFacts.
Local Open Scope model_scope.

Lemma keeps_objects_refl (w : World) : keeps_objects w w.
Proof. intros b orig H. exists orig. auto. Qed.

Lemma keeps_objects_trans (w1 w2 w3 : World) :
  keeps_objects w1 w2 -> keeps_objects w2 w3 -> keeps_objects w1 w3.
Proof.
  intros H12 H23 b orig H.
  destruct (H12 b orig H) as (mid & Hmid & Hd & Hp).
  destruct (H23 b mid Hmid) as (now & Hnow & Hd' & Hp').
  exists now. split; [exact Hnow|]. split; congruence.
Qed.

Lemma appendChild_with_inserted (this node : TreeNode) :
  appendChild this node
  = with_inserted this (length (m_childNodes this)) [node].
Proof.
  unfold appendChild, with_inserted.
  now rewrite firstn_all, skipn_all, app_nil_r.
Qed.

Lemma parent_after_write_of (st : Store) (P p : ptr) (pn orig cur : TreeNode) :
  deref st P = Some pn ->
  deref st p = Some orig ->
  m_parentNode cur = m_parentNode pn ->
  m_parentNode (replace_node P cur orig) = m_parentNode orig.
Proof.
  intros Hpn Horig Hcur. rewrite replace_node_unfold.
  destruct (Z.eqb_spec (this_addr orig) P) as [E|E]; [|reflexivity].
  destruct (deref_in_store _ _ Horig) as [_ Hp].
  rewrite Hcur. f_equal. congruence.
Qed.

(** What appending a new node leaves of the old objects, and where the
    new object is. *)
Lemma append_new_frame (w w' : World) (p : ptr) (data : QVariantList) :
  store_ok w ->
  call_appendChild_new p data w = Some (tt, w') ->
  keeps_objects w w' /\
  exists n, deref (heap w') (next_addr w) = Some n /\ m_itemData n = data.
Proof.
  intros Hok Hrun.
  assert (Hp : In p (store_addrs (heap w))).
  { unfold call_appendChild_new in Hrun.
    destruct (deref (heap w) p) eqn:E; [|discriminate].
    now apply deref_in_store in E. }
  destruct (@append_new_ok w p data Hok Hp) as (w2 & Hrun2 & Hok' & _).
  assert (Hw : w2 = w') by congruence. rewrite Hw in *. clear Hw Hrun2.
  unfold call_appendChild_new in Hrun.
  destruct (deref (heap w) p) as [this|] eqn:Hthis; [|discriminate].
  injection Hrun as <-. cbn [heap] in *.
  set (node := TreeNode_new (next_addr w) data (Some p)) in *.
  pose proof Hok as [[Hwf _] _].
  destruct (deref_in_store _ _ Hthis) as [_ Haddr].
  split.
  - intros b orig Hb.
    exists (replace_node p (appendChild this node) orig). split; [|split].
    + rewrite appendChild_with_inserted.
      apply (@deref_inserted w p this (length (m_childNodes this)) Hwf Hthis
               (Nat.le_refl _) [node] b orig); [|exact Hb].
      unfold fresh_nodes. cbn [flat_map node TreeNode_new addrs this_addr
                                 m_childNodes app].
      repeat constructor. lia.
    + now apply (@itemData_after_write (heap w) p b this orig).
    + now apply (@parent_after_write_of (heap w) p b this orig).
  - exists node. split; [|reflexivity].
    assert (Hcur : deref (map (replace_node p (appendChild this node)) (heap w)) p
                   = Some (appendChild this node))
      by (apply deref_written; [exact Haddr | exact Hp]).
    destruct (deref_subtree _ _ Hcur) as (t & Ht & Hn).
    change (next_addr w) with (this_addr node).
    eapply deref_subtree_found; [apply Hok' | exact Ht |].
    eapply child_subtree; [exact Hn|].
    cbn [appendChild set_children m_childNodes].
    apply in_or_app. right. now left.
Qed.

(** The only write of the loop body is the append of the new node. *)
Lemma setup_line_run (line : string) (state state' : list ParentIndentation)
  (w w' : World) :
  setup_line line state w = Some (state', w') ->
  (makes_node line = false /\ w' = w) \/
  (makes_node line = true /\
   exists p, call_appendChild_new p (line_columns line) w = Some (tt, w')).
Proof.
  unfold setup_line, makes_node, line_columns.
  destruct (negb (isEmpty (trimmed (mid line (leading_spaces line))))).
  2:{ intros [= _ <-]. now left. }
  intros H. right. split; [reflexivity|].
  apply bind_Some in H as (top & w1 & H1 & H).
  apply reads_only_lift in H1 as ->.
  apply bind_Some in H as (state1 & w1 & H1 & H).
  assert (Hw1 : w1 = w).
  { destruct (Z.of_nat (leading_spaces line) >? indentation top).
    - revert H1. apply reads_only_bind; [apply reads_only_load|].
      intros lastParent. destruct (childCount lastParent >? 0);
        apply reads_only_ret.
    - now apply reads_only_lift in H1. }
  rewrite Hw1 in H.
  apply bind_Some in H as (top' & w2 & H2 & H).
  apply reads_only_lift in H2 as ->.
  apply bind_Some in H as ([] & w3 & H3 & H).
  unfold ret in H. injection H as _ <-.
  exists (pi_parent top'). exact H3.
Qed.

Lemma setup_lines_frame (lines : list string) :
  forall (state : list ParentIndentation) (w w' : World),
    store_ok w -> state_ok w state ->
    setup_lines lines state w = Some (tt, w') ->
    keeps_objects w w' /\
    forall i line,
      nth_error (filter makes_node lines) i = Some line ->
      exists n,
        deref (heap w') (next_addr w + Z.of_nat i) = Some n /\
        m_itemData n = line_columns line.
Proof.
  induction lines as [|line rest IH]; intros state w w' Hok Hst Hrun.
  - cbn [setup_lines] in Hrun. unfold ret in Hrun. injection Hrun as <-.
    split; [apply keeps_objects_refl|].
    intros [|i] l Hl; discriminate.
  - destruct (@setup_line_ok line state w Hok Hst)
      as (state1 & w1 & Hrun1 & Hok1 & Hst1 & _ & Hnx1 & _).
    cbn [setup_lines] in Hrun. unfold bind in Hrun. rewrite Hrun1 in Hrun.
    destruct (IH state1 w1 w' Hok1 Hst1 Hrun) as [Hkeep Hnodes].
    cbn [filter].
    destruct (setup_line_run _ _ _ Hrun1) as [[Hmk Hw]|[Hmk (p & Happ)]];
      rewrite Hmk in *.
    + rewrite Hw in *. split; [exact Hkeep | exact Hnodes].
    + destruct (@append_new_frame w w1 p (line_columns line) Hok Happ)
        as [Hkeep1 (n0 & Hn0 & Hd0)].
      split; [eapply keeps_objects_trans; eassumption|].
      intros [|i] l Hl; cbn [nth_error] in Hl.
      * injection Hl as <-. rewrite Z.add_0_r.
        destruct (Hkeep _ _ Hn0) as (now & Hnow & Hd & _).
        exists now. split; [exact Hnow | congruence].
      * destruct (Hnodes i l Hl) as (n & Hn & Hd).
        exists n. split; [|exact Hd].
        rewrite <- Hn. f_equal. lia.
Qed.

(** X26.  The nodes [setupModelData] makes hold the lines: in a
    consistent memory, for a live [parent], the call is defined; the
    node made for the i-th line that holds something besides white
    space lives at the i-th address handed out and holds as column
    values the non-empty tab-separated parts of the line without its
    surrounding white space; and every object that existed before is
    still at its address with its column values and its parent. *)
Theorem setupModelData_nodes_hold_lines (lines : list string) (parent : ptr)
  (w : World) :
  store_ok w ->
  In parent (store_addrs (heap w)) ->
  exists w',
    setupModelData lines parent w = Some (tt, w') /\
    keeps_objects w w' /\
    forall i line,
      nth_error (filter makes_node lines) i = Some line ->
      exists n,
        deref (heap w') (next_addr w + Z.of_nat i) = Some n /\
        m_itemData n = line_columns line.
Proof.
  intros Hok Hin.
  assert (Hst : state_ok w [mkParentIndentation parent 0]).
  { split; [repeat constructor; exact Hin|]. now exists [], parent. }
  destruct (@setup_lines_ok lines _ w Hok Hst) as (w' & Hrun & _).
  exists w'. split; [exact Hrun|].
  eapply setup_lines_frame; eassumption.
Qed.

Lemma setupModelData_nodes_hold_lines_witness :
  exists w',
    setupModelData
      ["Getting Started"%string; ""%string; "  Launching"%string]
      10 sample_world = Some (tt, w') /\
    keeps_objects sample_world w' /\
    exists n,
      deref (heap w') 21 = Some n /\
      m_itemData n = [QVString "Launching"].
Proof.
  destruct (@setupModelData_nodes_hold_lines
              ["Getting Started"%string; ""%string; "  Launching"%string]
              10 sample_world sample_world_ok)
    as (w' & Hrun & Hkeep & Hnodes).
  - vm_compute. tauto.
  - exists w'. split; [exact Hrun|]. split; [exact Hkeep|].
    exact (Hnodes 1%nat "  Launching"%string eq_refl).
Defined.

End SetupDataFacts.
